(** * Proof checker: the AST-to-solver translator, the verification driver,
    the lexer and the parser of the proof language

    A shallow embedding of [python/prover.py] and [python/parser.py], and
    of the request handler of [web/app.py] that calls them.

    - The AST handed to the prover is JSON: Python dicts, lists, strings,
      numbers, booleans and [None].  It is modelled as the inductive [json],
      with the handful of Python primitives the prover applies to such
      values ([d.get(k)], [k in d], [len], truth value, iteration, hashing).
    - The SMT solver is external.  Its expression language is the free term
      algebra [z3.expr]; its [check()] and the printing of model values are
      parameters of the driver.
    - Python exceptions are an error monad.
    - The parser object is a record, and its methods are functions in a
      state and error monad over it.  The recursive descent takes a bound
      on its depth, which is shown to be a bound only: a larger one changes
      no result.
    - The file system that [import] reads is a parameter of the parser.

    The definitions come first: prover, lexer, parser, sample inputs, and
    the notions the further facts are stated with.  The facts follow, and
    the tests of the repository close the file. *)

From Stdlib Require Import ZArith List String Ascii Bool Lia DecimalString Sorted.
From stdpp Require Import gmap strings list.

Open Scope string_scope.
Open Scope list_scope.

(** ** JSON values as Python sees them *)

(** What [json.load] produces.  Numbers are the integers; in the ASTs the
    parser writes, decimal literals travel as strings.  A string is a
    sequence of characters. An object is the list of its items; the first
    item with a given key is the one the dict holds. *)
#[local] Unset Elimination Schemes.
Inductive json : Type :=
| JNull
| JBool (b : bool)
| JInt (z : Z)
| JStr (s : string)
| JArr (items : list json)
| JObj (fields : list (string * json)).
#[local] Set Elimination Schemes.

(** Induction over JSON values with the nested lists unfolded. *)
Section json_induction.
Variable P : json -> Prop.
Hypothesis HNull : P JNull.
Hypothesis HBool : forall b, P (JBool b).
Hypothesis HInt : forall z, P (JInt z).
Hypothesis HStr : forall s, P (JStr s).
Hypothesis HArr : forall l, Forall P l -> P (JArr l).
Hypothesis HObj : forall kv, Forall (fun p => P (snd p)) kv -> P (JObj kv).

Fixpoint json_nested_ind (j : json) : P j :=
  match j with
  | JNull => HNull
  | JBool b => HBool b
  | JInt z => HInt z
  | JStr s => HStr s
  | JArr l =>
      HArr l ((fix all (l : list json) : Forall P l :=
                 match l with
                 | [] => List.Forall_nil _
                 | x :: l' => List.Forall_cons _ x l' (json_nested_ind x) (all l')
                 end) l)
  | JObj kv =>
      HObj kv ((fix all (kv : list (string * json)) : Forall (fun p => P (snd p)) kv :=
                  match kv with
                  | [] => List.Forall_nil _
                  | p :: kv' => List.Forall_cons _ p kv' (json_nested_ind (snd p)) (all kv')
                  end) kv)
  end.
End json_induction.

(** [assoc k d]: the value the dict with items [d] holds at key [k]. *)
Fixpoint assoc (k : string) (d : list (string * json)) : option json :=
  match d with
  | [] => None
  | (k', v) :: rest => if String.eqb k k' then Some v else assoc k rest
  end.

(** [d.get(k)]: [None] when the key is missing. *)
Definition dict_get (d : list (string * json)) (k : string) : json :=
  match assoc k d with Some v => v | None => JNull end.

(** [d.get(k, [])] *)
Definition dict_get_list (d : list (string * json)) (k : string) : json :=
  match assoc k d with Some v => v | None => JArr [] end.

(** [k in d] *)
Definition dict_has (d : list (string * json)) (k : string) : bool :=
  match assoc k d with Some _ => true | None => false end.

(** The same lookup in continuation style: [found] is applied to the value
    at [k], and the result is [missing] when there is none.  The recursive
    translators below reach their children through it, which keeps their
    recursion structural. *)
Section on_field.
Context {A : Type}.
Variable k : string.
Variable found : json -> A.
Variable missing : A.

Fixpoint on_field (d : list (string * json)) : A :=
  match d with
  | [] => missing
  | (k', v) :: rest => if String.eqb k k' then found v else on_field rest
  end.
End on_field.

(** The keys of a dict, each once, in insertion order. *)
Fixpoint dict_keys (d : list (string * json)) : list string :=
  match d with
  | [] => []
  | (k, _) :: rest => k :: filter (fun k' => negb (String.eqb k k')) (dict_keys rest)
  end.

(** [x is None] *)
Definition is_none (j : json) : bool :=
  match j with JNull => true | _ => false end.

(** [x == "text"] for a string literal on the right. *)
Definition str_is (j : json) (s : string) : bool :=
  match j with JStr s' => String.eqb s' s | _ => false end.

(** The truth value of [x] in [if x:] and [if not x:]. *)
Definition truthy (j : json) : bool :=
  match j with
  | JNull => false
  | JBool b => b
  | JInt z => negb (Z.eqb z 0)
  | JStr s => negb (String.eqb s "")
  | JArr l => match l with [] => false | _ => true end
  | JObj d => match d with [] => false | _ => true end
  end.

(** [type(x).__name__] *)
Definition type_name (j : json) : string :=
  match j with
  | JNull => "NoneType"
  | JBool _ => "bool"
  | JInt _ => "int"
  | JStr _ => "str"
  | JArr _ => "list"
  | JObj _ => "dict"
  end.

(** ** Exceptions *)

(** [TermError] and [FormulaError] are the prover's own; [PyError] stands
    for every other subclass of [Exception] that can reach the handler of
    [prove]: [TypeError], [AttributeError] and [KeyError] raised by the
    interpreter, and the solver library's exception.  Messages that print
    the offending object keep their fixed part only. *)
Inductive exn : Type :=
| TermError (msg : string)
| FormulaError (msg : string)
| PyError (cls : string) (msg : string).

Inductive Res (A : Type) : Type :=
| Ok (a : A)
| Raise (e : exn).
Arguments Ok {A} a.
Arguments Raise {A} e.

Definition bind {A B : Type} (m : Res A) (k : A -> Res B) : Res B :=
  match m with
  | Ok a => k a
  | Raise e => Raise e
  end.

Notation "'let*' x := m 'in' k" := (bind m (fun x => k))
  (at level 10, x pattern, m at level 100, k at level 200).

(** [len(x)] *)
Definition py_len (j : json) : Res nat :=
  match j with
  | JStr s => Ok (String.length s)
  | JArr l => Ok (length l)
  | JObj d => Ok (length (dict_keys d))
  | _ => Raise (PyError "TypeError" ("object of type '" +:+ type_name j +:+ "' has no len()"))
  end.

(** [for x in j]: the values the loop visits. *)
Definition py_iter (j : json) : Res (list json) :=
  match j with
  | JStr s => Ok (map (fun c => JStr (String c "")) (list_ascii_of_string s))
  | JArr l => Ok l
  | JObj d => Ok (map JStr (dict_keys d))
  | _ => Raise (PyError "TypeError" ("'" +:+ type_name j +:+ "' object is not iterable"))
  end.

(** [x.get]: only a dict has the method. *)
Definition as_dict (j : json) : Res (list (string * json)) :=
  match j with
  | JObj d => Ok d
  | _ => Raise (PyError "AttributeError" ("'" +:+ type_name j +:+ "' object has no attribute 'get'"))
  end.

(** Dict keys.  Strings, numbers and [None] can be hashed, lists and dicts
    cannot.  Keys are kept up to Python's equality, under which [True] is
    [1] and [False] is [0]. *)
Inductive pykey : Type :=
| KNone
| KInt (z : Z)
| KStr (s : string).

Definition pykey_eqb (a b : pykey) : bool :=
  match a, b with
  | KNone, KNone => true
  | KInt x, KInt y => Z.eqb x y
  | KStr x, KStr y => String.eqb x y
  | _, _ => false
  end.

Definition hash_key (j : json) : Res pykey :=
  match j with
  | JNull => Ok KNone
  | JBool b => Ok (KInt (Z.b2z b))
  | JInt z => Ok (KInt z)
  | JStr s => Ok (KStr s)
  | _ => Raise (PyError "TypeError" ("unhashable type: '" +:+ type_name j +:+ "'"))
  end.

(** ** The solver's expressions *)

(** The constructors of the solver's Python interface that the translator
    calls, as a free term algebra.  [PyInt] and [PyBool] are Python values
    that reach the solver as operands ([x >= 0], the [True] and [False] of
    the empty conjunction and disjunction). *)
Module z3.
#[local] Unset Elimination Schemes.
Inductive expr : Type :=
| RealVal (v : json)
| Int (name : pykey)
| Real (name : pykey)
| PyInt (z : Z)
| PyBool (b : bool)
| Add (a b : expr)
| Sub (a b : expr)
| Mul (a b : expr)
| Div (a b : expr)
| Pow (a b : expr)
| Neg (a : expr)
| If (c a b : expr)
| Lt (a b : expr)
| Le (a b : expr)
| Eq (a b : expr)
| Ne (a b : expr)
| Gt (a b : expr)
| Ge (a b : expr)
| And (args : list expr)
| Or (args : list expr)
| Not (a : expr)
| Implies (a b : expr)
| ForAll (vs : list expr) (body : expr)
| Exists (vs : list expr) (body : expr).
#[local] Set Elimination Schemes.
End z3.

(** ** The variable environment *)

(** [env]: a Python dict from names to solver constants, in insertion
    order. *)
Definition Env : Type := list (pykey * z3.expr).

Fixpoint env_lookup (k : pykey) (env : Env) : option z3.expr :=
  match env with
  | [] => None
  | (k', v) :: rest => if pykey_eqb k k' then Some v else env_lookup k rest
  end.

(** [env[k] = v]: replaces the value of an existing key in place, appends
    a new key. *)
Fixpoint env_set (k : pykey) (v : z3.expr) (env : Env) : Env :=
  match env with
  | [] => [(k, v)]
  | (k', v') :: rest =>
      if pykey_eqb k k' then (k', v) :: rest else (k', v') :: env_set k v rest
  end.

(** [var_types.get(name) == 'Int'].  The keys of [var_types] are strings. *)
Definition is_Int (var_types : gmap string json) (name : pykey) : bool :=
  match name with
  | KStr s => match var_types !! s with Some v => str_is v "Int" | None => false end
  | _ => false
  end.

(** [Int(name)] if [var_types] says so, [Real(name)] otherwise. *)
Definition mk_const (var_types : gmap string json) (name : pykey) : z3.expr :=
  if is_Int var_types name then z3.Int name else z3.Real name.

(** ** The translator: [term_to_z3] and [formula_to_z3] *)

(** The translators update [env] in place.  Here they return the updated
    environment next to the expression.  When they raise, the environment
    is dropped: no caller in the driver looks at it after an exception. *)
Definition Tr : Type := Env -> Res (z3.expr * Env).

(** [result = term(args[0]); for arg in args[1:]: other = term(arg);
    result = If(result <op> other, result, other)] *)
Section fold_args.
Variable term : json -> Tr.
Variable cmp : z3.expr -> z3.expr -> z3.expr.

Fixpoint fold_rest (rest : list json) (result : z3.expr) (env : Env)
  : Res (z3.expr * Env) :=
  match rest with
  | [] => Ok (result, env)
  | arg :: rest' =>
      let* (other, env1) := term arg env in
      fold_rest rest' (z3.If (cmp result other) result other) env1
  end.

Definition fold_args (what : string) (l : list json) (env : Env)
  : Res (z3.expr * Env) :=
  if (length l <? 2)%nat
  then Raise (TermError (what +:+ " requires at least 2 arguments"))
  else match l with
       | [] => Raise (TermError (what +:+ " requires at least 2 arguments"))
       | a0 :: rest =>
           let* (result, env1) := term a0 env in
           fold_rest rest result env1
       end.
End fold_args.

(** [min] and [max] whose ["args"] is not a list.  [len] raises on [None]
    and on numbers; a string or a dict of length two or more gets past the
    arity check: the first character of a string is not a term object, and
    [args[0]] on a dict is a [KeyError]. *)
Definition fold_args_other (what : string) (args : json) : Res (z3.expr * Env) :=
  let* n := py_len args in
  if (n <? 2)%nat
  then Raise (TermError (what +:+ " requires at least 2 arguments"))
  else match args with
       | JObj _ => Raise (PyError "KeyError" "0")
       | _ => Raise (TermError "Term must be an object, got: str")
       end.

Fixpoint term_to_z3 (var_types : gmap string json) (t : json) (env : Env)
  {struct t} : Res (z3.expr * Env) :=
  match t with
  | JObj d =>
      let ty := dict_get d "type" in
      if is_none ty then Raise (TermError "Term missing 'type' field")
      else if str_is ty "num" then
        let value := dict_get d "value" in
        if is_none value then Raise (TermError "Numeric term missing 'value' field")
        else Ok (z3.RealVal value, env)
      else if str_is ty "var" then
        let name := dict_get d "name" in
        if is_none name then Raise (TermError "Variable term missing 'name' field")
        else
          let* k := hash_key name in
          match env_lookup k env with
          | Some v => Ok (v, env)
          | None => let c := mk_const var_types k in Ok (c, env_set k c env)
          end
      else if str_is ty "bin" then
        let op := dict_get d "op" in
        if is_none op then Raise (TermError "Binary term missing 'op' field")
        else
          let missing := Raise (TermError "Binary term missing 'lhs' or 'rhs' field") in
          on_field "lhs" (fun lhs =>
            on_field "rhs" (fun rhs =>
              let* (a, env1) := term_to_z3 var_types lhs env in
              let* (b, env2) := term_to_z3 var_types rhs env1 in
              if str_is op "+" then Ok (z3.Add a b, env2)
              else if str_is op "-" then Ok (z3.Sub a b, env2)
              else if str_is op "*" then Ok (z3.Mul a b, env2)
              else if str_is op "/" then Ok (z3.Div a b, env2)
              else Raise (TermError "Unknown binary operator"))
              missing d)
            missing d
      else if str_is ty "abs" then
        on_field "arg" (fun arg =>
          let* (x, env1) := term_to_z3 var_types arg env in
          Ok (z3.If (z3.Ge x (z3.PyInt 0)) x (z3.Neg x), env1))
          (Raise (TermError "Abs term missing 'arg' field")) d
      else if str_is ty "neg" then
        on_field "arg" (fun arg =>
          let* (x, env1) := term_to_z3 var_types arg env in
          Ok (z3.Neg x, env1))
          (Raise (TermError "Neg term missing 'arg' field")) d
      else if str_is ty "pow" then
        let missing := Raise (TermError "Pow term missing 'base' or 'exp' field") in
        on_field "base" (fun base =>
          on_field "exp" (fun exp =>
            let* (b, env1) := term_to_z3 var_types base env in
            let* (e, env2) := term_to_z3 var_types exp env1 in
            Ok (z3.Pow b e, env2))
            missing d)
          missing d
      else if str_is ty "sqrt" then
        on_field "arg" (fun arg =>
          let* (x, env1) := term_to_z3 var_types arg env in
          Ok (z3.Pow x (z3.RealVal (JStr "0.5")), env1))
          (Raise (TermError "Sqrt term missing 'arg' field")) d
      else if str_is ty "min" then
        on_field "args" (fun args =>
          match args with
          | JArr l => fold_args (term_to_z3 var_types) z3.Le "Min" l env
          | _ => fold_args_other "Min" args
          end)
          (Raise (TermError "Min requires at least 2 arguments")) d
      else if str_is ty "max" then
        on_field "args" (fun args =>
          match args with
          | JArr l => fold_args (term_to_z3 var_types) z3.Ge "Max" l env
          | _ => fold_args_other "Max" args
          end)
          (Raise (TermError "Max requires at least 2 arguments")) d
      else Raise (TermError "Unknown term type")
  | _ => Raise (TermError ("Term must be an object, got: " +:+ type_name t))
  end.

(** [[formula(arg) for arg in args]], one environment threaded through. *)
Section map_args.
Variable formula : json -> Tr.

Fixpoint map_args (l : list json) (env : Env) : Res (list z3.expr * Env) :=
  match l with
  | [] => Ok ([], env)
  | arg :: rest =>
      let* (z, env1) := formula arg env in
      let* (zs, env2) := map_args rest env1 in
      Ok (z :: zs, env2)
  end.
End map_args.

(** [and] and [or] whose ["args"] is not a list.  Of length zero it is
    the empty connective; otherwise the first value the comprehension
    visits is a character or a key, which is not a formula object. *)
Definition connective_other (unit : bool) (args : json) (env : Env)
  : Res (z3.expr * Env) :=
  let* n := py_len args in
  if (n =? 0)%nat then Ok (z3.PyBool unit, env)
  else Raise (FormulaError "Formula must be an object, got: str").

(** [for name in var_names: v = Int(name) or Real(name); env[name] = v;
    quant_vars.append(v)] *)
Fixpoint bind_vars (var_types : gmap string json) (names : list json)
  (quant_vars : list z3.expr) (env : Env) : Res (list z3.expr * Env) :=
  match names with
  | [] => Ok (quant_vars, env)
  | name :: rest =>
      let* k := hash_key name in
      let v := mk_const var_types k in
      bind_vars var_types rest (quant_vars ++ [v]) (env_set k v env)
  end.

Definition rel_of (op : json) (lhs rhs : z3.expr) : Res z3.expr :=
  if str_is op "<" then Ok (z3.Lt lhs rhs)
  else if str_is op "<=" then Ok (z3.Le lhs rhs)
  else if str_is op "=" then Ok (z3.Eq lhs rhs)
  else if str_is op "!=" then Ok (z3.Ne lhs rhs)
  else if str_is op ">" then Ok (z3.Gt lhs rhs)
  else if str_is op ">=" then Ok (z3.Ge lhs rhs)
  else Raise (FormulaError "Unknown relational operator").

Fixpoint formula_to_z3 (var_types : gmap string json) (f : json) (env : Env)
  {struct f} : Res (z3.expr * Env) :=
  match f with
  | JObj d =>
      let ty := dict_get d "type" in
      if is_none ty then Raise (FormulaError "Formula missing 'type' field")
      else if str_is ty "rel" then
        let op := dict_get d "op" in
        if is_none op then Raise (FormulaError "Relational formula missing 'op' field")
        else
          match assoc "lhs" d, assoc "rhs" d with
          | Some l, Some r =>
              let* (lhs, env1) := term_to_z3 var_types l env in
              let* (rhs, env2) := term_to_z3 var_types r env1 in
              let* z := rel_of op lhs rhs in
              Ok (z, env2)
          | _, _ => Raise (FormulaError "Relational formula missing 'lhs' or 'rhs' field")
          end
      else if str_is ty "and" then
        on_field "args" (fun args =>
          match args with
          | JArr [] => Ok (z3.PyBool true, env)
          | JArr l =>
              let* (z3_args, env1) := map_args (formula_to_z3 var_types) l env in
              Ok (z3.And z3_args, env1)
          | _ => connective_other true args env
          end)
          (Ok (z3.PyBool true, env)) d
      else if str_is ty "or" then
        on_field "args" (fun args =>
          match args with
          | JArr [] => Ok (z3.PyBool false, env)
          | JArr l =>
              let* (z3_args, env1) := map_args (formula_to_z3 var_types) l env in
              Ok (z3.Or z3_args, env1)
          | _ => connective_other false args env
          end)
          (Ok (z3.PyBool false, env)) d
      else if str_is ty "not" then
        on_field "arg" (fun arg =>
          let* (inner, env1) := formula_to_z3 var_types arg env in
          Ok (z3.Not inner, env1))
          (Raise (FormulaError "Not formula missing 'arg' field")) d
      else if str_is ty "implies" then
        let missing := Raise (FormulaError "Implies formula missing 'lhs' or 'rhs' field") in
        on_field "lhs" (fun l =>
          on_field "rhs" (fun r =>
            let* (lhs, env1) := formula_to_z3 var_types l env in
            let* (rhs, env2) := formula_to_z3 var_types r env1 in
            Ok (z3.Implies lhs rhs, env2))
            missing d)
          missing d
      else if str_is ty "forall" then
        let var_names := dict_get_list d "vars" in
        if negb (truthy var_names)
        then Raise (FormulaError "Forall formula missing 'vars' field")
        else
          on_field "body" (fun b =>
            let* names := py_iter var_names in
            let* (quant_vars, env1) := bind_vars var_types names [] env in
            let* (body, env2) := formula_to_z3 var_types b env1 in
            Ok (z3.ForAll quant_vars body, env2))
            (Raise (FormulaError "Forall formula missing 'body' field")) d
      else if str_is ty "exists" then
        let var_names := dict_get_list d "vars" in
        if negb (truthy var_names)
        then Raise (FormulaError "Exists formula missing 'vars' field")
        else
          on_field "body" (fun b =>
            let* names := py_iter var_names in
            let* (quant_vars, env1) := bind_vars var_types names [] env in
            let* (body, env2) := formula_to_z3 var_types b env1 in
            Ok (z3.Exists quant_vars body, env2))
            (Raise (FormulaError "Exists formula missing 'body' field")) d
      else Raise (FormulaError "Unknown formula type")
  | _ => Raise (FormulaError ("Formula must be an object, got: " +:+ type_name f))
  end.

(** ** The solver *)

(** What [s.check()] answers for the assertions added to a fresh solver.
    [sat] comes with the model [s.model()] then returns.  [check_raises]
    is the solver library raising its exception, be it in [check()] or
    while one of the asserted expressions is built. *)
Inductive check_result (Model : Type) : Type :=
| sat (m : Model)
| unsat
| unknown
| check_raises (msg : string).
Arguments sat {Model} m.
Arguments unsat {Model}.
Arguments unknown {Model}.
Arguments check_raises {Model} msg.

(** ** Result records *)

(** Python dicts with a fixed set of possible keys: a key that is absent
    from the dict is [None] here. *)
Record case_result : Type := {
  cr_case : nat;
  cr_ok : bool
}.

Record step_result : Type := {
  sr_step : nat;
  sr_type : option string;
  sr_ok : bool;
  sr_status : option string;
  sr_model : option (list (pykey * string));
  sr_error : option string;
  sr_message : option string;
  sr_case_results : option (list case_result)
}.

Record response : Type := {
  ok : bool;
  status : string;
  model : option (list (pykey * string));
  message : option string;
  error : option string;
  step_results : option (list step_result)
}.

(** [str(e)] *)
Definition exn_str (e : exn) : string :=
  match e with
  | TermError msg => msg
  | FormulaError msg => msg
  | PyError _ msg => msg
  end.

(** [f"{name}"] for a key.  (A key [True] prints as [1] here, see [pykey].) *)
Definition key_str (k : pykey) : string :=
  match k with
  | KNone => "None"
  | KInt z => NilZero.string_of_int (Z.to_int z)
  | KStr s => s
  end.

(** [a < b] on keys: defined between two numbers and between two strings. *)
Definition key_lt (a b : pykey) : Res bool :=
  match a, b with
  | KInt x, KInt y => Ok (Z.ltb x y)
  | KStr x, KStr y => Ok (String.ltb x y)
  | _, _ => Raise (PyError "TypeError" "'<' not supported between instances")
  end.

(** [sorted(env.items())].  The names in a dict differ pairwise, so the
    order of the items is the order of their names, and the sort raises
    as soon as two names cannot be compared. *)
Fixpoint insert_item (x : pykey * z3.expr) (l : Env) : Res Env :=
  match l with
  | [] => Ok [x]
  | y :: rest =>
      let* lt := key_lt (fst x) (fst y) in
      if lt then Ok (x :: y :: rest)
      else let* rest' := insert_item x rest in Ok (y :: rest')
  end.

Fixpoint sorted_items (env : Env) : Res Env :=
  match env with
  | [] => Ok []
  | x :: rest => let* rest' := sorted_items rest in insert_item x rest'
  end.

Definition newline : string := String (ascii_of_nat 10) "".

Section Driver.
Context {Model : Type}.
(** [s = Solver(); s.add(a) for each a of the list; s.check()] *)
Variable check : list z3.expr -> check_result Model.
(** [str(m.eval(v, model_completion=True))] *)
Variable eval_str : Model -> z3.expr -> string.

Definition run_check (q : list z3.expr) : Res (check_result Model) :=
  match check q with
  | check_raises msg => Raise (PyError "Z3Exception" msg)
  | r => Ok r
  end.

(** [{name: str(m.eval(v, model_completion=True)) for name, v in env.items()}] *)
Definition model_out (m : Model) (env : Env) : list (pykey * string) :=
  map (fun '(name, v) => (name, eval_str m v)) env.

Definition format_counterexample (m : Model) (env : Env) : Res string :=
  let* items := sorted_items env in
  Ok (fold_left
        (fun text '(name, var) =>
           text +:+ newline +:+ "  " +:+ key_str name +:+ " = " +:+ eval_str m var)
        items "Counterexample found:").

Section with_types.
Variable var_types : gmap string json.

(** [for name in declared_vars: env[name] = Int(name) or Real(name)] *)
Fixpoint declare (names : list json) (env : Env) : Res Env :=
  match names with
  | [] => Ok env
  | name :: rest =>
      let* k := hash_key name in
      declare rest (env_set k (mk_const var_types k) env)
  end.

(** [formula_to_z3(a, env.copy(), var_types)]: the translation works on a
    copy, the caller's environment stays as it is. *)
Definition translate_copy (env : Env) (a : json) : Res z3.expr :=
  let* (z, _) := formula_to_z3 var_types a env in Ok z.

Fixpoint translate_all_copy (env : Env) (l : list json) : Res (list z3.expr) :=
  match l with
  | [] => Ok []
  | a :: rest =>
      let* z := translate_copy env a in
      let* zs := translate_all_copy env rest in
      Ok (z :: zs)
  end.

(** The assertions of one step query: the translated assumptions, then the
    negated goal. *)
Definition step_query (env : Env) (assumptions : list json) (goal : json)
  : Res (list z3.expr) :=
  let* zs := translate_all_copy env assumptions in
  let* g := translate_copy env goal in
  Ok (zs ++ [z3.Not g]).

(** The inner loop of a case: [for cs in case_steps]. *)
Fixpoint case_steps_loop (env : Env) (case_steps : list json)
  (case_assumptions : list json) : Res (list json) :=
  match case_steps with
  | [] => Ok case_assumptions
  | cs :: rest =>
      let* d := as_dict cs in
      let cs_formula := dict_get d "formula" in
      if truthy cs_formula then
        let* q := step_query env case_assumptions cs_formula in
        let* r := run_check q in
        match r with
        | unsat => case_steps_loop env rest (case_assumptions ++ [cs_formula])
        | _ => case_steps_loop env rest case_assumptions
        end
      else case_steps_loop env rest case_assumptions
  end.

(** [for case_idx, case in enumerate(cases)] *)
Fixpoint cases_loop (env : Env) (current_assumptions : list json)
  (cases : list json) (case_idx : nat)
  (conditions : list json) (case_results : list case_result)
  : Res (list json * list case_result) :=
  match cases with
  | [] => Ok (conditions, case_results)
  | case :: rest =>
      let* d := as_dict case in
      let condition := dict_get d "condition" in
      let* case_steps := py_iter (dict_get_list d "steps") in
      let* _ := case_steps_loop env case_steps (current_assumptions ++ [condition]) in
      cases_loop env current_assumptions rest (S case_idx)
        (conditions ++ [condition])
        (case_results ++ [{| cr_case := case_idx + 1; cr_ok := true |}])
  end.

Definition non_exhaustive_result (i : nat) : step_result :=
  {| sr_step := i + 1; sr_type := Some "cases"; sr_ok := false;
     sr_status := Some "non-exhaustive"; sr_model := None; sr_error := None;
     sr_message := Some "Cases may not cover all possibilities";
     sr_case_results := None |}.

Definition exhaustive_result (i : nat) (case_results : list case_result) : step_result :=
  {| sr_step := i + 1; sr_type := Some "cases"; sr_ok := true;
     sr_status := Some "proven"; sr_model := None; sr_error := None;
     sr_message := None; sr_case_results := Some case_results |}.

Definition missing_formula_result (i : nat) : step_result :=
  {| sr_step := i + 1; sr_type := None; sr_ok := false;
     sr_status := None; sr_model := None;
     sr_error := Some "Step missing formula";
     sr_message := None; sr_case_results := None |}.

Definition proven_result (i : nat) : step_result :=
  {| sr_step := i + 1; sr_type := None; sr_ok := true;
     sr_status := Some "proven"; sr_model := None; sr_error := None;
     sr_message := None; sr_case_results := None |}.

Definition disproven_result (i : nat) (model_out : list (pykey * string)) : step_result :=
  {| sr_step := i + 1; sr_type := None; sr_ok := false;
     sr_status := Some "disproven"; sr_model := Some model_out; sr_error := None;
     sr_message := None; sr_case_results := None |}.

Definition unknown_result (i : nat) : step_result :=
  {| sr_step := i + 1; sr_type := None; sr_ok := false;
     sr_status := Some "unknown"; sr_model := None; sr_error := None;
     sr_message := None; sr_case_results := None |}.

(** The exhaustiveness query: the live assumptions, then the negated
    disjunction of the case conditions. *)
Definition exhaustive_query (env : Env) (current_assumptions conditions : list json)
  : Res (list z3.expr) :=
  let* zs := translate_all_copy env current_assumptions in
  let* cond_z3 := translate_all_copy env conditions in
  Ok (zs ++ [z3.Not (z3.Or cond_z3)]).

(** A step of type ["cases"]. *)
Definition cases_step (env : Env) (i : nat) (d : list (string * json))
  (step_results : list step_result) (current_assumptions : list json)
  : Res (list step_result * list json) :=
  let* cases := py_iter (dict_get_list d "cases") in
  let* (conditions, case_results) :=
    cases_loop env current_assumptions cases 0 [] [] in
  match conditions with
  | [] => Ok (step_results, current_assumptions)
  | _ =>
      let* q := exhaustive_query env current_assumptions conditions in
      let* r := run_check q in
      match r with
      | unsat =>
          Ok (step_results ++ [exhaustive_result i case_results], current_assumptions)
      | _ =>
          Ok (step_results ++ [non_exhaustive_result i], current_assumptions)
      end
  end.

(** A step with a single formula. *)
Definition formula_step (env : Env) (i : nat) (step_formula : json)
  (step_results : list step_result) (current_assumptions : list json)
  : Res (list step_result * list json) :=
  let* q := step_query env current_assumptions step_formula in
  let* result := run_check q in
  match result with
  | unsat =>
      Ok (step_results ++ [proven_result i], current_assumptions ++ [step_formula])
  | sat m =>
      Ok (step_results ++ [disproven_result i (model_out m env)], current_assumptions)
  | _ =>
      Ok (step_results ++ [unknown_result i], current_assumptions)
  end.

(** One turn of [for i, step in enumerate(steps)]. *)
Definition step_once (env : Env) (i : nat) (step : json)
  (step_results : list step_result) (current_assumptions : list json)
  : Res (list step_result * list json) :=
  let* d := as_dict step in
  if str_is (dict_get d "type") "cases"
  then cases_step env i d step_results current_assumptions
  else
    let step_formula := dict_get d "formula" in
    if is_none step_formula
    then Ok (step_results ++ [missing_formula_result i], current_assumptions)
    else formula_step env i step_formula step_results current_assumptions.

Fixpoint steps_loop (env : Env) (i : nat) (steps : list json)
  (step_results : list step_result) (current_assumptions : list json)
  : Res (list step_result * list json) :=
  match steps with
  | [] => Ok (step_results, current_assumptions)
  | step :: rest =>
      let* (step_results1, current_assumptions1) :=
        step_once env i step step_results current_assumptions in
      steps_loop env (S i) rest step_results1 current_assumptions1
  end.

(** The assertions of the final query.  Here one environment is shared by
    all translations, and is returned as they leave it. *)
Definition final_query (env : Env) (current_assumptions : list json) (claim : json)
  : Res (list z3.expr * Env) :=
  let* (zs, env1) := map_args (formula_to_z3 var_types) current_assumptions env in
  let* (claim_z3, env2) := formula_to_z3 var_types claim env1 in
  Ok (zs ++ [z3.Not claim_z3], env2).

(** [if step_results: response["step_results"] = step_results] *)
Definition attach (step_results : list step_result) : option (list step_result) :=
  match step_results with
  | [] => None
  | _ => Some step_results
  end.

(** The body of the [try] block of [prove]. *)
Definition prove_body (assumptions : list json) (claim : json)
  (declared_vars : list json) (steps : list json) : Res response :=
  let* env := declare declared_vars [] in
  let* (step_results, current_assumptions) :=
    steps_loop env 0 steps [] assumptions in
  let* (q, env1) := final_query env current_assumptions claim in
  let* result := run_check q in
  match result with
  | unsat =>
      Ok {| ok := true; status := "proven"; model := None; message := None;
            error := None; step_results := attach step_results |}
  | sat m =>
      let* text := format_counterexample m env1 in
      Ok {| ok := false; status := "disproven"; model := Some (model_out m env1);
            message := Some text;
            error := None; step_results := attach step_results |}
  | _ =>
      Ok {| ok := false; status := "unknown"; model := None;
            message := Some "Z3 could not determine satisfiability (timeout or incomplete theory)";
            error := None; step_results := attach step_results |}
  end.

(** [prove(assumptions, claim, declared_vars, var_types, steps)] *)
Definition prove (assumptions : list json) (claim : json)
  (declared_vars : list json) (steps : list json) : response :=
  match prove_body assumptions claim declared_vars steps with
  | Ok r => r
  | Raise (PyError _ msg) =>
      {| ok := false; status := "error"; model := None; message := None;
         error := Some ("Internal error: " +:+ msg); step_results := None |}
  | Raise e =>
      {| ok := false; status := "error"; model := None; message := None;
         error := Some (exn_str e); step_results := None |}
  end.

End with_types.
End Driver.

(** ** What a translation does to the environment *)

(** [extends vt env env']: [env'] comes from [env] by assignments
    [env[k] = Int(k) or Real(k)], the only kind the translators make. *)
Inductive extends (var_types : gmap string json) : Env -> Env -> Prop :=
| extends_refl env : extends var_types env env
| extends_set env env' k :
    extends var_types env env' ->
    extends var_types env (env_set k (mk_const var_types k) env').

(** ** Building ASTs and scripting the solver *)

(** The AST builders of [test_prover.py], and those the parser's output
    calls for. *)
Definition var (name : string) : json :=
  JObj [("type", JStr "var"); ("name", JStr name)].

Definition num_val (val : json) : json :=
  JObj [("type", JStr "num"); ("value", val)].

(** A literal as the parser writes it: its text. *)
Definition num (val : string) : json := num_val (JStr val).

Definition binary (op : string) (lhs rhs : json) : json :=
  JObj [("type", JStr "bin"); ("op", JStr op); ("lhs", lhs); ("rhs", rhs)].

Definition rel (op : string) (lhs rhs : json) : json :=
  JObj [("type", JStr "rel"); ("op", JStr op); ("lhs", lhs); ("rhs", rhs)].

Definition conj (args : list json) : json :=
  JObj [("type", JStr "and"); ("args", JArr args)].

Definition disj (args : list json) : json :=
  JObj [("type", JStr "or"); ("args", JArr args)].

Definition logical_not (arg : json) : json :=
  JObj [("type", JStr "not"); ("arg", arg)].

Definition implies (lhs rhs : json) : json :=
  JObj [("type", JStr "implies"); ("lhs", lhs); ("rhs", rhs)].

Definition quantified (kind : string) (vars : list string) (body : json) : json :=
  JObj [("type", JStr kind); ("vars", JArr (map JStr vars)); ("body", body)].

Definition formula_item (f : json) : json := JObj [("formula", f)].

Definition case_item (condition : json) (steps : list json) : json :=
  JObj [("condition", condition); ("steps", JArr steps)].

Definition cases_item (cases : list json) : json :=
  JObj [("type", JStr "cases"); ("cases", JArr cases)].

(** Equality of solver expressions, to look a query up in a script. *)
Fixpoint json_eqb (a b : json) {struct a} : bool :=
  match a, b with
  | JNull, JNull => true
  | JBool x, JBool y => Bool.eqb x y
  | JInt x, JInt y => Z.eqb x y
  | JStr x, JStr y => String.eqb x y
  | JArr x, JArr y =>
      (fix all2 (x y : list json) {struct x} : bool :=
         match x, y with
         | [], [] => true
         | a :: x', b :: y' => json_eqb a b && all2 x' y'
         | _, _ => false
         end) x y
  | JObj x, JObj y =>
      (fix all2 (x y : list (string * json)) {struct x} : bool :=
         match x, y with
         | [], [] => true
         | (k, a) :: x', (k', b) :: y' => String.eqb k k' && json_eqb a b && all2 x' y'
         | _, _ => false
         end) x y
  | _, _ => false
  end.

Section list_eqb.
Context {A : Type}.
Variable eqb : A -> A -> bool.

Fixpoint list_eqb (x y : list A) : bool :=
  match x, y with
  | [], [] => true
  | a :: x', b :: y' => eqb a b && list_eqb x' y'
  | _, _ => false
  end.
End list_eqb.

Fixpoint expr_eqb (a b : z3.expr) {struct a} : bool :=
  match a, b with
  | z3.RealVal x, z3.RealVal y => json_eqb x y
  | z3.Int x, z3.Int y => pykey_eqb x y
  | z3.Real x, z3.Real y => pykey_eqb x y
  | z3.PyInt x, z3.PyInt y => Z.eqb x y
  | z3.PyBool x, z3.PyBool y => Bool.eqb x y
  | z3.Add a1 a2, z3.Add b1 b2
  | z3.Sub a1 a2, z3.Sub b1 b2
  | z3.Mul a1 a2, z3.Mul b1 b2
  | z3.Div a1 a2, z3.Div b1 b2
  | z3.Pow a1 a2, z3.Pow b1 b2
  | z3.Lt a1 a2, z3.Lt b1 b2
  | z3.Le a1 a2, z3.Le b1 b2
  | z3.Eq a1 a2, z3.Eq b1 b2
  | z3.Ne a1 a2, z3.Ne b1 b2
  | z3.Gt a1 a2, z3.Gt b1 b2
  | z3.Ge a1 a2, z3.Ge b1 b2
  | z3.Implies a1 a2, z3.Implies b1 b2 => expr_eqb a1 b1 && expr_eqb a2 b2
  | z3.Neg a1, z3.Neg b1
  | z3.Not a1, z3.Not b1 => expr_eqb a1 b1
  | z3.If a1 a2 a3, z3.If b1 b2 b3 =>
      expr_eqb a1 b1 && expr_eqb a2 b2 && expr_eqb a3 b3
  | z3.And x, z3.And y
  | z3.Or x, z3.Or y => list_eqb expr_eqb x y
  | z3.ForAll x a1, z3.ForAll y b1
  | z3.Exists x a1, z3.Exists y b1 => list_eqb expr_eqb x y && expr_eqb a1 b1
  | _, _ => false
  end.

(** A solver that answers from a script: the answer listed for the query,
    [unknown] for a query that is not listed. *)
Fixpoint scripted {Model : Type}
  (script : list (list z3.expr * check_result Model)) (q : list z3.expr)
  : check_result Model :=
  match script with
  | [] => unknown
  | (q', r) :: rest => if list_eqb expr_eqb q q' then r else scripted rest q
  end.

(** A model as the list of the values it gives to constants; any other
    expression prints as ["?"]. *)
Definition table_eval (m : list (z3.expr * string)) (v : z3.expr) : string :=
  match find (fun p => expr_eqb v (fst p)) m with
  | Some p => snd p
  | None => "?"
  end.

(** The names of an environment are all strings. *)
Definition string_keys (env : Env) : bool :=
  forallb (fun p => match fst p with KStr _ => true | _ => false end) env.

(** What [prove] returns when its body raises [e]. *)
Definition error_response (e : exn) : response :=
  {| ok := false; status := "error"; model := None; message := None;
     error := Some (match e with
                    | PyError _ msg => "Internal error: " +:+ msg
                    | _ => exn_str e
                    end);
     step_results := None |}.

(** * The lexer ([Lexer] in [python/parser.py]) *)

(** ** Tokens and parse errors *)

(** A token as the lexer makes it.  The token types are the strings the
    lexer uses: ["ASSUME"], ["IDENT"], ["LT"], ... , ["EOF"]. *)
Record Token : Type := {
  tok_type : string;
  tok_value : string;
  tok_line : nat;
  tok_col : nat
}.

(** [ParseError(message, line, col)].  Messages that quote the text of a
    token keep the token type only. *)
Record ParseError : Type := {
  pe_message : string;
  pe_line : option nat;
  pe_col : option nat
}.

Definition nat_str (n : nat) : string := NilZero.string_of_uint (Nat.to_uint n).

(** [str(e)]: the message with its location in front. *)
Definition ParseError_str (e : ParseError) : string :=
  match pe_line e with
  | Some l =>
      "line " +:+ nat_str l +:+
      match pe_col e with Some c => ", col " +:+ nat_str c | None => "" end +:+
      ": " +:+ pe_message e
  | None => pe_message e
  end.

Definition error_at (msg : string) (tok : Token) : ParseError :=
  {| pe_message := msg; pe_line := Some (tok_line tok); pe_col := Some (tok_col tok) |}.


Definition KEYWORDS : list string :=
  ["assume"; "prove"; "let"; "have"; "assert";
   "and"; "or"; "not"; "implies";
   "forall"; "exists";
   "true"; "false";
   "theorem"; "apply"; "Int"; "Real";
   "import"; "cases"; "case";
   "suppose"; "given"; "assuming"; "if";
   "show"; "therefore"; "thus"; "hence"; "conclude"; "qed";
   "then"; "so"; "know"; "note"; "observe"; "since"; "get";
   "where"; "define"; "set";
   "when"; "whenever";
   "use"; "using"; "by";
   "lemma";
   "all"; "every"; "each";
   "some"; "any";
   "but";
   "iff";
   "in"].

Definition KEYWORD_ALIASES : list (string * string) :=
  [("suppose", "ASSUME"); ("given", "ASSUME"); ("assuming", "ASSUME"); ("if", "ASSUME");
   ("show", "PROVE"); ("therefore", "PROVE"); ("thus", "PROVE");
   ("hence", "PROVE"); ("conclude", "PROVE"); ("qed", "PROVE");
   ("then", "HAVE"); ("so", "HAVE"); ("know", "HAVE");
   ("note", "HAVE"); ("observe", "HAVE"); ("since", "HAVE"); ("get", "HAVE");
   ("where", "LET"); ("define", "LET"); ("set", "LET");
   ("when", "CASE"); ("whenever", "CASE");
   ("use", "APPLY"); ("using", "APPLY"); ("by", "APPLY");
   ("lemma", "THEOREM");
   ("all", "FORALL"); ("every", "FORALL"); ("each", "FORALL");
   ("some", "EXISTS"); ("any", "EXISTS");
   ("but", "AND");
   ("iff", "IMPLIES")].

Definition SET_ALIASES : list (string * string) :=
  [("R", "R"); ("Reals", "R"); ("reals", "R");
   ("Z", "Z"); ("Integers", "Z"); ("integers", "Z"); ("Int", "Z");
   ("N", "N"); ("Naturals", "N"); ("naturals", "N"); ("Nat", "N");
   ("Q", "Q"); ("Rationals", "Q"); ("rationals", "Q")].

Definition FUNCTIONS : list string := ["abs"; "sqrt"; "min"; "max"].

Fixpoint table_get (k : string) (table : list (string * string)) : option string :=
  match table with
  | [] => None
  | (k', v) :: rest => if String.eqb k k' then Some v else table_get k rest
  end.

Definition in_list (s : string) (l : list string) : bool := existsb (String.eqb s) l.

(** Character classes of the token patterns. *)
Definition is_digit (c : ascii) : bool :=
  let n := nat_of_ascii c in (48 <=? n)%nat && (n <=? 57)%nat.
Definition is_upper (c : ascii) : bool :=
  let n := nat_of_ascii c in (65 <=? n)%nat && (n <=? 90)%nat.
Definition is_lower (c : ascii) : bool :=
  let n := nat_of_ascii c in (97 <=? n)%nat && (n <=? 122)%nat.
Definition is_ident_start (c : ascii) : bool :=
  is_upper c || is_lower c || Ascii.eqb c "_"%char.
Definition is_ident_char (c : ascii) : bool := is_ident_start c || is_digit c.
Definition is_blank (c : ascii) : bool :=
  Ascii.eqb c " "%char || Ascii.eqb c (ascii_of_nat 9).
Definition is_newline (c : ascii) : bool := Ascii.eqb c (ascii_of_nat 10).
Definition quote : ascii := ascii_of_nat 34.

Definition lower_char (c : ascii) : ascii :=
  if is_upper c then ascii_of_nat (nat_of_ascii c + 32) else c.
Definition upper_char (c : ascii) : ascii :=
  if is_lower c then ascii_of_nat (nat_of_ascii c - 32) else c.

Fixpoint map_string (f : ascii -> ascii) (s : string) : string :=
  match s with
  | EmptyString => EmptyString
  | String c s' => String (f c) (map_string f s')
  end.

(** [s.lower()] and [s.upper()] *)
Definition lower (s : string) : string := map_string lower_char s.
Definition upper (s : string) : string := map_string upper_char s.

(** The longest prefix of characters in a class, and what follows it. *)
Fixpoint span (p : ascii -> bool) (s : string) : string * string :=
  match s with
  | EmptyString => (EmptyString, EmptyString)
  | String c s' =>
      if p c then let '(a, b) := span p s' in (String c a, b)
      else (EmptyString, s)
  end.

(** The first pattern of [TOKEN_PATTERNS] that matches at the start of
    [s]: its name, the text it matches and the rest of [s]. *)
Definition match_token (s : string) : option (string * string * string) :=
  match s with
  | EmptyString => None
  | String c s' =>
      if is_blank c then
        let '(a, rest) := span is_blank s in Some ("WHITESPACE", a, rest)
      else if is_newline c then Some ("NEWLINE", String c "", s')
      else if Ascii.eqb c "#"%char then
        let '(a, rest) := span (fun c => negb (is_newline c)) s' in
        Some ("COMMENT", String c a, rest)
      else if Ascii.eqb c quote then
        let '(a, rest) := span (fun c => negb (Ascii.eqb c quote)) s' in
        match rest with
        | String _ rest' => Some ("STRING", String c (a +:+ String quote ""), rest')
        | EmptyString => None
        end
      else if is_digit c then
        let '(a, rest) := span is_digit s in
        match rest with
        | String "."%char rest' =>
            let '(b, rest'') := span is_digit rest' in
            Some ("NUMBER", a +:+ "." +:+ b, rest'')
        | _ => Some ("NUMBER", a, rest)
        end
      else if is_ident_start c then
        let '(a, rest) := span is_ident_char s in Some ("IDENT", a, rest)
      else
        let two name := match s' with String d s'' => Some (name, String c (String d ""), s'')
                                    | EmptyString => None end in
        let one name := Some (name, String c "", s') in
        let next_is d := match s' with String d' _ => Ascii.eqb d d' | _ => false end in
        if Ascii.eqb c "<"%char then if next_is "="%char then two "LE" else one "LT"
        else if Ascii.eqb c ">"%char then if next_is "="%char then two "GE" else one "GT"
        else if Ascii.eqb c "!"%char then if next_is "="%char then two "NE" else None
        else if Ascii.eqb c "="%char then if next_is ">"%char then two "IMPLIES_OP" else one "EQ"
        else if Ascii.eqb c "+"%char then one "PLUS"
        else if Ascii.eqb c "-"%char then one "MINUS"
        else if Ascii.eqb c "*"%char then one "STAR"
        else if Ascii.eqb c "/"%char then one "SLASH"
        else if Ascii.eqb c "^"%char then one "CARET"
        else if Ascii.eqb c "("%char then one "LPAREN"
        else if Ascii.eqb c ")"%char then one "RPAREN"
        else if Ascii.eqb c ","%char then one "COMMA"
        else if Ascii.eqb c ":"%char then one "COLON"
        else if Ascii.eqb c "."%char then one "DOT"
        else if Ascii.eqb c "|"%char then one "PIPE"
        else None
  end.

(** The token an identifier becomes: a keyword, an alias, a function
    name, a set name or a plain identifier. *)
Definition classify (token_value : string) : string * string :=
  let lower_value := lower token_value in
  if in_list token_value KEYWORDS || in_list lower_value KEYWORDS then
    match table_get lower_value KEYWORD_ALIASES with
    | Some t => (t, token_value)
    | None =>
        if String.eqb lower_value "in" then ("IN", token_value)
        else (upper token_value, token_value)
    end
  else if in_list token_value FUNCTIONS then ("FUNC", token_value)
  else match table_get token_value SET_ALIASES with
       | Some canonical => ("SET", canonical)
       | None => ("IDENT", token_value)
       end.

(** The loop of [tokenize].  Every token takes at least one character, so
    [k] turns are enough for a source of [k] characters. *)
Fixpoint tokenize_loop (k : nat) (s : string) (line col : nat) (acc : list Token)
  : ParseError + list Token :=
  match s with
  | EmptyString =>
      inr (acc ++ [{| tok_type := "EOF"; tok_value := ""; tok_line := line; tok_col := col |}])
  | _ =>
      match k with
      | 0 => inl {| pe_message := "Unexpected character"; pe_line := Some line; pe_col := Some col |}
      | S k' =>
          match match_token s with
          | None =>
              inl {| pe_message := "Unexpected character"; pe_line := Some line; pe_col := Some col |}
          | Some (token_type, token_value, rest) =>
              let tok t v := {| tok_type := t; tok_value := v; tok_line := line; tok_col := col |} in
              if String.eqb token_type "NEWLINE" then
                tokenize_loop k' rest (line + 1) (1 + String.length token_value)
                  (acc ++ [tok "NEWLINE" token_value])
              else if String.eqb token_type "WHITESPACE" || String.eqb token_type "COMMENT" then
                tokenize_loop k' rest line (col + String.length token_value) acc
              else if String.eqb token_type "IDENT" then
                let '(t, v) := classify token_value in
                tokenize_loop k' rest line (col + String.length token_value) (acc ++ [tok t v])
              else
                tokenize_loop k' rest line (col + String.length token_value)
                  (acc ++ [tok token_type token_value])
          end
      end
  end.

(** [Lexer(source).tokenize()] *)
Definition tokenize (source : string) : ParseError + list Token :=
  tokenize_loop (String.length source) source 1 1 [].

(** * The parser ([python/parser.py]) *)

(** ** The parser object *)

(** The fields of [Parser].  [theorems] maps a name to the assumptions and
    the conclusion of the theorem. *)
Record Parser : Type := {
  tokens : list Token;
  pos : nat;
  assumptions : list json;
  steps : list json;
  claim : option json;
  variables : gset string;
  var_types : gmap string string;
  theorems : gmap string (list json * json);
  base_path : string;
  imported_files : gset string;
  errors : list string
}.

(** [Parser(tokens, base_path)] *)
Definition new_Parser (toks : list Token) (base : string) : Parser :=
  {| tokens := toks; pos := 0; assumptions := []; steps := []; claim := None;
     variables := ∅; var_types := ∅; theorems := ∅; base_path := base;
     imported_files := ∅; errors := [] |}.

Definition set_pos (p : nat) (st : Parser) : Parser :=
  {| tokens := tokens st; pos := p; assumptions := assumptions st;
     steps := steps st; claim := claim st; variables := variables st;
     var_types := var_types st; theorems := theorems st;
     base_path := base_path st; imported_files := imported_files st;
     errors := errors st |}.

Definition set_assumptions (a : list json) (st : Parser) : Parser :=
  {| tokens := tokens st; pos := pos st; assumptions := a;
     steps := steps st; claim := claim st; variables := variables st;
     var_types := var_types st; theorems := theorems st;
     base_path := base_path st; imported_files := imported_files st;
     errors := errors st |}.

Definition set_steps (s : list json) (st : Parser) : Parser :=
  {| tokens := tokens st; pos := pos st; assumptions := assumptions st;
     steps := s; claim := claim st; variables := variables st;
     var_types := var_types st; theorems := theorems st;
     base_path := base_path st; imported_files := imported_files st;
     errors := errors st |}.

Definition set_claim (c : option json) (st : Parser) : Parser :=
  {| tokens := tokens st; pos := pos st; assumptions := assumptions st;
     steps := steps st; claim := c; variables := variables st;
     var_types := var_types st; theorems := theorems st;
     base_path := base_path st; imported_files := imported_files st;
     errors := errors st |}.

Definition set_variables (v : gset string) (st : Parser) : Parser :=
  {| tokens := tokens st; pos := pos st; assumptions := assumptions st;
     steps := steps st; claim := claim st; variables := v;
     var_types := var_types st; theorems := theorems st;
     base_path := base_path st; imported_files := imported_files st;
     errors := errors st |}.

Definition set_var_types (t : gmap string string) (st : Parser) : Parser :=
  {| tokens := tokens st; pos := pos st; assumptions := assumptions st;
     steps := steps st; claim := claim st; variables := variables st;
     var_types := t; theorems := theorems st;
     base_path := base_path st; imported_files := imported_files st;
     errors := errors st |}.

Definition set_theorems (t : gmap string (list json * json)) (st : Parser) : Parser :=
  {| tokens := tokens st; pos := pos st; assumptions := assumptions st;
     steps := steps st; claim := claim st; variables := variables st;
     var_types := var_types st; theorems := t;
     base_path := base_path st; imported_files := imported_files st;
     errors := errors st |}.

Definition set_imported_files (f : gset string) (st : Parser) : Parser :=
  {| tokens := tokens st; pos := pos st; assumptions := assumptions st;
     steps := steps st; claim := claim st; variables := variables st;
     var_types := var_types st; theorems := theorems st;
     base_path := base_path st; imported_files := f;
     errors := errors st |}.

Definition set_errors (e : list string) (st : Parser) : Parser :=
  {| tokens := tokens st; pos := pos st; assumptions := assumptions st;
     steps := steps st; claim := claim st; variables := variables st;
     var_types := var_types st; theorems := theorems st;
     base_path := base_path st; imported_files := imported_files st;
     errors := e |}.

(** ** The parsing monad *)

(** A method of [Parser] returns a value or raises [ParseError]; either
    way it leaves the object in a new state, which [parse] goes on with
    after an error.  [PFuel] is a run cut short by the bound on the depth
    of the recursion. *)
Inductive PRes (A : Type) : Type :=
| POk (a : A) (st : Parser)
| PErr (e : ParseError) (st : Parser)
| PFuel.
Arguments POk {A} a st.
Arguments PErr {A} e st.
Arguments PFuel {A}.

Definition PM (A : Type) : Type := Parser -> PRes A.

Definition pret {A : Type} (a : A) : PM A := fun st => POk a st.

Definition pbind {A B : Type} (m : PM A) (k : A -> PM B) : PM B :=
  fun st =>
    match m st with
    | POk a st' => k a st'
    | PErr e st' => PErr e st'
    | PFuel => PFuel
    end.

Definition praise {A : Type} (e : ParseError) : PM A := fun st => PErr e st.

Definition pget : PM Parser := fun st => POk st st.

Definition pmodify (f : Parser -> Parser) : PM unit := fun st => POk tt (f st).

Notation "x <- m ;; k" := (pbind m (fun x => k))
  (at level 62, m at next level, right associativity).
Notation "m ;;; k" := (pbind m (fun _ => k))
  (at level 62, right associativity).

(** ** Token access *)

Definition EOF_token : Token :=
  {| tok_type := "EOF"; tok_value := ""; tok_line := 1; tok_col := 1 |}.

(** [self.tokens[self.pos] if self.pos < len(self.tokens) else
    self.tokens[-1]].  The token list is the one [tokenize] returns: it
    ends with the [EOF] token, and is never empty. *)
Definition current_tok (st : Parser) : Token :=
  nth (pos st) (tokens st) (List.last (tokens st) EOF_token).

Definition current : PM Token := fun st => POk (current_tok st) st.

(** The parser one token further: [self.pos += 1]. *)
Definition advanced (st : Parser) : Parser := set_pos (pos st + 1) st.

Definition advance : PM Token :=
  fun st => POk (current_tok st) (advanced st).

Definition in_types (t : string) (token_types : list string) : bool :=
  existsb (String.eqb t) token_types.

(** [self.match(...)] *)
Definition matches (token_types : list string) (st : Parser) : bool :=
  in_types (tok_type (current_tok st)) token_types.

Definition expect (token_type : string) : PM Token :=
  fun st =>
    let tok := current_tok st in
    if String.eqb (tok_type tok) token_type then advance st
    else PErr (error_at ("Expected " +:+ token_type +:+ ", got " +:+ tok_type tok) tok) st.

(** [while self.match('NEWLINE'): self.advance()].  On a token list that
    ends with [EOF] the loop makes at most one turn per token. *)
Fixpoint skip_newlines_loop (k : nat) (st : Parser) : PRes unit :=
  match k with
  | 0 => PFuel
  | S k' =>
      if matches ["NEWLINE"] st
      then skip_newlines_loop k' (advanced st)
      else POk tt st
  end.

Definition skip_newlines : PM unit :=
  fun st => skip_newlines_loop (S (length (tokens st))) st.

(** [while cond: acc = body(acc)], for at most [k] turns. *)
Fixpoint while_cond {A : Type} (k : nat) (cond : Parser -> bool)
  (body : A -> PM A) (acc : A) (st : Parser) : PRes A :=
  match k with
  | 0 => PFuel
  | S k' =>
      if cond st
      then match body acc st with
           | POk acc' st' => while_cond k' cond body acc' st'
           | PErr e st' => PErr e st'
           | PFuel => PFuel
           end
      else POk acc st
  end.

(** [while self.match(...): acc = body(acc)] *)
Definition while_match {A : Type} (k : nat) (token_types : list string)
  (body : A -> PM A) (acc : A) : PM A :=
  while_cond k (matches token_types) body acc.

Definition add_variable (name : string) : PM unit :=
  pmodify (fun st => set_variables ({[name]} ∪ variables st) st).

(** ** Formulas and terms *)

Definition op_map (token_type : string) : string :=
  if String.eqb token_type "LT" then "<"
  else if String.eqb token_type "LE" then "<="
  else if String.eqb token_type "EQ" then "="
  else if String.eqb token_type "NE" then "!="
  else if String.eqb token_type "GT" then ">"
  else ">=".

Definition relation_tokens : list string := ["LT"; "LE"; "EQ"; "NE"; "GT"; "GE"].

Definition abs_term (arg : json) : json := JObj [("type", JStr "abs"); ("arg", arg)].
Definition sqrt_term (arg : json) : json := JObj [("type", JStr "sqrt"); ("arg", arg)].
Definition neg_term (arg : json) : json := JObj [("type", JStr "neg"); ("arg", arg)].
Definition pow_term (base exp : json) : json :=
  JObj [("type", JStr "pow"); ("base", base); ("exp", exp)].
Definition min_max_term (kind : string) (args : list json) : json :=
  JObj [("type", JStr kind); ("args", JArr args)].

(** The recursive descent.  The first argument bounds the depth of the
    recursion: every method passes one less to the methods it calls. *)
Fixpoint parse_formula (n : nat) : PM json :=
  match n with
  | 0 => fun _ => PFuel
  | S n => parse_implies n
  end
with parse_implies (n : nat) : PM json :=
  match n with
  | 0 => fun _ => PFuel
  | S n =>
      left <- parse_or n ;;
      st <- pget ;;
      if matches ["IMPLIES"; "IMPLIES_OP"] st then
        advance ;;;
        right <- parse_implies n ;;
        pret (implies left right)
      else pret left
  end
with parse_or (n : nat) : PM json :=
  match n with
  | 0 => fun _ => PFuel
  | S n =>
      left <- parse_and n ;;
      args <- while_match n ["OR"]
                (fun args => advance ;;; x <- parse_and n ;; pret (args ++ [x]))
                [left] ;;
      match args with
      | [a] => pret a
      | _ => pret (disj args)
      end
  end
with parse_and (n : nat) : PM json :=
  match n with
  | 0 => fun _ => PFuel
  | S n =>
      left <- parse_not n ;;
      args <- while_match n ["AND"]
                (fun args => advance ;;; x <- parse_not n ;; pret (args ++ [x]))
                [left] ;;
      match args with
      | [a] => pret a
      | _ => pret (conj args)
      end
  end
with parse_not (n : nat) : PM json :=
  match n with
  | 0 => fun _ => PFuel
  | S n =>
      st <- pget ;;
      if matches ["NOT"] st then
        advance ;;;
        arg <- parse_not n ;;
        pret (logical_not arg)
      else parse_quantifier n
  end
with parse_quantifier (n : nat) : PM json :=
  match n with
  | 0 => fun _ => PFuel
  | S n =>
      st <- pget ;;
      if matches ["FORALL"; "EXISTS"] st then
        tok <- advance ;;
        let quant_type :=
          if String.eqb (tok_type tok) "FORALL" then "forall" else "exists" in
        first <- expect "IDENT" ;;
        var_names <- while_match n ["COMMA"]
                       (fun names => advance ;;; t <- expect "IDENT" ;;
                                     pret (names ++ [tok_value t]))
                       [tok_value first] ;;
        expect "DOT" ;;;
        pmodify (fun st => set_variables (list_to_set var_names ∪ variables st) st) ;;;
        body <- parse_formula n ;;
        pret (quantified quant_type var_names body)
      else parse_relation n
  end
with parse_relation (n : nat) : PM json :=
  match n with
  | 0 => fun _ => PFuel
  | S n =>
      left <- parse_expr n ;;
      st <- pget ;;
      if negb (matches relation_tokens st) then pret left
      else
        chain <- while_match n relation_tokens
                   (fun '(comparisons, current_left) =>
                      tok <- advance ;;
                      right <- parse_expr n ;;
                      pret (comparisons ++ [rel (op_map (tok_type tok)) current_left right],
                            right))
                   ([], left) ;;
        match fst chain with
        | [c] => pret c
        | comparisons => pret (conj comparisons)
        end
  end
with parse_expr (n : nat) : PM json :=
  match n with
  | 0 => fun _ => PFuel
  | S n =>
      left <- parse_term n ;;
      while_match n ["PLUS"; "MINUS"]
        (fun left =>
           tok <- advance ;;
           right <- parse_term n ;;
           pret (binary (if String.eqb (tok_type tok) "PLUS" then "+" else "-") left right))
        left
  end
with parse_term (n : nat) : PM json :=
  match n with
  | 0 => fun _ => PFuel
  | S n =>
      left <- parse_power n ;;
      while_match n ["STAR"; "SLASH"]
        (fun left =>
           tok <- advance ;;
           right <- parse_power n ;;
           pret (binary (if String.eqb (tok_type tok) "STAR" then "*" else "/") left right))
        left
  end
with parse_power (n : nat) : PM json :=
  match n with
  | 0 => fun _ => PFuel
  | S n =>
      base <- parse_unary n ;;
      st <- pget ;;
      if matches ["CARET"] st then
        advance ;;;
        exp <- parse_power n ;;
        pret (pow_term base exp)
      else pret base
  end
with parse_unary (n : nat) : PM json :=
  match n with
  | 0 => fun _ => PFuel
  | S n =>
      st <- pget ;;
      if matches ["MINUS"] st then
        advance ;;;
        arg <- parse_unary n ;;
        pret (neg_term arg)
      else parse_atom n
  end
with parse_atom (n : nat) : PM json :=
  match n with
  | 0 => fun _ => PFuel
  | S n =>
      tok <- current ;;
      let ty := tok_type tok in
      if String.eqb ty "NUMBER" then
        advance ;;; pret (num (tok_value tok))
      else if String.eqb ty "IDENT" then
        advance ;;; add_variable (tok_value tok) ;;; pret (var (tok_value tok))
      else if String.eqb ty "FUNC" then
        advance ;;;
        let func_name := tok_value tok in
        expect "LPAREN" ;;;
        first <- parse_expr n ;;
        args <- while_match n ["COMMA"]
                  (fun args => advance ;;; x <- parse_expr n ;; pret (args ++ [x]))
                  [first] ;;
        expect "RPAREN" ;;;
        if String.eqb func_name "abs" then
          match args with
          | [a] => pret (abs_term a)
          | _ => praise (error_at "abs() takes 1 argument" tok)
          end
        else if String.eqb func_name "sqrt" then
          match args with
          | [a] => pret (sqrt_term a)
          | _ => praise (error_at "sqrt() takes 1 argument" tok)
          end
        else if String.eqb func_name "min" then
          if (length args <? 2)%nat
          then praise (error_at "min() requires at least 2 arguments" tok)
          else pret (min_max_term "min" args)
        else if String.eqb func_name "max" then
          if (length args <? 2)%nat
          then praise (error_at "max() requires at least 2 arguments" tok)
          else pret (min_max_term "max" args)
        else praise (error_at ("Unknown function: " +:+ func_name) tok)
      else if String.eqb ty "LPAREN" then
        advance ;;;
        expr <- parse_formula n ;;
        expect "RPAREN" ;;;
        pret expr
      else if String.eqb ty "PIPE" then
        advance ;;;
        arg <- parse_expr n ;;
        expect "PIPE" ;;;
        pret (abs_term arg)
      else if String.eqb ty "TRUE" then
        advance ;;; pret (conj [])
      else if String.eqb ty "FALSE" then
        advance ;;; pret (disj [])
      else praise (error_at ("Unexpected token: " +:+ ty) tok)
  end.

(** ** Statements *)

(** What [parse_import] needs from the operating system: the path an
    import resolves to from a base directory ([os.path.join] unless the
    path is absolute, then [os.path.normpath]), [os.path.exists],
    [os.path.dirname], and the tokens of a file, which are [None] when
    reading or tokenizing it raises. *)
Record FileSystem : Type := {
  resolve : string -> string -> string;
  exists_ : string -> bool;
  dirname : string -> string;
  load_tokens : string -> option (list Token)
}.

(** [s[1:-1]] *)
Definition strip_ends (s : string) : string :=
  String.substring 1 (String.length s - 2) s.

(** The relation a set membership adds to the assumptions. *)
Definition membership_constraint (op name : string) : json :=
  rel op (var name) (num "0").

(** The type and the constraint that [let name in set_name] gives:
    the type is [None] for a set name that is not one of R, Z, N, Q. *)
Definition set_meaning (set_name : string) (is_positive : bool)
  : option string * option string :=
  if String.eqb set_name "R" then
    (Some "Real", if is_positive then Some ">" else None)
  else if String.eqb set_name "Z" then
    (Some "Int", if is_positive then Some ">" else None)
  else if String.eqb set_name "N" then
    (Some "Int", if is_positive then Some ">" else Some ">=")
  else if String.eqb set_name "Q" then
    (Some "Real", if is_positive then Some ">" else None)
  else (None, None).

(** The [LET] branch of [parse_statement], after the keyword. *)
Definition parse_let (parse_expr : PM json) : PM unit :=
  name_tok <- expect "IDENT" ;;
  let name := tok_value name_tok in
  st <- pget ;;
  var_type <-
    (if matches ["COLON"] st then
       advance ;;;
       type_tok <- current ;;
       if in_types (tok_type type_tok) ["INT"; "REAL"] then
         advance ;;;
         pret (if String.eqb (tok_type type_tok) "INT" then "Int" else "Real")
       else praise (error_at ("Expected 'Int' or 'Real', got " +:+ tok_type type_tok) type_tok)
     else pret "Real") ;;
  st <- pget ;;
  typed <-
    (if matches ["IN"] st then
       advance ;;;
       st <- pget ;;
       if matches ["SET"] st then
         set_tok <- advance ;;
         st <- pget ;;
         is_positive <-
           (if matches ["PLUS"] st then advance ;;; pret true else pret false) ;;
         let '(ty, constraint) := set_meaning (tok_value set_tok) is_positive in
         pret (match ty with Some t => t | None => var_type end, constraint)
       else
         praise (error_at ("Expected set name (R, Z, N, Q), got " +:+ tok_type (current_tok st))
                          (current_tok st))
     else pret (var_type, None)) ;;
  let '(var_type, constraint) := typed in
  st <- pget ;;
  (if matches ["EQ"] st then advance ;;; parse_expr ;;; pret tt else pret tt) ;;;
  pmodify (fun st => set_variables ({[name]} ∪ variables st) st) ;;;
  pmodify (fun st => set_var_types (<[name := var_type]> (var_types st)) st) ;;;
  match constraint with
  | Some op =>
      pmodify (fun st => set_assumptions (assumptions st ++ [membership_constraint op name]) st)
  | None => pret tt
  end.

(** The [APPLY] branch of [parse_statement]. *)
Definition parse_apply (tok : Token) : PM unit :=
  advance ;;;
  name_tok <- expect "IDENT" ;;
  let theorem_name := tok_value name_tok in
  st <- pget ;;
  match theorems st !! theorem_name with
  | None => praise (error_at ("Unknown theorem: " +:+ theorem_name) tok)
  | Some (thm_assumptions, conclusion) =>
      match thm_assumptions with
      | [] =>
          pmodify (fun st => set_assumptions (assumptions st ++ [conclusion]) st)
      | [a] =>
          pmodify (fun st => set_assumptions (assumptions st ++ [implies a conclusion]) st)
      | _ =>
          pmodify (fun st =>
            set_assumptions (assumptions st ++ [implies (conj thm_assumptions) conclusion]) st)
      end
  end.

(** [parse_cases].  The inner loop runs until a token that starts a case
    or a statement; on a token that is neither [HAVE], [ASSERT] nor
    [NEWLINE] it stops at once, by its condition or by [break]. *)
Definition parse_cases (parse_formula : PM json) : PM unit :=
  advance ;;;
  expect "COLON" ;;;
  skip_newlines ;;;
  st0 <- pget ;;
  let k := S (length (tokens st0)) in
  cases <- while_match k ["CASE"]
             (fun cases =>
                advance ;;;
                condition <- parse_formula ;;
                expect "COLON" ;;;
                skip_newlines ;;;
                case_steps <- while_match k ["HAVE"; "ASSERT"; "NEWLINE"]
                                (fun case_steps =>
                                   st <- pget ;;
                                   if matches ["HAVE"; "ASSERT"] st then
                                     advance ;;;
                                     formula <- parse_formula ;;
                                     skip_newlines ;;;
                                     pret (case_steps ++ [formula_item formula])
                                   else advance ;;; pret case_steps)
                                [] ;;
                pret (cases ++ [case_item condition case_steps]))
             [] ;;
  match cases with
  | [] =>
      st <- pget ;;
      praise (error_at "cases block requires at least one 'case'" (current_tok st))
  | _ => pmodify (fun st => set_steps (steps st ++ [cases_item cases]) st)
  end.

(** [while not self.match('EOF'): self.parse_statement();
    self.skip_newlines()], the loop of an imported file. *)
Definition statements_loop (parse_statement : PM unit) : PM unit :=
  fun st =>
    while_cond (S (length (tokens st))) (fun st => negb (matches ["EOF"] st))
      (fun _ => parse_statement ;;; skip_newlines) tt st.

(** The [try] block of [parse_import]: the file is parsed by a parser of
    its own, which shares [imported_files] with the importing one, and its
    theorems are merged in.  Whatever is raised on the way comes out as a
    [ParseError] at the path token. *)
Definition import_file (fs : FileSystem) (parse_statement : PM unit)
  (import_path : string) (path_tok : Token) : PM unit :=
  fun st =>
    let failed text st' :=
      PErr (error_at ("Error importing " +:+ import_path +:+ ": " +:+ text) path_tok) st' in
    match load_tokens fs import_path with
    | None => failed "" st
    | Some toks =>
        let import_parser :=
          set_imported_files (imported_files st)
            (new_Parser toks (dirname fs import_path)) in
        match (skip_newlines ;;; statements_loop parse_statement) import_parser with
        | POk _ lib =>
            POk tt (set_imported_files (imported_files lib)
                      (set_theorems (theorems lib ∪ theorems st) st))
        | PErr e lib =>
            failed (ParseError_str e) (set_imported_files (imported_files lib) st)
        | PFuel => PFuel
        end
    end.

Section statements.
Variable fs : FileSystem.

Fixpoint parse_statement (n : nat) : PM unit :=
  match n with
  | 0 => fun _ => PFuel
  | S n =>
      tok <- current ;;
      let ty := tok_type tok in
      if String.eqb ty "ASSUME" then
        advance ;;;
        formula <- parse_formula n ;;
        pmodify (fun st => set_assumptions (assumptions st ++ [formula]) st)
      else if String.eqb ty "PROVE" then
        advance ;;;
        formula <- parse_formula n ;;
        pmodify (set_claim (Some formula))
      else if in_types ty ["HAVE"; "ASSERT"] then
        advance ;;;
        formula <- parse_formula n ;;
        pmodify (fun st => set_steps (steps st ++ [formula_item formula]) st)
      else if String.eqb ty "LET" then
        advance ;;; parse_let (parse_expr n)
      else if String.eqb ty "THEOREM" then parse_theorem n
      else if String.eqb ty "APPLY" then parse_apply tok
      else if String.eqb ty "IMPORT" then parse_import n
      else if String.eqb ty "CASES" then parse_cases (parse_formula n)
      else praise (error_at ("Expected statement keyword (assume/suppose, prove/show, have/so, let/define, theorem/lemma, apply/use, import, or cases), got " +:+ ty) tok)
  end
with parse_theorem (n : nat) : PM unit :=
  match n with
  | 0 => fun _ => PFuel
  | S n =>
      advance ;;;
      name_tok <- expect "IDENT" ;;
      let theorem_name := tok_value name_tok in
      expect "COLON" ;;;
      skip_newlines ;;;
      st0 <- pget ;;
      let old_assumptions := assumptions st0 in
      let old_claim := claim st0 in
      pmodify (set_assumptions []) ;;;
      pmodify (set_claim None) ;;;
      while_cond (S (length (tokens st0)))
        (fun st => negb (matches ["EOF"] st) && negb (bool_decide (is_Some (claim st))))
        (fun _ => parse_statement n ;;; skip_newlines) tt ;;;
      st1 <- pget ;;
      match claim st1 with
      | None =>
          praise (error_at ("Theorem '" +:+ theorem_name +:+ "' has no 'prove' statement") name_tok)
      | Some conclusion =>
          pmodify (fun st =>
            set_theorems (<[theorem_name := (assumptions st1, conclusion)]> (theorems st)) st) ;;;
          pmodify (set_assumptions old_assumptions) ;;;
          pmodify (set_claim old_claim)
      end
  end
with parse_import (n : nat) : PM unit :=
  match n with
  | 0 => fun _ => PFuel
  | S n =>
      advance ;;;
      path_tok <- expect "STRING" ;;
      st <- pget ;;
      let import_path := resolve fs (base_path st) (strip_ends (tok_value path_tok)) in
      if bool_decide (import_path ∈ imported_files st) then pret tt
      else
        pmodify (fun st => set_imported_files ({[import_path]} ∪ imported_files st) st) ;;;
        if negb (exists_ fs import_path)
        then praise (error_at ("Import file not found: " +:+ import_path) path_tok)
        else import_file fs (parse_statement n) import_path path_tok
  end.

(** [recover_to_next_statement] *)
Definition statement_starters : list string :=
  ["ASSUME"; "PROVE"; "HAVE"; "ASSERT"; "LET"; "THEOREM"; "APPLY"; "IMPORT"; "CASES"; "EOF"].

Fixpoint recover_loop (k : nat) (st : Parser) : PRes unit :=
  match k with
  | 0 => PFuel
  | S k' =>
      if matches ["EOF"] st then POk tt st
      else if matches ["NEWLINE"] st then
        let st' := advanced st in
        if matches statement_starters st' then POk tt st'
        else recover_loop k' st'
      else recover_loop k' (advanced st)
  end.

Definition recover_to_next_statement : PM unit :=
  fun st => recover_loop (S (length (tokens st))) st.

(** The dict [parse] returns.  ["vars"] is [list(self.variables)], a list
    in no particular order: it is kept as the set.  ["theorems"] is
    present when there are any. *)
Record ProofUnit : Type := {
  pu_vars : gset string;
  pu_var_types : gmap string string;
  pu_assumptions : list json;
  pu_steps : list json;
  pu_claim : json;
  pu_theorems : option (gmap string (list json * json))
}.

(** [try: self.parse_statement() except ParseError as e:
    self.errors.append(str(e)); self.recover_to_next_statement()] *)
Definition statement_with_recovery (n : nat) : PM unit :=
  fun st =>
    match parse_statement n st with
    | PErr e st' =>
        recover_to_next_statement (set_errors (errors st' ++ [ParseError_str e]) st')
    | r => r
    end.

Definition errors_report (errs : list string) : string :=
  "Found " +:+ nat_str (length errs) +:+ " error(s):" +:+ newline +:+
  String.concat newline (map (fun e => "  - " +:+ e) errs).

Definition no_location (msg : string) : ParseError :=
  {| pe_message := msg; pe_line := None; pe_col := None |}.

(** The method [Parser.parse] *)
Definition Parser_parse (n : nat) : PM ProofUnit :=
  skip_newlines ;;;
  (fun st =>
     while_cond (S (length (tokens st))) (fun st => negb (matches ["EOF"] st))
       (fun _ => statement_with_recovery n ;;; skip_newlines) tt st) ;;;
  st <- pget ;;
  match errors st with
  | _ :: _ => praise (no_location (errors_report (errors st)))
  | [] =>
      match claim st with
      | None => praise (no_location "No 'prove' statement found")
      | Some c =>
          pret {| pu_vars := variables st; pu_var_types := var_types st;
                  pu_assumptions := assumptions st; pu_steps := steps st;
                  pu_claim := c;
                  pu_theorems := if bool_decide (theorems st = ∅) then None
                                 else Some (theorems st) |}
      end
  end.

(** What the module-level [parse] does: the dict, or the [ParseError] the
    lexer or the parser raises. *)
Inductive Parsed : Type :=
| ParsedUnit (u : ProofUnit)
| ParseFailed (e : ParseError)
| ParseFuel.

(** [parse(source, base_path)] *)
Definition parse (n : nat) (source : string) (base : string) : Parsed :=
  match tokenize source with
  | inl e => ParseFailed e
  | inr toks =>
      match Parser_parse n (new_Parser toks base) with
      | POk u _ => ParsedUnit u
      | PErr e _ => ParseFailed e
      | PFuel => ParseFuel
      end
  end.

End statements.

(** ** What the formula methods leave alone *)

(** [frame st st']: the two states differ at most in [pos] and
    [variables]. *)
Definition frame (st st' : Parser) : Prop :=
  tokens st' = tokens st /\ assumptions st' = assumptions st /\
  steps st' = steps st /\ claim st' = claim st /\
  var_types st' = var_types st /\ theorems st' = theorems st /\
  base_path st' = base_path st /\ imported_files st' = imported_files st /\
  errors st' = errors st.

(** A method that changes nothing but [pos] and [variables], whether it
    returns or raises. *)
Definition keeps {A : Type} (m : PM A) : Prop :=
  forall st,
    match m st with
    | POk _ st' | PErr _ st' => frame st st'
    | PFuel => True
    end.

(** ** Describing the tokens ahead *)

(** The parser [k] tokens further. *)
Fixpoint ahead (k : nat) (st : Parser) : Parser :=
  match k with
  | 0 => st
  | S k' => advanced (ahead k' st)
  end.

(** The types of the tokens from the current one on. *)
Fixpoint types_ahead (token_types : list string) (st : Parser) : Prop :=
  match token_types with
  | [] => True
  | t :: rest => tok_type (current_tok st) = t /\ types_ahead rest (advanced st)
  end.

(** The optional parts of a [let] statement: the type annotation, and the
    set membership with or without [+]. *)
Inductive annotation : Type := NoType | TypeInt | TypeReal.

Definition annotation_tokens (a : annotation) : list string :=
  match a with
  | NoType => []
  | TypeInt => ["COLON"; "INT"]
  | TypeReal => ["COLON"; "REAL"]
  end.

Definition membership_tokens (m : option bool) : list string :=
  match m with
  | None => []
  | Some false => ["IN"; "SET"]
  | Some true => ["IN"; "SET"; "PLUS"]
  end.

Definition let_tokens (a : annotation) (m : option bool) : list string :=
  ["LET"; "IDENT"] ++ annotation_tokens a ++ membership_tokens m.

(** The type a [let] statement records and the relation it adds, as
    [parse_statement] computes them. *)
Definition let_type (a : annotation) (m : option bool) (set_name : string) : string :=
  let annotated := match a with TypeInt => "Int" | _ => "Real" end in
  match m with
  | Some p => match fst (set_meaning set_name p) with Some t => t | None => annotated end
  | None => annotated
  end.

Definition let_constraint (m : option bool) (set_name name : string) : list json :=
  match m with
  | Some p =>
      match snd (set_meaning set_name p) with
      | Some op => [membership_constraint op name]
      | None => []
      end
  | None => []
  end.

(** The last three assignments of the [LET] branch. *)
Definition declared (name ty : string) (constraint : list json) (st : Parser) : Parser :=
  let st1 := set_variables ({[name]} ∪ variables st) st in
  let st2 := set_var_types (<[name := ty]> (var_types st1)) st1 in
  match constraint with
  | [] => st2
  | _ => set_assumptions (assumptions st2 ++ constraint) st2
  end.


(** What follows the declared part of a [let] statement: nothing, and
    the statement ends at [after]; or [= E], and it ends where
    [parse_expr] stops. *)
Definition initialiser (n : nat) (after st_end : Parser) : Prop :=
  (matches ["EQ"] after = false /\ st_end = after) \/
  (matches ["EQ"] after = true /\
   exists e, parse_expr n (advanced after) = POk e st_end).

(** ** The bound on the recursion is only a bound *)

(** [refines a b]: wherever [a] comes to an end, with a value or an
    error, [b] ends the same way. *)
Definition refines {A : Type} (a b : PM A) : Prop :=
  forall st, a st <> PFuel -> b st = a st.

(** A file system without files, for sources that import nothing. *)
Definition no_files : FileSystem :=
  {| resolve := fun base path => path; exists_ := fun _ => false;
     dirname := fun path => path; load_tokens := fun _ => None |}.

(** A line break inside a source text. *)
Notation "a // b" := (a +:+ newline +:+ b) (at level 60, right associativity).

(** ** Sample sources *)

(** The parser at the start of a source that has no imports. *)
Definition parser_on (source : string) : Parser :=
  match tokenize source with
  | inr toks => new_Parser toks "."
  | inl _ => new_Parser [] "."
  end.

(** The state in which a method leaves the parser. *)
Definition state_after {A : Type} (r : PRes A) (otherwise : Parser) : Parser :=
  match r with
  | POk _ st | PErr _ st => st
  | PFuel => otherwise
  end.

Definition let_in_N_source : string := "let x in N" // "prove x >= 0".


Definition two_proves_source : string := "prove x > 0" // "prove x > 1".

(** The parser of [two_proves_source] at its second statement. *)
Definition two_proves_st : Parser :=
  advanced (state_after (parse_statement no_files 20 (parser_on two_proves_source))
              (parser_on two_proves_source)).

Definition retyped_source : string := "let x: Int" // "let x" // "prove x > 0".

(** The parser of [retyped_source] at its second statement. *)
Definition retyped_st : Parser :=
  advanced (state_after (parse_statement no_files 1 (parser_on retyped_source))
              (parser_on retyped_source)).

(** ** Sample proof units *)

(** The variable [x] and its solver constant. *)
Definition x_var : json := var "x".
Definition x_const : z3.expr := z3.Real (KStr "x").
Definition zero_val : z3.expr := z3.RealVal (JStr "0").

(** [assume x != 0], [cases: case x > 0: have x*x > 0], [prove x*x > 0]:
    the cases leave [x < 0] out. *)
Definition leaky_source : string :=
  "assume x != 0" // "cases:" // "  case x > 0:" // "    have x*x > 0" // "prove x*x > 0".

Definition x_nonzero : json := rel "!=" x_var (num "0").
Definition x_positive : json := rel ">" x_var (num "0").
Definition square_positive : json := rel ">" (binary "*" x_var x_var) (num "0").
Definition leaky_steps : list json :=
  [cases_item [case_item x_positive [formula_item square_positive]]].



(** [assume x > 0], [prove x > 10], and a solver that answers with the
    counterexample [x = 1]. *)
Definition ten_val : z3.expr := z3.RealVal (JStr "10").
Definition small_solver : list z3.expr -> check_result (list (z3.expr * string)) :=
  scripted [([z3.Gt x_const zero_val; z3.Not (z3.Gt x_const ten_val)], sat [(x_const, "1")])].

(** [assume x > 0], [have x >= 0], [prove x + 1 > 0], and a solver that
    proves the step. *)
Definition x_nonnegative : json := rel ">=" x_var (num "0").
Definition helped_solver : list z3.expr -> check_result (list (z3.expr * string)) :=
  scripted [([z3.Gt x_const zero_val; z3.Not (z3.Ge x_const zero_val)], unsat)].

(** A step whose formula has a type the translator does not know. *)
Definition bogus : json := JObj [("type", JStr "bogus")].

(** A solver that proves whatever it is asked. *)
Definition yes_solver : list z3.expr -> check_result (list (z3.expr * string)) :=
  fun _ => unsat.

(** [forall x. x = x] *)
Definition reflexive : json := quantified "forall" ["x"] (rel "=" x_var x_var).

(** What the prover is called with for a parsed unit: [ast["vars"]] as a
    list of names, and [ast["var_types"]] as a dict. *)
Definition declared_names (u : ProofUnit) : list json :=
  map JStr (elements (pu_vars u)).

Definition types_dict (u : ProofUnit) : gmap string json :=
  JStr <$> pu_var_types u.

(** A library file and a file system that holds it. *)
Definition library_source : string :=
  "theorem square_nonneg:" // "  prove y * y >= 0".

Definition one_file : FileSystem :=
  {| resolve := fun base path => base +:+ "/" +:+ path;
     exists_ := fun path => String.eqb path "./lib.proof";
     dirname := fun path => ".";
     load_tokens := fun path =>
       match tokenize library_source with
       | inr toks => Some toks
       | inl _ => None
       end |}.

Definition importing_source : string :=
  "import " +:+ String quote "lib.proof" +:+ String quote "" //
  "import " +:+ String quote "lib.proof" +:+ String quote "" //
  "apply square_nonneg" //
  "prove y * y >= 0".

(** * Further definitions: the notions the statements use, and the rest
    of the code *)

(** [c] is the constant that the declared types give the name [k]: the
    integer constant of that name when [var_types] has the string [Int]
    for it, the real constant of that name otherwise. *)
Definition typed_constant (var_types : gmap string json) (k : pykey) (c : z3.expr) : Prop :=
  ((exists s, k = KStr s /\ var_types !! s = Some (JStr "Int")) /\ c = z3.Int k) \/
  ((forall s, k = KStr s -> var_types !! s <> Some (JStr "Int")) /\ c = z3.Real k).

(** [agrees env env']: every name of [env] has the same constant in
    [env']. *)
Definition agrees (env env' : Env) : Prop :=
  forall k v, env_lookup k env = Some v -> env_lookup k env' = Some v.

(** What a translation of [t] returns in [env], it returns again in every
    environment that agrees with the one it left, and leaves that one as
    it is. *)
Definition settled (tr : Tr) : Prop :=
  forall env e env1,
    tr env = Ok (e, env1) ->
    agrees env env1 /\
    forall env2, agrees env1 env2 -> tr env2 = Ok (e, env2).


(** The names of an environment are all numbers. *)
Definition int_keys (env : Env) : bool :=
  forallb (fun p => match fst p with KInt _ => true | _ => false end) env.

(** [y] is not before [x] in the order of the names. *)
Definition not_after (x y : pykey * z3.expr) : Prop :=
  key_lt (fst y) (fst x) = Ok false.

(** The formula of a step that carries one: the step is a dict, its type
    is not ["cases"], and its ["formula"] is not [None]. *)
Definition plain_formula (step : json) : option json :=
  match step with
  | JObj d =>
      if str_is (dict_get d "type") "cases" then None
      else if is_none (dict_get d "formula") then None
      else Some (dict_get d "formula")
  | _ => None
  end.

(** The formulas of the single-formula steps that [results] records with
    the status [proven], in the order of the results.  [first] is the
    index the loop starts with: it numbers the step at index [j] of
    [steps] as [first + j + 1]. *)
Definition proven_formulas (first : nat) (steps : list json) (results : list step_result)
  : list json :=
  omap (fun r =>
          if bool_decide (sr_status r = Some "proven")
          then steps !! (sr_step r - S first) ≫= plain_formula
          else None)
       results.

(** The parts of a response that tell the verdict on the claim: all but
    the step results. *)
Definition verdict (r : response)
  : bool * string * option (list (pykey * string)) * option string * option string :=
  (ok r, status r, model r, message r, error r).

(** The token types that the lexer keeps to itself: the end marker it
    appends, and the two it skips. *)
Definition lexer_only : list string := ["EOF"; "WHITESPACE"; "COMMENT"].

(** The names of [TOKEN_PATTERNS]. *)
Definition pattern_names : list string :=
  ["WHITESPACE"; "NEWLINE"; "COMMENT"; "STRING"; "NUMBER"; "IDENT";
   "LE"; "GE"; "NE"; "IMPLIES_OP"; "EQ"; "LT"; "GT"; "PLUS"; "MINUS"; "STAR";
   "SLASH"; "CARET"; "LPAREN"; "RPAREN"; "COMMA"; "COLON"; "DOT"; "PIPE"].

(** ** What the statement methods leave alone, and what they only add to *)

(** [outcome Rok Rerr m]: a state in which [m] returns is related by
    [Rok] to the one it started from, and one in which it raises by
    [Rerr]. *)
Definition outcome (Rok Rerr : Parser -> Parser -> Prop) {A : Type} (m : PM A) : Prop :=
  forall st,
    match m st with
    | POk _ st' => Rok st st'
    | PErr _ st' => Rerr st st'
    | PFuel => True
    end.

(** [grows st st']: the tokens, the base path and the error list are the
    same; the position has not moved back; and the variables, the steps,
    the typed names, the names of the theorems and the imported paths of
    [st] are all still there in [st']. *)
Definition grows (st st' : Parser) : Prop :=
  tokens st' = tokens st /\ base_path st' = base_path st /\ errors st' = errors st /\
  pos st <= pos st' /\
  variables st ⊆ variables st' /\
  steps st `prefix_of` steps st' /\
  dom (var_types st) ⊆ dom (var_types st') /\
  dom (theorems st) ⊆ dom (theorems st') /\
  imported_files st ⊆ imported_files st'.

(** [adds st st']: [grows], and the assumptions of [st] are still there
    too, in front. *)
Definition adds (st st' : Parser) : Prop :=
  grows st st' /\ assumptions st `prefix_of` assumptions st'.

(** A method that returns only after it has consumed a token. *)
Definition consumes {A : Type} (m : PM A) : Prop :=
  forall st a st', m st = POk a st' -> pos st < pos st'.

(** ** The names in an AST *)

(** The names that occur in an AST: the strings under the key ["name"]
    (variable references) and the strings in the lists under the key
    ["vars"] (bound names), at any depth. *)
Fixpoint names_of (j : json) : gset string :=
  match j with
  | JObj d =>
      (fix fields (d : list (string * json)) : gset string :=
         match d with
         | [] => ∅
         | (k, v) :: rest =>
             (if String.eqb k "name" then
                match v with JStr s => {[s]} | _ => ∅ end
              else if String.eqb k "vars" then
                match v with
                | JArr l =>
                    (fix strings (l : list json) : gset string :=
                       match l with
                       | [] => ∅
                       | JStr s :: l' => {[s]} ∪ strings l'
                       | _ :: l' => strings l'
                       end) l
                | _ => ∅
                end
              else names_of v) ∪ fields rest
         end) d
  | JArr l =>
      (fix elements (l : list json) : gset string :=
         match l with
         | [] => ∅
         | x :: l' => names_of x ∪ elements l'
         end) l
  | _ => ∅
  end.

(** The names in a list of ASTs. *)
Definition names_in (l : list json) : gset string := names_of (JArr l).

(** Hoare triples for the parser methods, on the runs that return. *)
Definition triple {A : Type} (P : Parser -> Prop) (m : PM A) (Q : A -> Parser -> Prop)
  : Prop :=
  forall st, P st ->
    match m st with
    | POk a st' => Q a st'
    | _ => True
    end.

(** The parser has recorded the names [V]. *)
Definition sees (V : gset string) (st : Parser) : Prop := V ⊆ variables st.

(** What each formula method is shown to do: with the names [V]
    recorded before, the names [V] and those of the AST it returns are
    recorded after. *)
Definition records_spec (m : PM json) : Prop :=
  forall V, triple (sees V) m (fun a => sees (V ∪ names_of a)).

(** [only_theorems st st']: the two states differ at most in the
    position, the theorems and the imported paths, and [st'] has the
    names of the theorems and the imported paths of [st]. *)
Definition only_theorems (st st' : Parser) : Prop :=
  tokens st' = tokens st /\ assumptions st' = assumptions st /\
  steps st' = steps st /\ claim st' = claim st /\
  variables st' = variables st /\ var_types st' = var_types st /\
  base_path st' = base_path st /\ errors st' = errors st /\
  dom (theorems st) ⊆ dom (theorems st') /\
  imported_files st ⊆ imported_files st'.


(** The shape of a case of a cases block. *)
Definition is_case (c : json) : Prop :=
  exists condition case_steps,
    c = case_item condition case_steps /\
    Forall (fun s => exists f, s = formula_item f) case_steps.



(** * The web API ([check_proof] in [web/app.py]) *)

(** The JSON object the handler answers with, and the HTTP status.  A key
    that is absent from the object is [None]. *)
Record web_response : Type := {
  web_ok : bool;
  web_status : string;
  web_message : string;
  web_model : option (list (pykey * string));
  web_step_results : option (list step_result);
  web_http : nat
}.

Definition web_error (message : string) (http : nat) : web_response :=
  {| web_ok := false; web_status := "error"; web_message := message;
     web_model := None; web_step_results := None; web_http := http |}.

(** [check_proof] for a request whose body has a string under the key
    ["code"].  The source is tokenized and parsed; [prove] is called with
    the assumptions, the claim, the types and the steps of the unit, and
    with [ast.get('declared_vars', [])] for the declared variables.  The
    dict that [Parser.parse] returns has no key ['declared_vars'] (the
    variables are under ['vars']) and no key ['errors'], so the list is
    empty and the check for parse errors never fires.  [None] is a run
    cut short by the bound on the depth of the parser. *)
Section web.
Context {Model : Type}.
Variable fs : FileSystem.
Variable check : list z3.expr -> check_result Model.
Variable eval_str : Model -> z3.expr -> string.

Definition check_proof (n : nat) (examples : string) (code : string)
  : option web_response :=
  match parse fs n code examples with
  | ParseFuel => None
  | ParseFailed e => Some (web_error ("Parse error: " +:+ ParseError_str e) 200)
  | ParsedUnit u =>
      let assumptions := pu_assumptions u in
      let claim := pu_claim u in
      let declared_vars : list json := [] in
      let var_types := JStr <$> pu_var_types u in
      let steps := pu_steps u in
      if negb (truthy claim)
      then Some (web_error "No claim (prove statement) found in the proof" 200)
      else
        let result := prove check eval_str var_types assumptions claim declared_vars steps in
        Some {| web_ok := ok result;
                web_status := status result;
                web_message :=
                  if ok result then "The claim follows logically from the assumptions."
                  else if String.eqb (status result) "disproven"
                       then "A counterexample was found."
                  else if String.eqb (status result) "unknown"
                       then match message result with
                            | Some text => text
                            | None => "Z3 could not determine satisfiability."
                            end
                  else match error result with
                       | Some text => text
                       | None => "Unknown error"
                       end;
                web_model :=
                  if negb (ok result) && String.eqb (status result) "disproven"
                  then Some (match model result with Some m => m | None => [] end)
                  else None;
                web_step_results := step_results result;
                web_http := 200 |}
  end.

End web.

(** ** Environments as maps *)

(** Two environments that hold the same constant for every name, in
    whatever order. *)
Definition same_map (env env' : Env) : Prop :=
  forall k, env_lookup k env = env_lookup k env'.

(** A translation that does not look at the order of the environment:
    in environments that are the same map it returns the same expression
    and leaves environments that are the same map, or raises the same
    exception. *)
Definition alike {A : Type} (tr : Env -> Res (A * Env)) : Prop :=
  forall env env',
    same_map env env' ->
    match tr env, tr env' with
    | Ok (e, env1), Ok (e', env1') => e = e' /\ same_map env1 env1'
    | Raise x, Raise y => x = y
    | _, _ => False
    end.

(** ** More sample inputs *)

(** The tokens of a source that the lexer accepts. *)
Definition tokens_of (source : string) : list Token :=
  match tokenize source with
  | inr toks => toks
  | inl _ => []
  end.

Definition y_const : z3.expr := z3.Real (KStr "y").

(** [assume x > 0], [have x > 10], [prove x > 0]: the step has the
    counterexample [x = 1] of [small_solver]. *)
Definition x_large : json := rel ">" x_var (num "10").

(** [assume x > 0], [have x > 10], [have x >= 0]: a solver that has the
    counterexample [x = 1] for the first step and proves the second. *)
Definition mixed_solver : list z3.expr -> check_result (list (z3.expr * string)) :=
  scripted [([z3.Gt x_const zero_val; z3.Not (z3.Gt x_const ten_val)], sat [(x_const, "1")]);
            ([z3.Gt x_const zero_val; z3.Not (z3.Ge x_const zero_val)], unsat)].
Definition overreach_source : string :=
  "assume x > 0" // "have x > 10" // "prove x > 0".

(** A theorem block with an assumption of its own. *)
Definition block_source : string :=
  "theorem pos_square:" // "  assume y > 0" // "  prove y * y > 0".

(** A source whose first line is not a statement. *)
Definition stray_source : string := "x > 0" // "prove x > 0".

(** A source whose first line is not a statement, followed by two lines
    that are. *)
Definition two_starts_source : string := "x y" // "assume y > 0" // "prove y > 0".
Definition stray_error : ParseError :=
  error_at ("Expected statement keyword (assume/suppose, prove/show, have/so, let/define, theorem/lemma, apply/use, import, or cases), got IDENT")
           {| tok_type := "IDENT"; tok_value := "x"; tok_line := 1; tok_col := 1 |}.

(** The parser of [leaky_source] at its cases block. *)
Definition leaky_st : Parser :=
  advanced (state_after (parse_statement no_files 20 (parser_on leaky_source))
              (parser_on leaky_source)).

(** The parser of [importing_source] at its second import, with the
    files of [one_file]. *)
Definition importing_st : Parser :=
  advanced (state_after (parse_statement one_file 20 (parser_on importing_source))
              (parser_on importing_source)).

(** What [check_proof] answers for [overreach_source]. *)
Definition overreach_response : web_response :=
  match check_proof no_files small_solver table_eval 20 "." overreach_source with
  | Some response => response
  | None => web_error "" 0
  end.

(** ** Facts about dicts and environments *)

Lemma on_field_assoc {A : Type} (k : string) (found : json -> A) (missing : A)
  (d : list (string * json)) :
  on_field k found missing d =
  match assoc k d with Some v => found v | None => missing end.
Proof.
  induction d as [|[k' v] rest IH]; simpl; [reflexivity|].
  destruct (String.eqb k k'); [reflexivity|exact IH].
Qed.

Lemma assoc_In (k : string) (d : list (string * json)) (v : json) :
  assoc k d = Some v -> In (k, v) d.
Proof.
  induction d as [|[k' v'] rest IH]; simpl; [discriminate|].
  destruct (String.eqb k k') eqn:E.
  - intros [= <-]. apply String.eqb_eq in E. subst. now left.
  - intros H. right. now apply IH.
Qed.

(** The induction principle in the form the translators need.  Terms and
    formulas are dicts; their children are values the dict holds, or the
    elements of a list it holds. *)
Lemma json_tree_ind (P : json -> Prop) :
  P JNull -> (forall b, P (JBool b)) -> (forall z, P (JInt z)) ->
  (forall s, P (JStr s)) ->
  (forall l, P (JArr l)) ->
  (forall d,
      (forall k v, assoc k d = Some v -> P v) ->
      (forall k l, assoc k d = Some (JArr l) -> Forall P l) ->
      P (JObj d)) ->
  forall j, P j.
Proof.
  intros HN HB HI HS HA HO.
  assert (both : forall j,
             P j /\ match j with JArr l => Forall P l | _ => True end).
  { induction j as [| | | |l IH|d IH] using json_nested_ind; try (split; auto; fail).
    - split; [apply HA|].
      induction IH as [|x l [Hx _] _ IHl]; constructor; assumption.
    - split; [|exact I]. apply HO.
      + intros k v Hk. apply assoc_In in Hk.
        rewrite List.Forall_forall in IH. exact (proj1 (IH _ Hk)).
      + intros k l Hk. apply assoc_In in Hk.
        rewrite List.Forall_forall in IH. exact (proj2 (IH _ Hk)). }
  intros j. exact (proj1 (both j)).
Qed.

Lemma pykey_eqb_eq (a b : pykey) : pykey_eqb a b = true <-> a = b.
Proof.
  destruct a, b; simpl; split; intros H; try discriminate; try reflexivity.
  - apply Z.eqb_eq in H. now subst.
  - injection H as ->. apply Z.eqb_refl.
  - apply String.eqb_eq in H. now subst.
  - injection H as ->. apply String.eqb_refl.
Qed.

Lemma pykey_eqb_refl (a : pykey) : pykey_eqb a a = true.
Proof. now apply pykey_eqb_eq. Qed.

Lemma env_lookup_set_same (k : pykey) (v : z3.expr) (env : Env) :
  env_lookup k (env_set k v env) = Some v.
Proof.
  induction env as [|[k' v'] rest IH]; simpl.
  - now rewrite pykey_eqb_refl.
  - destruct (pykey_eqb k k') eqn:E; simpl; rewrite E; [reflexivity|exact IH].
Qed.

Lemma env_lookup_set_other (k k' : pykey) (v : z3.expr) (env : Env) :
  k <> k' -> env_lookup k' (env_set k v env) = env_lookup k' env.
Proof.
  intros Hne. induction env as [|[k0 v0] rest IH]; simpl.
  - destruct (pykey_eqb k' k) eqn:E; [|reflexivity].
    apply pykey_eqb_eq in E. congruence.
  - destruct (pykey_eqb k k0) eqn:E; simpl.
    + apply pykey_eqb_eq in E. subst k0.
      destruct (pykey_eqb k' k) eqn:E'; [|reflexivity].
      apply pykey_eqb_eq in E'. congruence.
    + now rewrite IH.
Qed.

Lemma env_lookup_In (k : pykey) (v : z3.expr) (env : Env) :
  env_lookup k env = Some v -> In (k, v) env.
Proof.
  induction env as [|[k' v'] rest IH]; simpl; [discriminate|].
  destruct (pykey_eqb k k') eqn:E.
  - intros [= <-]. apply pykey_eqb_eq in E. subst. now left.
  - intros H. right. now apply IH.
Qed.

Lemma extends_trans vt (e1 e2 e3 : Env) :
  extends vt e1 e2 -> extends vt e2 e3 -> extends vt e1 e3.
Proof.
  intros H12 H23. induction H23; [assumption|].
  apply extends_set. now apply IHextends.
Qed.

(** A name mapped to its own constant stays so. *)
Lemma extends_keeps vt (env env' : Env) (k : pykey) :
  extends vt env env' ->
  env_lookup k env = Some (mk_const vt k) ->
  env_lookup k env' = Some (mk_const vt k).
Proof.
  intros Hext Hk. induction Hext as [|env env' k' Hext IH]; [assumption|].
  destruct (pykey_eqb k' k) eqn:E.
  - apply pykey_eqb_eq in E. subst k'. apply env_lookup_set_same.
  - rewrite env_lookup_set_other; [now apply IH|].
    intros ->. now rewrite pykey_eqb_refl in E.
Qed.

(** No name is ever removed. *)
Lemma extends_has vt (env env' : Env) (k : pykey) :
  extends vt env env' ->
  is_Some (env_lookup k env) -> is_Some (env_lookup k env').
Proof.
  intros Hext Hk. induction Hext as [|env env' k' Hext IH]; [assumption|].
  destruct (pykey_eqb k' k) eqn:E.
  - apply pykey_eqb_eq in E. subst k'. rewrite env_lookup_set_same. eauto.
  - rewrite env_lookup_set_other; [now apply IH|].
    intros ->. now rewrite pykey_eqb_refl in E.
Qed.

(** Case analysis on the outcome of a computation bound in a hypothesis. *)
Ltac bind_ok H :=
  match type of H with
  | bind ?m _ = Ok _ =>
      let E := fresh "E" in
      destruct m as [?|?] eqn:E; simpl in H; [|discriminate H]
  end.

Ltac split_pair :=
  repeat match goal with
         | p : (_ * _)%type |- _ => destruct p
         end.

(** The induction hypothesis of [json_tree_ind] at the child under a key. *)
Ltac child_IH IH E name := pose proof (IH _ _ E) as name.

Lemma fold_rest_extends vt (term : json -> Tr) cmp (rest : list json) :
  Forall (fun t => forall env e env', term t env = Ok (e, env') -> extends vt env env') rest ->
  forall result env e env',
    fold_rest term cmp rest result env = Ok (e, env') -> extends vt env env'.
Proof.
  induction 1 as [|t rest Ht _ IH]; simpl; intros result env e env' H.
  - injection H as _ <-. constructor.
  - bind_ok H. split_pair.
    eapply extends_trans; [eapply Ht; eassumption|eapply IH; eassumption].
Qed.

Lemma fold_args_extends vt (term : json -> Tr) cmp what (l : list json) :
  Forall (fun t => forall env e env', term t env = Ok (e, env') -> extends vt env env') l ->
  forall env e env',
    fold_args term cmp what l env = Ok (e, env') -> extends vt env env'.
Proof.
  intros HF env e env' H. unfold fold_args in H.
  destruct (length l <? 2)%nat; [discriminate|].
  destruct l as [|a0 rest]; [discriminate|].
  apply List.Forall_cons_iff in HF as [Ha Hrest].
  bind_ok H. split_pair.
  eapply extends_trans; [eapply Ha; eassumption|].
  eapply fold_rest_extends; eassumption.
Qed.

Lemma fold_args_other_raises what args :
  forall r, fold_args_other what args <> Ok r.
Proof.
  intros r. unfold fold_args_other.
  destruct (py_len args) as [n|]; simpl; [|discriminate].
  destruct (n <? 2)%nat; [discriminate|]. destruct args; discriminate.
Qed.

Lemma term_to_z3_extends vt (t : json) :
  forall env e env', term_to_z3 vt t env = Ok (e, env') -> extends vt env env'.
Proof.
  induction t as [| | | |l|d IH IHelts] using json_tree_ind; intros env e env' H;
    try discriminate H.
  cbn [term_to_z3] in H. rewrite !on_field_assoc in H.
  repeat match type of H with
         | (if ?c then _ else _) = _ => destruct c
         | Raise _ = _ => discriminate H
         end.
  - injection H as _ <-. constructor.
  - bind_ok H. destruct (env_lookup a env).
    + injection H as _ <-. constructor.
    + injection H as _ <-. repeat constructor.
  - destruct (assoc "lhs" d) as [lhs|] eqn:El; [|discriminate].
    rewrite on_field_assoc in H.
    destruct (assoc "rhs" d) as [rhs|] eqn:Er; [|discriminate].
    child_IH IH El IHl. child_IH IH Er IHr.
    bind_ok H. split_pair. bind_ok H. split_pair.
    assert (extends vt env e3) by (eapply extends_trans; eauto).
    repeat match type of H with
           | (if ?c then _ else _) = _ => destruct c
           | Ok _ = Ok _ => injection H as _ <-
           | Raise _ = _ => discriminate H
           end; assumption.
  - destruct (assoc "arg" d) as [arg|] eqn:Ea; [|discriminate].
    child_IH IH Ea IHa.
    bind_ok H. split_pair. injection H as _ <-. eauto.
  - destruct (assoc "arg" d) as [arg|] eqn:Ea; [|discriminate].
    child_IH IH Ea IHa.
    bind_ok H. split_pair. injection H as _ <-. eauto.
  - destruct (assoc "base" d) as [base|] eqn:Eb; [|discriminate].
    rewrite on_field_assoc in H.
    destruct (assoc "exp" d) as [ex|] eqn:Ee; [|discriminate].
    child_IH IH Eb IHb. child_IH IH Ee IHe.
    bind_ok H. split_pair. bind_ok H. split_pair. injection H as _ <-.
    eapply extends_trans; eauto.
  - destruct (assoc "arg" d) as [arg|] eqn:Ea; [|discriminate].
    child_IH IH Ea IHa.
    bind_ok H. split_pair. injection H as _ <-. eauto.
  - destruct (assoc "args" d) as [args|] eqn:Ea; [|discriminate].
    destruct args; try (now apply fold_args_other_raises in H).
    eapply fold_args_extends; [|eassumption]. eauto.
  - destruct (assoc "args" d) as [args|] eqn:Ea; [|discriminate].
    destruct args; try (now apply fold_args_other_raises in H).
    eapply fold_args_extends; [|eassumption]. eauto.
Qed.

Lemma map_args_extends vt (formula : json -> Tr) (l : list json) :
  Forall (fun f => forall env e env', formula f env = Ok (e, env') -> extends vt env env') l ->
  forall env zs env',
    map_args formula l env = Ok (zs, env') -> extends vt env env'.
Proof.
  induction 1 as [|f rest Hf _ IH]; simpl; intros env zs env' H.
  - injection H as _ <-. constructor.
  - bind_ok H. split_pair. bind_ok H. split_pair. injection H as _ <-.
    eapply extends_trans; eauto.
Qed.

Lemma connective_other_env unit args env e env' :
  connective_other unit args env = Ok (e, env') -> env' = env.
Proof.
  unfold connective_other. intros H. bind_ok H.
  destruct (a =? 0)%nat; [|discriminate]. now injection H as _ <-.
Qed.

Lemma bind_vars_extends vt (names : list json) :
  forall qs env qs' env',
    bind_vars vt names qs env = Ok (qs', env') -> extends vt env env'.
Proof.
  induction names as [|name rest IH]; simpl; intros qs env qs' env' H.
  - injection H as _ <-. constructor.
  - bind_ok H. apply IH in H.
    eapply extends_trans; [|exact H]. repeat constructor.
Qed.

Lemma quantifier_extends vt (formula : json -> Tr)
  (mk : list z3.expr -> z3.expr -> z3.expr) var_names b env e env' :
  (forall env e env', formula b env = Ok (e, env') -> extends vt env env') ->
  (let* names := py_iter var_names in
   let* (quant_vars, env1) := bind_vars vt names [] env in
   let* (body, env2) := formula b env1 in
   Ok (mk quant_vars body, env2)) = Ok (e, env') ->
  extends vt env env'.
Proof.
  intros Hb H. bind_ok H. bind_ok H. split_pair. bind_ok H. split_pair.
  injection H as _ <-.
  eapply extends_trans; [eapply bind_vars_extends; eassumption|eauto].
Qed.

Lemma formula_to_z3_extends vt (f : json) :
  forall env e env', formula_to_z3 vt f env = Ok (e, env') -> extends vt env env'.
Proof.
  induction f as [| | | |l|d IH IHelts] using json_tree_ind; intros env e env' H;
    try discriminate H.
  cbn [formula_to_z3] in H. rewrite !on_field_assoc in H.
  repeat match type of H with
         | (if ?c then _ else _) = _ => destruct c
         | Raise _ = _ => discriminate H
         end.
  - destruct (assoc "lhs" d) as [lhs|]; [|discriminate].
    destruct (assoc "rhs" d) as [rhs|]; [|discriminate].
    bind_ok H. split_pair. bind_ok H. split_pair. bind_ok H.
    injection H as _ <-.
    eapply extends_trans; eapply term_to_z3_extends; eassumption.
  - destruct (assoc "args" d) as [args|] eqn:Ea;
      [|injection H as _ <-; constructor].
    destruct args as [| | | |l|d'];
      try (apply connective_other_env in H; subst; constructor).
    destruct l as [|a l]; [injection H as _ <-; constructor|].
    bind_ok H. split_pair. injection H as _ <-.
    eapply map_args_extends; [|eassumption]. eauto.
  - destruct (assoc "args" d) as [args|] eqn:Ea;
      [|injection H as _ <-; constructor].
    destruct args as [| | | |l|d'];
      try (apply connective_other_env in H; subst; constructor).
    destruct l as [|a l]; [injection H as _ <-; constructor|].
    bind_ok H. split_pair. injection H as _ <-.
    eapply map_args_extends; [|eassumption]. eauto.
  - destruct (assoc "arg" d) as [arg|] eqn:Ea; [|discriminate].
    child_IH IH Ea IHa.
    bind_ok H. split_pair. injection H as _ <-. eauto.
  - destruct (assoc "lhs" d) as [lhs|] eqn:El; [|discriminate].
    rewrite on_field_assoc in H.
    destruct (assoc "rhs" d) as [rhs|] eqn:Er; [|discriminate].
    child_IH IH El IHl. child_IH IH Er IHr.
    bind_ok H. split_pair. bind_ok H. split_pair. injection H as _ <-.
    eapply extends_trans; eauto.
  - destruct (assoc "body" d) as [b|] eqn:Eb; [|discriminate].
    child_IH IH Eb IHb. eapply quantifier_extends; eassumption.
  - destruct (assoc "body" d) as [b|] eqn:Eb; [|discriminate].
    child_IH IH Eb IHb. eapply quantifier_extends; eassumption.
Qed.

(** ** The driver: facts *)

Lemma declare_extends vt (names : list json) :
  forall env env', declare vt names env = Ok env' -> extends vt env env'.
Proof.
  induction names as [|name rest IH]; simpl; intros env env' H.
  - injection H as <-. constructor.
  - bind_ok H. apply IH in H.
    eapply extends_trans; [|exact H]. repeat constructor.
Qed.

(** After [declare], every declared name is mapped to its constant. *)
Lemma declare_lookup vt (names : list json) :
  forall env env',
    declare vt names env = Ok env' ->
    forall name k, In name names -> hash_key name = Ok k ->
                   env_lookup k env' = Some (mk_const vt k).
Proof.
  induction names as [|name0 rest IH]; simpl; intros env env' H name k Hin Hk;
    [contradiction|].
  bind_ok H. destruct Hin as [->|Hin].
  - rewrite Hk in E. injection E as <-.
    eapply extends_keeps; [eapply declare_extends; exact H|].
    apply env_lookup_set_same.
  - eapply IH; eassumption.
Qed.

Lemma bind_vars_lookup vt (names : list json) :
  forall qs env qs' env',
    bind_vars vt names qs env = Ok (qs', env') ->
    forall name k, In name names -> hash_key name = Ok k ->
                   env_lookup k env' = Some (mk_const vt k).
Proof.
  induction names as [|name0 rest IH]; simpl; intros qs env qs' env' H name k Hin Hk;
    [contradiction|].
  bind_ok H. destruct Hin as [->|Hin].
  - rewrite Hk in E. injection E as <-.
    eapply extends_keeps; [eapply bind_vars_extends; exact H|].
    apply env_lookup_set_same.
  - eapply IH; eassumption.
Qed.

Lemma final_query_extends vt env live claim q env1 :
  final_query vt env live claim = Ok (q, env1) -> extends vt env env1.
Proof.
  unfold final_query. intros H. bind_ok H. split_pair. bind_ok H. split_pair.
  injection H as _ <-.
  eapply extends_trans.
  - eapply map_args_extends; [|eassumption].
    apply List.Forall_forall. intros f _. apply formula_to_z3_extends.
  - eapply formula_to_z3_extends; eassumption.
Qed.

Lemma model_out_In {Model : Type} (eval_str : Model -> z3.expr -> string) m env k v :
  env_lookup k env = Some v -> In (k, eval_str m v) (model_out eval_str m env).
Proof.
  intros H. apply env_lookup_In in H. unfold model_out.
  apply in_map_iff. exists (k, v). split; [reflexivity|assumption].
Qed.

Lemma insert_item_strings x l :
  string_keys (x :: l) = true ->
  exists l', insert_item x l = Ok l' /\ string_keys l' = true.
Proof.
  induction l as [|y rest IH]; intros H.
  - exists [x]. split; [reflexivity|assumption].
  - cbn [insert_item]. cbn in H.
    destruct x as [[| |kx] vx]; try discriminate.
    destruct y as [[| |ky] vy]; try discriminate.
    cbn. destruct (String.ltb kx ky).
    + eexists. split; [reflexivity|]. exact H.
    + destruct IH as [l' [El' Hl']]; [exact H|].
      cbn in El'. rewrite El'. cbn. eexists. split; [reflexivity|]. exact Hl'.
Qed.

Lemma sorted_items_strings env :
  string_keys env = true ->
  exists l, sorted_items env = Ok l /\ string_keys l = true.
Proof.
  induction env as [|x rest IH]; intros H.
  - exists []. split; reflexivity.
  - cbn in H. apply andb_true_iff in H as [Hx Hrest].
    destruct (IH Hrest) as [l [El Hl]]. cbn [sorted_items]. rewrite El. cbn [bind].
    apply insert_item_strings. cbn [string_keys forallb]. rewrite Hx. exact Hl.
Qed.

Lemma steps_loop_app {Model : Type} (check : list z3.expr -> check_result Model)
  eval_str vt env (pre rest : list json) :
  forall i sr live,
    steps_loop check eval_str vt env i (pre ++ rest) sr live =
    (let* (sr1, live1) := steps_loop check eval_str vt env i pre sr live in
     steps_loop check eval_str vt env (i + length pre) rest sr1 live1).
Proof.
  induction pre as [|s pre IH]; intros i sr live; cbn [app steps_loop length].
  - cbn. now rewrite Nat.add_0_r.
  - destruct (step_once check eval_str vt env i s sr live) as [[sr1 live1]|e]; cbn; [|reflexivity].
    rewrite IH. now replace (i + S (length pre)) with (S i + length pre) by lia.
Qed.

Lemma prove_raise {Model : Type} (check : list z3.expr -> check_result Model)
  eval_str vt assumptions claim declared_vars steps e :
  prove_body check eval_str vt assumptions claim declared_vars steps = Raise e ->
  prove check eval_str vt assumptions claim declared_vars steps = error_response e.
Proof. unfold prove. intros ->. destruct e; reflexivity. Qed.

(** ** The constant of a name *)

Lemma mk_const_typed vt k : typed_constant vt k (mk_const vt k).
Proof.
  unfold typed_constant, mk_const, is_Int.
  destruct k as [|z|s]; try (right; split; [intros s' [=]|reflexivity]).
  destruct (vt !! s) as [v|] eqn:Hv.
  - destruct v as [| | |t| |]; cbn [str_is];
      try (right; split; [intros s' [= <-]; rewrite Hv; discriminate|reflexivity]).
    destruct (String.eqb t "Int") eqn:Ht.
    + apply String.eqb_eq in Ht. subst t. left. split; [eauto|reflexivity].
    + right. split; [|reflexivity].
      intros s' [= <-]. rewrite Hv. intros [= ->]. now rewrite String.eqb_refl in Ht.
  - right. split; [|reflexivity]. intros s' [= <-]. rewrite Hv. discriminate.
Qed.

Lemma typed_constant_mk vt k c : typed_constant vt k c -> c = mk_const vt k.
Proof.
  intros Hc. destruct (mk_const_typed vt k) as [[(s & -> & Hs) Hm]|[Hno Hm]];
    destruct Hc as [[(s' & Hk & Hs') ->]|[Hno' ->]]; try congruence.
  - now destruct (Hno' s eq_refl).
  - now destruct (Hno s' Hk).
Qed.

(** * The parser: facts *)


Lemma matches_in (token_types : list string) (st : Parser) :
  matches token_types st = true <-> In (tok_type (current_tok st)) token_types.
Proof.
  unfold matches, in_types. rewrite existsb_exists. split.
  - intros [x [Hin Heq]]. apply String.eqb_eq in Heq. now subst.
  - intros Hin. exists (tok_type (current_tok st)). split; [assumption|apply String.eqb_refl].
Qed.







(** ** The frame of the formula methods *)

Lemma frame_refl st : frame st st.
Proof. repeat split. Qed.

Lemma frame_trans st1 st2 st3 : frame st1 st2 -> frame st2 st3 -> frame st1 st3.
Proof.
  unfold frame. intros H12 H23.
  destruct H12 as (?&?&?&?&?&?&?&?&?), H23 as (?&?&?&?&?&?&?&?&?).
  repeat split; congruence.
Qed.

Lemma keeps_pret {A : Type} (a : A) : keeps (pret a).
Proof. intros st. apply frame_refl. Qed.

Lemma keeps_praise {A : Type} e : keeps (@praise A e).
Proof. intros st. apply frame_refl. Qed.

Lemma keeps_pget : keeps pget.
Proof. intros st. apply frame_refl. Qed.

Lemma keeps_current : keeps current.
Proof. intros st. apply frame_refl. Qed.

Lemma keeps_advance : keeps advance.
Proof. intros st. repeat split. Qed.

Lemma keeps_expect t : keeps (expect t).
Proof.
  intros st. unfold expect. destruct (String.eqb _ _); repeat split.
Qed.

Lemma keeps_set_variables (f : Parser -> gset string) :
  keeps (pmodify (fun st => set_variables (f st) st)).
Proof. intros st. repeat split. Qed.

Lemma keeps_pbind {A B : Type} (m : PM A) (k : A -> PM B) :
  keeps m -> (forall a, keeps (k a)) -> keeps (pbind m k).
Proof.
  intros Hm Hk st. unfold pbind. specialize (Hm st).
  destruct (m st) as [a st'|e st'|]; [|assumption|exact I].
  specialize (Hk a st').
  destruct (k a st') as [b st''|e st''|]; [| |exact I];
    eapply frame_trans; eassumption.
Qed.

Lemma keeps_while_cond {A : Type} k cond (body : A -> PM A) :
  (forall acc, keeps (body acc)) -> forall acc, keeps (while_cond k cond body acc).
Proof.
  intros Hb. induction k as [|k IH]; intros acc st; simpl; [exact I|].
  destruct (cond st); [|apply frame_refl].
  specialize (Hb acc st).
  destruct (body acc st) as [acc' st'|e st'|]; [|assumption|exact I].
  specialize (IH acc' st').
  destruct (while_cond k cond body acc' st') as [r st''|e st''|]; [| |exact I];
    eapply frame_trans; eassumption.
Qed.

Lemma keeps_fuel {A : Type} : keeps (fun _ : Parser => @PFuel A).
Proof. intros st. exact I. Qed.

(** Goes through a method built from the pieces above. *)
Ltac keeps_step :=
  first
    [ assumption
    | apply keeps_pret | apply keeps_praise | apply keeps_pget
    | apply keeps_current | apply keeps_advance | apply keeps_expect
    | apply keeps_fuel
    | apply (keeps_set_variables (fun st => _ ∪ variables st))
    | apply keeps_pbind; [|intros ?]
    | apply keeps_while_cond; intros ?
    | match goal with
      | |- keeps (if ?c then _ else _) => destruct c
      | |- keeps (match ?x with _ => _ end) => destruct x
      | |- keeps (let '(_, _) := ?x in _) => destruct x
      end ].

Lemma parse_methods_keep n :
  keeps (parse_formula n) /\ keeps (parse_implies n) /\ keeps (parse_or n) /\
  keeps (parse_and n) /\ keeps (parse_not n) /\ keeps (parse_quantifier n) /\
  keeps (parse_relation n) /\ keeps (parse_expr n) /\ keeps (parse_term n) /\
  keeps (parse_power n) /\ keeps (parse_unary n) /\ keeps (parse_atom n).
Proof.
  induction n as [|n IH].
  - repeat split; apply keeps_fuel.
  - destruct IH as (Hf & Hi & Ho & Ha & Hn & Hq & Hr & He & Ht & Hp & Hu & Hat).
    repeat split; cbn [parse_formula parse_implies parse_or parse_and parse_not
                       parse_quantifier parse_relation parse_expr parse_term
                       parse_power parse_unary parse_atom];
      unfold while_match, add_variable; repeat keeps_step.
Qed.

Lemma parse_formula_frame n st f st' :
  parse_formula n st = POk f st' -> frame st st'.
Proof.
  intros H. pose proof (proj1 (parse_methods_keep n) st) as K.
  now rewrite H in K.
Qed.

Lemma parse_expr_frame n st e st' :
  parse_expr n st = POk e st' -> frame st st'.
Proof.
  intros H.
  pose proof (proj1 (proj2 (proj2 (proj2 (proj2 (proj2 (proj2 (proj2
                (parse_methods_keep n)))))))) st) as K.
  now rewrite H in K.
Qed.

(** ** Running a [let] statement *)

#[local] Arguments current_tok : simpl never.
#[local] Arguments advanced : simpl never.

Lemma pbind_pret {A B : Type} (a : A) (k : A -> PM B) st : pbind (pret a) k st = k a st.
Proof. reflexivity. Qed.

Lemma pbind_pget {B : Type} (k : Parser -> PM B) st : pbind pget k st = k st st.
Proof. reflexivity. Qed.

Lemma pbind_current {B : Type} (k : Token -> PM B) st :
  pbind current k st = k (current_tok st) st.
Proof. reflexivity. Qed.

Lemma pbind_advance {B : Type} (k : Token -> PM B) st :
  pbind advance k st = k (current_tok st) (advanced st).
Proof. reflexivity. Qed.

Lemma pbind_pmodify {B : Type} f (k : unit -> PM B) st :
  pbind (pmodify f) k st = k tt (f st).
Proof. reflexivity. Qed.

Lemma pbind_expect {B : Type} t (k : Token -> PM B) st :
  tok_type (current_tok st) = t ->
  pbind (expect t) k st = k (current_tok st) (advanced st).
Proof.
  intros H. unfold pbind, expect. rewrite H, String.eqb_refl. reflexivity.
Qed.

Lemma pbind_assoc {A B C : Type} (m : PM A) (f : A -> PM B) (k : B -> PM C) st :
  pbind (pbind m f) k st = pbind m (fun x => pbind (f x) k) st.
Proof. unfold pbind. destruct (m st); reflexivity. Qed.

Lemma matches_type l st t :
  tok_type (current_tok st) = t -> matches l st = in_types t l.
Proof. intros H. unfold matches. now rewrite H. Qed.

(** One step of a run along known tokens. *)
Ltac step :=
  first
    [ rewrite pbind_pret | rewrite pbind_pget | rewrite pbind_current
    | rewrite pbind_advance | rewrite pbind_pmodify | rewrite pbind_assoc
    | match goal with
      | H : matches ?l ?s = _ |- context [matches ?l ?s] => rewrite H
      | H : tok_type (current_tok ?s) = ?t |- context [pbind (expect ?t) _ ?s] =>
          rewrite (pbind_expect t _ s H)
      | H : tok_type (current_tok ?s) = _ |- context [matches ?l ?s] =>
          rewrite (matches_type l s _ H)
      | H : tok_type (current_tok ?s) = _ |- context [tok_type (current_tok ?s)] =>
          rewrite H
      end
    | progress cbn [in_types existsb String.eqb Ascii.eqb Bool.eqb orb andb negb] ].

Lemma frame_advanced st : frame st (advanced st).
Proof. repeat split. Qed.

Lemma let_statement_run fs n st a m st_end :
  types_ahead (let_tokens a m) st ->
  let name := tok_value (current_tok (ahead 1 st)) in
  let set_name := tok_value (current_tok (ahead (3 + length (annotation_tokens a)) st)) in
  let after := ahead (length (let_tokens a m)) st in
  matches ["COLON"; "IN"; "PLUS"] after = false ->
  initialiser n after st_end ->
  parse_statement fs (S n) st =
  POk tt (declared name (let_type a m set_name) (let_constraint m set_name name) st_end).
Proof.
  intros Htypes name set_name after Hafter Hinit.
  assert (Hc : matches ["COLON"] after = false /\ matches ["IN"] after = false /\
               matches ["PLUS"] after = false).
  { unfold matches, in_types in *. cbn [existsb] in *.
    repeat (apply orb_false_iff in Hafter as [? Hafter]).
    repeat split; cbn [existsb]; now rewrite ?orb_false_r. }
  destruct Hc as (HnoColon & HnoIn & HnoPlus).
  assert (Htail : forall ty cs,
    (st <- pget ;;
     (if matches ["EQ"] st then advance ;;; parse_expr n ;;; pret tt else pret tt) ;;;
     pmodify (fun st => set_variables ({[name]} ∪ variables st) st) ;;;
     pmodify (fun st => set_var_types (<[name := ty]> (var_types st)) st) ;;;
     match cs with
     | Some op =>
         pmodify (fun st => set_assumptions (assumptions st ++ [membership_constraint op name]) st)
     | None => pret tt
     end) after =
    POk tt (declared name ty
              (match cs with Some op => [membership_constraint op name] | None => [] end)
              st_end)).
  { intros ty cs. unfold pbind, pget, pret, pmodify, advance.
    destruct Hinit as [[Heq ->]|[Heq [e He]]]; rewrite Heq.
    - destruct cs; reflexivity.
    - rewrite He. destruct cs; reflexivity. }
  subst name set_name after.
  destruct a, m as [[|]|]; cbn in Htypes; cbn [ahead length let_tokens
    annotation_tokens membership_tokens app Nat.add] in *;
    repeat match goal with H : _ /\ _ |- _ => destruct H end.
  all: cbn [parse_statement]; unfold parse_let.
  all: repeat step.
  all: unfold let_type, let_constraint;
    try match goal with
        | |- context [set_meaning ?s ?p] => destruct (set_meaning s p) as [[t|] [op|]]
        end;
    cbn [fst snd];
    match goal with
    | |- _ = POk _ (declared _ ?ty [membership_constraint ?op _] _) =>
        exact (Htail ty (Some op))
    | |- _ = POk _ (declared _ ?ty [] _) => exact (Htail ty None)
    end.
Qed.

(** ** A larger bound changes no result *)

Lemma refines_refl {A : Type} (a : PM A) : refines a a.
Proof. intros st _. reflexivity. Qed.

Lemma refines_fuel {A : Type} (b : PM A) : refines (fun _ => PFuel) b.
Proof. intros st H. contradiction. Qed.

Lemma refines_pbind {A B : Type} (a b : PM A) (k k' : A -> PM B) :
  refines a b -> (forall x, refines (k x) (k' x)) ->
  refines (pbind a k) (pbind b k').
Proof.
  intros Hab Hk st H. unfold pbind in *.
  destruct (a st) as [x st'|e st'|] eqn:Ea; [| |contradiction].
  - rewrite (Hab st) by (rewrite Ea; discriminate). rewrite Ea. now apply Hk.
  - rewrite (Hab st) by (rewrite Ea; discriminate). now rewrite Ea.
Qed.

Lemma refines_while {A : Type} cond (body body' : A -> PM A) :
  (forall acc, refines (body acc) (body' acc)) ->
  forall k k' acc, k <= k' ->
    refines (while_cond k cond body acc) (while_cond k' cond body' acc).
Proof.
  intros Hb. induction k as [|k IH]; intros k' acc Hle st H; [contradiction|].
  destruct k' as [|k']; [lia|]. cbn [while_cond] in *.
  destruct (cond st); [|reflexivity].
  destruct (body acc st) as [acc' st'|e st'|] eqn:Eb; [| |contradiction].
  - rewrite (Hb acc st) by (rewrite Eb; discriminate). rewrite Eb.
    apply IH; [lia|assumption].
  - rewrite (Hb acc st) by (rewrite Eb; discriminate). now rewrite Eb.
Qed.

Ltac refines_step :=
  first
    [ assumption
    | apply refines_refl
    | apply refines_fuel
    | apply refines_pbind; [|intros ?]
    | apply refines_while; [intros ?|lia]
    | match goal with
      | |- refines (if ?c then _ else _) _ => destruct c
      | |- refines (match ?x with _ => _ end) _ => destruct x
      | |- refines (let '(_, _) := ?x in _) _ => destruct x
      end ].

Lemma parse_methods_refine n :
  forall m, n <= m ->
  refines (parse_formula n) (parse_formula m) /\
  refines (parse_implies n) (parse_implies m) /\
  refines (parse_or n) (parse_or m) /\
  refines (parse_and n) (parse_and m) /\
  refines (parse_not n) (parse_not m) /\
  refines (parse_quantifier n) (parse_quantifier m) /\
  refines (parse_relation n) (parse_relation m) /\
  refines (parse_expr n) (parse_expr m) /\
  refines (parse_term n) (parse_term m) /\
  refines (parse_power n) (parse_power m) /\
  refines (parse_unary n) (parse_unary m) /\
  refines (parse_atom n) (parse_atom m).
Proof.
  induction n as [|n IH]; intros m Hle.
  - repeat split; apply refines_fuel.
  - destruct m as [|m]; [lia|].
    destruct (IH m ltac:(lia))
      as (Hf & Hi & Ho & Ha & Hn & Hq & Hr & He & Ht & Hp & Hu & Hat).
    assert (Hnm : n <= m) by lia.
    repeat split; cbn [parse_formula parse_implies parse_or parse_and parse_not
                       parse_quantifier parse_relation parse_expr parse_term
                       parse_power parse_unary parse_atom];
      unfold while_match, add_variable; repeat refines_step.
Qed.

(** What [parse_formula] returns or raises under one bound, it returns
    or raises under every larger one. *)
Lemma parse_formula_bound n m st r :
  parse_formula n st = r -> r <> PFuel -> n <= m -> parse_formula m st = r.
Proof.
  intros H Hr Hle. destruct (parse_methods_refine n m Hle) as [Hf _].
  rewrite <- H. apply Hf. now rewrite H.
Qed.

Lemma refines_parse_let (pe pe' : PM json) :
  refines pe pe' -> refines (parse_let pe) (parse_let pe').
Proof. intros H. unfold parse_let. repeat refines_step. Qed.

Lemma refines_parse_cases (pf pf' : PM json) :
  refines pf pf' -> refines (parse_cases pf) (parse_cases pf').
Proof.
  intros H. unfold parse_cases. cbv zeta. unfold while_match. repeat refines_step.
Qed.

Lemma refines_statements_loop (ps ps' : PM unit) :
  refines ps ps' -> refines (statements_loop ps) (statements_loop ps').
Proof.
  intros H st. unfold statements_loop. apply refines_while; [|lia].
  intros _. now apply refines_pbind.
Qed.

Lemma refines_import_file fs (ps ps' : PM unit) path tok :
  refines ps ps' -> refines (import_file fs ps path tok) (import_file fs ps' path tok).
Proof.
  intros H st. unfold import_file.
  destruct (load_tokens fs path) as [toks|]; [|reflexivity].
  set (lib := set_imported_files _ _).
  assert (Hrun : refines (skip_newlines ;;; statements_loop ps)
                         (skip_newlines ;;; statements_loop ps')).
  { apply refines_pbind; [apply refines_refl|]. intros _.
    now apply refines_statements_loop. }
  specialize (Hrun lib).
  destruct ((skip_newlines ;;; statements_loop ps) lib) eqn:E; intros Hne;
    [| |contradiction]; rewrite Hrun by discriminate; reflexivity.
Qed.

Lemma parse_statement_refines fs n :
  forall m, n <= m ->
  refines (parse_statement fs n) (parse_statement fs m) /\
  refines (parse_theorem fs n) (parse_theorem fs m) /\
  refines (parse_import fs n) (parse_import fs m).
Proof.
  induction n as [|n IH]; intros m Hle.
  - repeat split; apply refines_fuel.
  - destruct m as [|m]; [lia|].
    destruct (IH m ltac:(lia)) as (Hs & Ht & Hi).
    destruct (parse_methods_refine n m ltac:(lia))
      as (Hf & _ & _ & _ & _ & _ & _ & He & _).
    pose proof (refines_parse_let _ _ He) as Hlet.
    pose proof (refines_parse_cases _ _ Hf) as Hcases.
    pose proof (fun p t => refines_import_file fs _ _ p t Hs) as Himp.
    repeat split; cbn [parse_statement parse_theorem parse_import];
      repeat refines_step.
    apply Himp.
Qed.

(** What [Parser.parse] returns or raises under one bound, it returns or
    raises under every larger one. *)
Lemma Parser_parse_bound fs n m st r :
  Parser_parse fs n st = r -> r <> PFuel -> n <= m -> Parser_parse fs m st = r.
Proof.
  intros H Hr Hle. rewrite <- H.
  assert (Href : refines (Parser_parse fs n) (Parser_parse fs m)).
  { destruct (parse_statement_refines fs n m Hle) as (Hs & _).
    unfold Parser_parse. apply refines_pbind; [apply refines_refl|]. intros _.
    apply refines_pbind; [|intros _; apply refines_refl].
    intros st0. apply refines_while; [|lia]. intros _.
    apply refines_pbind; [|intros _; apply refines_refl].
    intros st1 Hne. unfold statement_with_recovery in *.
    destruct (parse_statement fs n st1) eqn:E; [| |contradiction];
      rewrite (Hs st1) by (rewrite E; discriminate); now rewrite E. }
  apply Href. now rewrite H.
Qed.

(** * The parser: the claims *)

Lemma frame_ahead k st : frame st (ahead k st).
Proof.
  induction k as [|k IH]; [apply frame_refl|].
  eapply frame_trans; [exact IH|apply frame_advanced].
Qed.

Lemma initialiser_frame n after st_end :
  initialiser n after st_end -> frame after st_end.
Proof.
  intros [[_ ->]|[_ [e He]]]; [apply frame_refl|].
  eapply frame_trans; [apply frame_advanced|eapply parse_expr_frame; eassumption].
Qed.

Lemma declared_assumptions name ty cs st :
  assumptions (declared name ty cs st) = assumptions st ++ cs.
Proof. destruct cs; [symmetry; apply app_nil_r|reflexivity]. Qed.

Lemma declared_var_types name ty cs st :
  var_types (declared name ty cs st) = <[name := ty]> (var_types st).
Proof. destruct cs; reflexivity. Qed.

Lemma declared_errors name ty cs st :
  errors (declared name ty cs st) = errors st.
Proof. destruct cs; reflexivity. Qed.

(** C8.  A statement [let x in S] appends the relation of the set to the
    assumptions when it is parsed: [x >= 0] for [N], [x > 0] for [N+],
    [Z+], [R+] and [Q+], nothing for plain [R], [Z] and [Q].  The statement
    may carry a type annotation and an initialiser.

    The tokens ahead are [let], the name, the annotation if there is one,
    [in], the set and [+] if the set is a positive one; [after] is the
    parser behind them, and [st_end] the parser behind the initialiser. *)
Theorem let_in_set_constraint fs n st a is_positive st_end :
  types_ahead (let_tokens a (Some is_positive)) st ->
  let name := tok_value (current_tok (ahead 1 st)) in
  let set_name := tok_value (current_tok (ahead (3 + length (annotation_tokens a)) st)) in
  let after := ahead (length (let_tokens a (Some is_positive))) st in
  matches ["COLON"; "IN"; "PLUS"] after = false ->
  initialiser n after st_end ->
  exists st',
    parse_statement fs (S n) st = POk tt st' /\
    (set_name = "N" -> is_positive = false ->
     assumptions st' = assumptions st ++ [rel ">=" (var name) (num "0")]) /\
    (In set_name ["N"; "Z"; "R"; "Q"] -> is_positive = true ->
     assumptions st' = assumptions st ++ [rel ">" (var name) (num "0")]) /\
    (In set_name ["R"; "Z"; "Q"] -> is_positive = false ->
     assumptions st' = assumptions st).
Proof.
  intros Htypes name set_name after Hafter Hinit.
  eexists. split; [exact (let_statement_run fs n st a (Some is_positive) st_end Htypes Hafter Hinit)|].
  fold name set_name. rewrite declared_assumptions.
  assert (Hsame : assumptions st_end = assumptions st).
  { pose proof (frame_ahead (length (let_tokens a (Some is_positive))) st) as F1.
    pose proof (initialiser_frame _ _ _ Hinit) as F2.
    destruct (frame_trans _ _ _ F1 F2) as (_ & -> & _). reflexivity. }
  rewrite Hsame. unfold let_constraint, membership_constraint.
  repeat split.
  - intros -> ->. reflexivity.
  - intros Hin ->. cbn in Hin.
    destruct Hin as [<-|[<-|[<-|[<-|[]]]]]; reflexivity.
  - intros Hin ->. cbn in Hin.
    destruct Hin as [<-|[<-|[<-|[]]]]; cbn; apply app_nil_r.
Qed.

(** [let x in N] at the start of a source. *)
Lemma let_in_set_constraint_witness :
  exists st',
    parse_statement no_files 1 (parser_on let_in_N_source) = POk tt st' /\
    assumptions st' = [rel ">=" (var "x") (num "0")].
Proof.
  destruct (let_in_set_constraint no_files 0 (parser_on let_in_N_source)
              NoType false (ahead 4 (parser_on let_in_N_source)))
    as [st' [Hrun [HN _]]].
  - vm_compute. repeat split.
  - reflexivity.
  - left. split; reflexivity.
  - exists st'. split; [exact Hrun|]. apply HN; reflexivity.
Defined.

(** C6, as the code has it.  A [let x] statement records the type of that
    statement for [x] — the type of its set if it names one of R, Z, N, Q,
    else the type of its annotation, else [Real] — whatever type was
    recorded for [x] before, and leaves the types of the other variables
    as they are.  Parsing a formula, with whatever variables it mentions,
    changes no recorded type. *)
Theorem let_overwrites_type fs n st a m st_end :
  types_ahead (let_tokens a m) st ->
  let name := tok_value (current_tok (ahead 1 st)) in
  let set_name := tok_value (current_tok (ahead (3 + length (annotation_tokens a)) st)) in
  let after := ahead (length (let_tokens a m)) st in
  matches ["COLON"; "IN"; "PLUS"] after = false ->
  initialiser n after st_end ->
  exists st',
    parse_statement fs (S n) st = POk tt st' /\
    var_types st' !! name = Some (let_type a m set_name) /\
    (forall other, other <> name -> var_types st' !! other = var_types st !! other) /\
    (m = None -> a = NoType -> var_types st' !! name = Some "Real") /\
    (forall k st0 f st1, parse_formula k st0 = POk f st1 -> var_types st1 = var_types st0).
Proof.
  intros Htypes name set_name after Hafter Hinit.
  eexists. split; [exact (let_statement_run fs n st a m st_end Htypes Hafter Hinit)|].
  assert (Hformula : forall k st0 f st1,
             parse_formula k st0 = POk f st1 -> var_types st1 = var_types st0).
  { intros k st0 f st1 Hf.
    destruct (parse_formula_frame _ _ _ _ Hf) as (_ & _ & _ & _ & Hvt & _). exact Hvt. }
  fold name set_name. rewrite declared_var_types.
  assert (Hsame : var_types st_end = var_types st).
  { pose proof (frame_ahead (length (let_tokens a m)) st) as F1.
    pose proof (initialiser_frame _ _ _ Hinit) as F2.
    destruct (frame_trans _ _ _ F1 F2) as (_ & _ & _ & _ & -> & _). reflexivity. }
  rewrite Hsame. repeat split.
  - apply lookup_insert_eq.
  - intros other Hne. now apply lookup_insert_ne.
  - intros -> ->. apply lookup_insert_eq.
  - exact Hformula.
Qed.

(** The second statement of [let x: Int], [let x] runs in a state where
    [x] is recorded as [Int], and records [Real]. *)
Lemma let_overwrites_type_witness :
  var_types retyped_st !! "x" = Some "Int" /\
  exists st', parse_statement no_files 1 retyped_st = POk tt st' /\
              var_types st' !! "x" = Some "Real".
Proof.
  split; [reflexivity|].
  destruct (let_overwrites_type no_files 0 retyped_st NoType None (ahead 2 retyped_st))
    as [st' [Hrun [_ [_ [Hreal _]]]]].
  - vm_compute. repeat split.
  - reflexivity.
  - left. split; reflexivity.
  - exists st'. split; [exact Hrun|]. apply Hreal; reflexivity.
Defined.

(** C6, as stated, fails: the first declared type of [x] is [Int], and
    after a second, bare [let x] the type recorded is [Real]. *)
Lemma later_let_changes_type :
  exists u1 u2,
    parse no_files 30 ("let x: Int" // "prove x > 0") "." = ParsedUnit u1 /\
    pu_var_types u1 !! "x" = Some "Int" /\
    parse no_files 30 retyped_source "." = ParsedUnit u2 /\
    pu_var_types u2 !! "x" = Some "Real".
Proof.
  do 2 eexists. split; [vm_compute; reflexivity|].
  split; [vm_compute; reflexivity|].
  split; [vm_compute; reflexivity|vm_compute; reflexivity].
Qed.

(** C7, as the code has it.  A [prove] statement sets the claim to its
    formula whatever the claim was before, and the statement loop records
    no error for it. *)
Theorem prove_replaces_claim fs n st f st1 :
  tok_type (current_tok st) = "PROVE" ->
  parse_formula n (advanced st) = POk f st1 ->
  exists st',
    statement_with_recovery fs (S n) st = POk tt st' /\
    claim st' = Some f /\
    errors st' = errors st.
Proof.
  intros Htok Hf. exists (set_claim (Some f) st1).
  assert (Hrun : parse_statement fs (S n) st = POk tt (set_claim (Some f) st1)).
  { cbn [parse_statement]. repeat step. unfold pbind. rewrite Hf. reflexivity. }
  unfold statement_with_recovery. rewrite Hrun. repeat split.
  pose proof (parse_formula_frame _ _ _ _ Hf) as F.
  destruct (frame_trans _ _ _ (frame_advanced st) F) as (_&_&_&_&_&_&_&_&He).
  exact He.
Qed.

(** The second [prove] of [two_proves_source] runs in a state that has
    the claim [x > 0], and leaves the claim [x > 1]. *)
Lemma prove_replaces_claim_witness :
  claim two_proves_st = Some (rel ">" (var "x") (num "0")) /\
  exists st',
    statement_with_recovery no_files 20 two_proves_st = POk tt st' /\
    claim st' = Some (rel ">" (var "x") (num "1")) /\ errors st' = [].
Proof.
  split; [reflexivity|].
  refine (prove_replaces_claim no_files 19 two_proves_st (rel ">" (var "x") (num "1"))
            (state_after (parse_formula 19 (advanced two_proves_st)) two_proves_st) _ _);
    vm_compute; reflexivity.
Defined.

(** C7, as stated, fails: a source with two [prove] statements parses
    without error, and its claim is the second one. *)
Lemma duplicate_prove_accepted :
  exists u,
    parse no_files 30 two_proves_source "." = ParsedUnit u /\
    pu_claim u = rel ">" (var "x") (num "1").
Proof. eexists. split; vm_compute; reflexivity. Qed.



(** * The driver and the translator: the claims *)

Section driver_claims.
Context {Model : Type}.
Variable check : list z3.expr -> check_result Model.
Variable eval_str : Model -> z3.expr -> string.
Variable var_types : gmap string json.

(** C1.  The verdict on the claim is the solver's answer to the live
    assumptions together with the negated claim: [unsat] gives
    [proven] with [ok] true and no model; [sat] gives [disproven] with
    [ok] false and a model that has a value text for every declared
    variable; [unknown] gives [unknown]. *)
Theorem final_verdict assumptions claim declared_vars steps
  env step_results live zs env0 claim_z3 env1 :
  declare var_types declared_vars [] = Ok env ->
  steps_loop check eval_str var_types env 0 steps [] assumptions = Ok (step_results, live) ->
  map_args (formula_to_z3 var_types) live env = Ok (zs, env0) ->
  formula_to_z3 var_types claim env0 = Ok (claim_z3, env1) ->
  let query := zs ++ [z3.Not claim_z3] in
  let r := prove check eval_str var_types assumptions claim declared_vars steps in
  (check query = unsat ->
   ok r = true /\ status r = "proven" /\ model r = None) /\
  (forall m, check query = sat m -> string_keys env1 = true ->
   ok r = false /\ status r = "disproven" /\
   model r = Some (model_out eval_str m env1) /\
   forall name k, In name declared_vars -> hash_key name = Ok k ->
                  In (k, eval_str m (mk_const var_types k)) (model_out eval_str m env1)) /\
  (check query = unknown ->
   ok r = false /\ status r = "unknown" /\ model r = None).
Proof.
  intros Hdecl Hsteps Hlive Hclaim query r.
  assert (Hq : final_query var_types env live claim = Ok (query, env1)).
  { unfold final_query. rewrite Hlive. cbn [bind]. rewrite Hclaim. reflexivity. }
  subst r. unfold prove, prove_body.
  rewrite Hdecl. cbn [bind]. rewrite Hsteps. cbn [bind]. rewrite Hq. cbn [bind].
  unfold run_check. split; [|split].
  - intros ->. repeat split.
  - intros m -> Hkeys. cbn [bind]. unfold format_counterexample.
    destruct (sorted_items_strings _ Hkeys) as [l [-> _]]. cbn [bind].
    repeat split.
    intros name k Hin Hk. apply model_out_In.
    eapply extends_keeps; [eapply final_query_extends; exact Hq|].
    eapply declare_lookup; eassumption.
  - intros ->. repeat split.
Qed.

(** C3.  A step with a single formula [F] is checked by the query of the
    live assumptions and the negation of [F].  On [unsat] the step is
    recorded as proven ([ok] true, status [proven]) and the loop goes on
    with [F] appended to the live assumptions; on [sat] it is recorded as
    disproven ([ok] false, status [disproven]) with the model, on
    [unknown] as unknown ([ok] false, status [unknown]), and the loop
    goes on with the live assumptions as they were.  The recorded result
    carries the number [i + 1] of the step and nothing else. *)
Theorem single_formula_step env i d F rest step_results live zs g :
  str_is (dict_get d "type") "cases" = false ->
  dict_get d "formula" = F ->
  is_none F = false ->
  translate_all_copy var_types env live = Ok zs ->
  translate_copy var_types env F = Ok g ->
  let query := zs ++ [z3.Not g] in
  let loop := steps_loop check eval_str var_types env in
  (check query = unsat ->
   loop i (JObj d :: rest) step_results live =
   loop (S i) rest
     (step_results ++
      [{| sr_step := i + 1; sr_type := None; sr_ok := true;
          sr_status := Some "proven"; sr_model := None; sr_error := None;
          sr_message := None; sr_case_results := None |}])
     (live ++ [F])) /\
  (forall m, check query = sat m ->
   loop i (JObj d :: rest) step_results live =
   loop (S i) rest
     (step_results ++
      [{| sr_step := i + 1; sr_type := None; sr_ok := false;
          sr_status := Some "disproven";
          sr_model := Some (model_out eval_str m env);
          sr_error := None; sr_message := None; sr_case_results := None |}])
     live) /\
  (check query = unknown ->
   loop i (JObj d :: rest) step_results live =
   loop (S i) rest
     (step_results ++
      [{| sr_step := i + 1; sr_type := None; sr_ok := false;
          sr_status := Some "unknown"; sr_model := None; sr_error := None;
          sr_message := None; sr_case_results := None |}])
     live).
Proof.
  intros Hty HF Hnone Hzs Hg query loop. subst loop.
  assert (Hstep : step_once check eval_str var_types env i (JObj d) step_results live =
                  formula_step check eval_str var_types env i F step_results live).
  { unfold step_once. cbn [as_dict bind]. now rewrite Hty, HF, Hnone. }
  assert (Hq : step_query var_types env live F = Ok query).
  { unfold step_query. rewrite Hzs. cbn [bind]. rewrite Hg. reflexivity. }
  cbn [steps_loop]. rewrite Hstep. unfold formula_step. rewrite Hq. cbn [bind].
  unfold run_check. split; [|split].
  - intros ->. reflexivity.
  - intros m ->. reflexivity.
  - intros ->. reflexivity.
Qed.

(** C5, as the code has it.  A step whose formula is a malformed AST node
    makes the translator raise, and the exception ends the whole unit:
    the result has [ok] false and status [error], carries an error
    message and no step results.  This holds wherever the step stands
    among the steps.  Only a step that has no formula at all is reported
    in the step results, with [ok] false and the error [Step missing
    formula] (and no status), and the loop goes on with the live
    assumptions as they were. *)
Theorem malformed_step_aborts :
  (forall assumptions claim declared_vars pre d post F,
      str_is (dict_get d "type") "cases" = false ->
      dict_get d "formula" = F ->
      is_none F = false ->
      (forall env, exists e, formula_to_z3 var_types F env = Raise e) ->
      exists e,
        let r := prove check eval_str var_types assumptions claim declared_vars
                   (pre ++ JObj d :: post) in
        r = error_response e /\
        ok r = false /\ status r = "error" /\ is_Some (error r) /\
        model r = None /\ step_results r = None) /\
  (forall env i d rest step_results live,
      str_is (dict_get d "type") "cases" = false ->
      is_none (dict_get d "formula") = true ->
      steps_loop check eval_str var_types env i (JObj d :: rest) step_results live =
      steps_loop check eval_str var_types env (S i) rest
        (step_results ++
         [{| sr_step := i + 1; sr_type := None; sr_ok := false;
             sr_status := None; sr_model := None;
             sr_error := Some "Step missing formula";
             sr_message := None; sr_case_results := None |}])
        live).
Proof.
  split.
  - intros assumptions claim declared_vars pre d post F Hty HF Hnone Hbad.
    assert (Hbody : exists e,
      prove_body check eval_str var_types assumptions claim declared_vars
        (pre ++ JObj d :: post) = Raise e).
    { unfold prove_body.
      destruct (declare var_types declared_vars []) as [env|e]; cbn [bind]; [|eauto].
      rewrite steps_loop_app.
      destruct (steps_loop check eval_str var_types env 0 pre [] assumptions)
        as [[sr live]|e]; cbn [bind]; [|eauto].
      cbn [steps_loop]. unfold step_once. cbn [as_dict bind].
      rewrite Hty, HF, Hnone. unfold formula_step, step_query.
      destruct (translate_all_copy var_types env live) as [zs|e]; cbn [bind]; [|eauto].
      unfold translate_copy. destruct (Hbad env) as [e ->]. cbn [bind]. eauto. }
    destruct Hbody as [e He]. exists e. cbv zeta.
    rewrite (prove_raise _ _ _ _ _ _ _ _ He). now repeat split.
  - intros env i d rest sr live Hty Hnone.
    cbn [steps_loop]. unfold step_once. cbn [as_dict bind].
    now rewrite Hty, Hnone.
Qed.

(** C10.  [prove] always returns a record, whose status is one of
    [proven], [disproven], [unknown] and [error], with [ok] true for
    [proven] alone; and every exception raised inside it, of the
    translator or any other, comes out as a record with [ok] false,
    status [error] and an error message. *)
Theorem prove_total assumptions claim declared_vars steps :
  let r := prove check eval_str var_types assumptions claim declared_vars steps in
  ((status r = "proven" /\ ok r = true) \/
   (status r = "disproven" /\ ok r = false) \/
   (status r = "unknown" /\ ok r = false) \/
   (status r = "error" /\ ok r = false /\ is_Some (error r))) /\
  (forall e,
      prove_body check eval_str var_types assumptions claim declared_vars steps = Raise e ->
      r = error_response e).
Proof.
  intros r. split; [|intros e He; now apply prove_raise].
  subst r. unfold prove.
  destruct (prove_body check eval_str var_types assumptions claim declared_vars steps)
    as [r|e] eqn:Hbody.
  - unfold prove_body in Hbody.
    bind_ok Hbody. bind_ok Hbody. split_pair. bind_ok Hbody. split_pair.
    bind_ok Hbody. destruct a0.
    + bind_ok Hbody. injection Hbody as <-. right; left. split; reflexivity.
    + injection Hbody as <-. left. split; reflexivity.
    + injection Hbody as <-. right; right; left. split; reflexivity.
    + injection Hbody as <-. right; right; left. split; reflexivity.
  - right; right; right. destruct e; cbn; eauto.
Qed.

End driver_claims.

(** [assume x > 0], [prove x > 10], with the counterexample [x = 1]. *)
Lemma final_verdict_witness :
  let r := prove small_solver table_eval ∅ [x_positive] (rel ">" x_var (num "10")) [JStr "x"] [] in
  ok r = false /\ status r = "disproven" /\ model r = Some [(KStr "x", "1")] /\
  In (KStr "x", "1") (model_out table_eval [(x_const, "1")] [(KStr "x", x_const)]).
Proof.
  assert (H1 : declare ∅ [JStr "x"] [] = Ok [(KStr "x", x_const)]) by (vm_compute; reflexivity).
  assert (H2 : steps_loop small_solver table_eval ∅ [(KStr "x", x_const)] 0 [] [] [x_positive] =
               Ok ([], [x_positive])) by reflexivity.
  assert (H3 : map_args (formula_to_z3 ∅) [x_positive] [(KStr "x", x_const)] =
               Ok ([z3.Gt x_const zero_val], [(KStr "x", x_const)])) by (vm_compute; reflexivity).
  assert (H4 : formula_to_z3 ∅ (rel ">" x_var (num "10")) [(KStr "x", x_const)] =
               Ok (z3.Gt x_const ten_val, [(KStr "x", x_const)])) by (vm_compute; reflexivity).
  destruct (final_verdict small_solver table_eval ∅ [x_positive] (rel ">" x_var (num "10"))
              [JStr "x"] [] [(KStr "x", x_const)] [] [x_positive] [z3.Gt x_const zero_val]
              [(KStr "x", x_const)] (z3.Gt x_const ten_val) [(KStr "x", x_const)] H1 H2 H3 H4) as [_ [Hsat _]].
  destruct (Hsat [(x_const, "1")]) as [Hok [Hstatus [Hmodel Hvars]]];
    [vm_compute; reflexivity|reflexivity|].
  cbv zeta. repeat split; try assumption.
  exact (Hvars (JStr "x") (KStr "x") (or_introl eq_refl) eq_refl).
Defined.

(** [assume x > 0], [have x >= 0]: the step is proven and joins the live
    assumptions. *)
Lemma single_formula_step_witness :
  steps_loop helped_solver table_eval ∅ [(KStr "x", x_const)] 0 [formula_item x_nonnegative] [] [x_positive] =
  Ok ([{| sr_step := 1; sr_type := None; sr_ok := true;
          sr_status := Some "proven"; sr_model := None; sr_error := None;
          sr_message := None; sr_case_results := None |}],
      [x_positive; x_nonnegative]).
Proof.
  refine (proj1 (single_formula_step helped_solver table_eval ∅ [(KStr "x", x_const)] 0
                   [("formula", x_nonnegative)] x_nonnegative [] [] [x_positive]
                   [z3.Gt x_const zero_val] (z3.Ge x_const zero_val) _ _ _ _ _) _);
    vm_compute; reflexivity.
Defined.

(** A well-formed step followed by one of an unknown type; and a step
    without a formula. *)
Lemma malformed_step_aborts_witness :
  (exists e,
      let r := prove yes_solver table_eval ∅ [] x_positive [JStr "x"]
                 ([formula_item x_positive] ++ formula_item bogus :: []) in
      r = error_response e /\
      ok r = false /\ status r = "error" /\ is_Some (error r) /\
      model r = None /\ step_results r = None) /\
  steps_loop yes_solver table_eval ∅ [(KStr "x", x_const)] 0 [JObj []] [] [] =
  Ok ([{| sr_step := 1; sr_type := None; sr_ok := false;
          sr_status := None; sr_model := None;
          sr_error := Some "Step missing formula";
          sr_message := None; sr_case_results := None |}], []).
Proof.
  destruct (malformed_step_aborts yes_solver table_eval ∅) as [Habort Hmissing].
  split.
  - refine (Habort [] x_positive [JStr "x"]
              [formula_item x_positive] [("formula", bogus)] [] bogus _ _ _ _);
      try reflexivity.
    intros env. eexists. reflexivity.
  - exact (Hmissing [(KStr "x", x_const)] 0 [] [] [] [] eq_refl eq_refl).
Defined.

(** C5, as stated, fails: with a solver that would prove every query, the
    malformed second step is not reported in a step-result array and no
    verdict on the claim is produced; the whole unit ends with status
    [error], and the result of the first step is lost with it. *)
Lemma malformed_step_poisons_unit :
  (exists e, formula_to_z3 ∅ bogus [(KStr "x", x_const)] = Raise e) /\
  prove yes_solver table_eval ∅ [] x_positive [JStr "x"]
    [formula_item x_positive; formula_item bogus] =
  {| ok := false; status := "error"; model := None; message := None;
     error := Some "Unknown formula type"; step_results := None |}.
Proof. split; [eexists|]; vm_compute; reflexivity. Qed.

(** [test_invalid_input] of [test_prover.py]: the claim [{}]. *)
Lemma prove_total_witness :
  prove yes_solver table_eval ∅ [] (JObj []) [] [] =
  error_response (FormulaError "Formula missing 'type' field").
Proof.
  refine (proj2 (prove_total yes_solver table_eval ∅ [] (JObj []) [] [])
            (FormulaError "Formula missing 'type' field") _).
  vm_compute. reflexivity.
Defined.





(** C4, as the code has it.  Translating a quantified formula assigns, in
    the environment it is given, every bound name to the solver constant
    of that name, [Int] when [var_types] has ['Int'] for the name and
    [Real] otherwise, and the assignment is still there when the
    translator returns.  No name leaves the
    environment, and a name that was mapped to its own constant before —
    as every name is in the environments the driver builds — is mapped to
    it afterwards. *)
Theorem quantifier_binding_persists vt d env e env' :
  str_is (dict_get d "type") "forall" = true \/
  str_is (dict_get d "type") "exists" = true ->
  formula_to_z3 vt (JObj d) env = Ok (e, env') ->
  (exists names,
      py_iter (dict_get_list d "vars") = Ok names /\
      forall name k, In name names -> hash_key name = Ok k ->
                     exists c, env_lookup k env' = Some c /\ typed_constant vt k c) /\
  (forall k c, env_lookup k env = Some c -> typed_constant vt k c ->
               env_lookup k env' = Some c) /\
  (forall k, is_Some (env_lookup k env) -> is_Some (env_lookup k env')).
Proof.
  intros Hq H.
  pose proof (formula_to_z3_extends vt (JObj d) env e env' H) as Hext.
  split; [|split].
  2:{ intros k c Hk Hc. rewrite (typed_constant_mk _ _ _ Hc) in *.
      eapply extends_keeps; eassumption. }
  2:{ intros k Hk. eapply extends_has; eassumption. }
  assert (Hrun : exists mk b,
    assoc "body" d = Some b /\
    (let* names := py_iter (dict_get_list d "vars") in
     let* (quant_vars, env1) := bind_vars vt names [] env in
     let* (body, env2) := formula_to_z3 vt b env1 in
     Ok (mk quant_vars body : z3.expr, env2)) = Ok (e, env')).
  { cbn [formula_to_z3] in H. rewrite !on_field_assoc in H.
    destruct (dict_get d "type") as [| | |ty| |]; cbn in Hq;
      try (destruct Hq; discriminate).
    destruct Hq as [Hq|Hq]; apply String.eqb_eq in Hq; subst ty; cbn in H;
      (destruct (truthy (dict_get_list d "vars")); [|discriminate]); cbn in H;
      (destruct (assoc "body" d) as [b|]; [|discriminate]);
      eauto. }
  destruct Hrun as (mk & b & _ & Hrun).
  bind_ok Hrun. exists a. split; [reflexivity|].
  bind_ok Hrun. split_pair. bind_ok Hrun. split_pair. injection Hrun as _ <-.
  intros name k Hin Hk.
  exists (mk_const vt k). split; [|apply mk_const_typed].
  eapply extends_keeps; [eapply formula_to_z3_extends; eassumption|].
  eapply bind_vars_lookup; eassumption.
Qed.

(** [forall n x. n = x] in the empty environment, with [n] of type
    [Int]: [n] is left mapped to the integer constant, [x] to the real
    one. *)
Lemma quantifier_binding_persists_witness :
  let vt : gmap string json := {["n" := JStr "Int"]} in
  let n := z3.Int (KStr "n") in
  let env' := [(KStr "n", n); (KStr "x", x_const)] in
  formula_to_z3 vt (quantified "forall" ["n"; "x"] (rel "=" (var "n") x_var)) [] =
    Ok (z3.ForAll [n; x_const] (z3.Eq n x_const), env') /\
  (exists c, env_lookup (KStr "n") env' = Some c /\ typed_constant vt (KStr "n") c) /\
  (exists c, env_lookup (KStr "x") env' = Some c /\ typed_constant vt (KStr "x") c) /\
  env_lookup (KStr "n") env' = Some (z3.Int (KStr "n")) /\
  env_lookup (KStr "x") env' = Some (z3.Real (KStr "x")).
Proof.
  intros vt n env'.
  assert (H : formula_to_z3 vt (quantified "forall" ["n"; "x"] (rel "=" (var "n") x_var)) [] =
              Ok (z3.ForAll [n; x_const] (z3.Eq n x_const), env')) by (vm_compute; reflexivity).
  split; [exact H|].
  destruct (quantifier_binding_persists vt
              [("type", JStr "forall"); ("vars", JArr [JStr "n"; JStr "x"]);
               ("body", rel "=" (var "n") x_var)]
              [] _ _ (or_introl eq_refl) H)
    as [[names [Hnames Hbound]] _].
  injection Hnames as <-.
  split; [|split; [|split; reflexivity]].
  - exact (Hbound (JStr "n") (KStr "n") (or_introl eq_refl) eq_refl).
  - exact (Hbound (JStr "x") (KStr "x") (or_intror (or_introl eq_refl)) eq_refl).
Defined.

(** C4, as stated, fails.  In an environment without [x], as the driver
    has it for a unit that declares nothing, translating [forall x. x = x]
    leaves [x] mapped; and a constant [x] of another sort, which a caller
    of the translator may have in the environment, is replaced. *)
Lemma quantifier_changes_env :
  (exists e env',
      formula_to_z3 ∅ reflexive [] = Ok (e, env') /\
      env_lookup (KStr "x") [] = None /\
      env_lookup (KStr "x") env' = Some (z3.Real (KStr "x"))) /\
  (exists e env',
      formula_to_z3 ∅ reflexive [(KStr "x", z3.Int (KStr "x"))] = Ok (e, env') /\
      env_lookup (KStr "x") env' = Some (z3.Real (KStr "x"))).
Proof.
  split; do 2 eexists; repeat split; vm_compute; reflexivity.
Qed.

(** * Further facts: the translator, the driver, the lexer and the parser *)

#[local] Set Warnings "-clear-no-such-hyp".

(** ** Terms: a name keeps its constant *)

Lemma agrees_refl env : agrees env env.
Proof. intros k v H. exact H. Qed.

Lemma agrees_trans e1 e2 e3 : agrees e1 e2 -> agrees e2 e3 -> agrees e1 e3.
Proof. intros H12 H23 k v H. apply H23, H12, H. Qed.

Lemma agrees_set_new k v env :
  env_lookup k env = None -> agrees env (env_set k v env).
Proof.
  intros Hnone k' v' H'. rewrite env_lookup_set_other; [exact H'|].
  intros ->. congruence.
Qed.

Lemma fold_rest_settled (term : json -> Tr) cmp (rest : list json) :
  Forall (fun t => settled (term t)) rest ->
  forall result, settled (fold_rest term cmp rest result).
Proof.
  induction 1 as [|t rest Ht _ IH]; simpl; intros result env e env1 H.
  - injection H as <- <-. split; [apply agrees_refl|reflexivity].
  - bind_ok H. split_pair.
    destruct (Ht _ _ _ E) as [H01 Hagain].
    destruct (IH _ _ _ _ H) as [H12 Hrest].
    split; [eapply agrees_trans; eassumption|].
    intros env2 H2.
    rewrite (Hagain env2) by (eapply agrees_trans; eassumption). cbn [bind].
    now apply Hrest.
Qed.

Lemma fold_args_settled (term : json -> Tr) cmp what (l : list json) :
  Forall (fun t => settled (term t)) l -> settled (fold_args term cmp what l).
Proof.
  intros HF env e env1 H. unfold fold_args in *.
  destruct (length l <? 2)%nat; [discriminate|].
  destruct l as [|a0 rest]; [discriminate|].
  apply List.Forall_cons_iff in HF as [Ha Hrest].
  bind_ok H. split_pair.
  destruct (Ha _ _ _ E) as [H01 Hagain].
  destruct (fold_rest_settled term cmp rest Hrest _ _ _ _ H) as [H12 Hfold].
  split; [eapply agrees_trans; eassumption|].
  intros env2 H2.
  rewrite (Hagain env2) by (eapply agrees_trans; eassumption). cbn [bind].
  now apply Hfold.
Qed.

(** The step of the proofs below for a term with one child. *)
Lemma settled_unary (tr : Tr) (mk : z3.expr -> z3.expr) :
  settled tr ->
  settled (fun env => let* (x, env1) := tr env in Ok (mk x, env1)).
Proof.
  intros Htr env e env1 H. bind_ok H. split_pair. injection H as <- <-.
  destruct (Htr _ _ _ E) as [H01 Hagain]. split; [assumption|].
  intros env2 H2. now rewrite (Hagain env2 H2).
Qed.

(** Brings the goal to the child that a hypothesis has already named. *)
Ltac to_child :=
  repeat first
    [ rewrite on_field_assoc
    | match goal with
      | E : assoc ?k ?d = _ |- context [assoc ?k ?d] => rewrite E
      end ].

Lemma term_to_z3_settled vt (t : json) : settled (term_to_z3 vt t).
Proof.
  induction t as [| | | |l|d IH IHelts] using json_tree_ind;
    try (intros env e env1 H; discriminate H).
  intros env e env1 H.
  cbn [term_to_z3] in *. rewrite !on_field_assoc in *.
  repeat match type of H with
         | (if ?c then _ else _) = _ => destruct c eqn:?
         | Raise _ = _ => discriminate H
         end.
  - injection H as <- <-. split; [apply agrees_refl|reflexivity].
  - bind_ok H. destruct (env_lookup a env) eqn:El.
    + injection H as <- <-. split; [apply agrees_refl|].
      intros env2 H2. cbn [bind]. now rewrite (H2 _ _ El).
    + injection H as <- <-. split; [now apply agrees_set_new|].
      intros env2 H2. cbn [bind].
      now rewrite (H2 _ _ (env_lookup_set_same _ _ _)).
  - destruct (assoc "lhs" d) as [lhs|] eqn:El; [|discriminate].
    rewrite on_field_assoc in *.
    destruct (assoc "rhs" d) as [rhs|] eqn:Er; [|discriminate].
    child_IH IH El IHl. child_IH IH Er IHr.
    bind_ok H. split_pair. bind_ok H. split_pair.
    destruct (IHl _ _ _ E) as [H01 Again1]. destruct (IHr _ _ _ E0) as [H12 Again2].
    assert (agrees env e3) by (eapply agrees_trans; eassumption).
    repeat match type of H with
           | (if ?c then _ else _) = _ => destruct c
           | Ok _ = Ok _ => injection H as <- <-
           | Raise _ = _ => discriminate H
           end;
      (split; [assumption|]; intros env2 H2; to_child;
       rewrite (Again1 env2) by (eapply agrees_trans; eassumption); cbn [bind];
       now rewrite (Again2 env2 H2)).
  - destruct (assoc "arg" d) as [arg|] eqn:Ea; [|discriminate].
    child_IH IH Ea IHa.
    destruct (settled_unary _ (fun x => z3.If (z3.Ge x (z3.PyInt 0)) x (z3.Neg x)) IHa env e env1 H)
      as [H01 Again].
    split; [assumption|]. intros env2 H2. to_child. now apply Again.
  - destruct (assoc "arg" d) as [arg|] eqn:Ea; [|discriminate].
    child_IH IH Ea IHa.
    destruct (settled_unary _ z3.Neg IHa env e env1 H) as [H01 Again].
    split; [assumption|]. intros env2 H2. to_child. now apply Again.
  - destruct (assoc "base" d) as [base|] eqn:Eb; [|discriminate].
    rewrite on_field_assoc in *.
    destruct (assoc "exp" d) as [ex|] eqn:Ee; [|discriminate].
    child_IH IH Eb IHb. child_IH IH Ee IHe.
    bind_ok H. split_pair. bind_ok H. split_pair. injection H as <- <-.
    destruct (IHb _ _ _ E) as [H01 Again1]. destruct (IHe _ _ _ E0) as [H12 Again2].
    split; [eapply agrees_trans; eassumption|]. intros env2 H2. to_child.
    rewrite (Again1 env2) by (eapply agrees_trans; eassumption). cbn [bind].
    now rewrite (Again2 env2 H2).
  - destruct (assoc "arg" d) as [arg|] eqn:Ea; [|discriminate].
    child_IH IH Ea IHa.
    destruct (settled_unary _ (fun x => z3.Pow x (z3.RealVal (JStr "0.5"))) IHa env e env1 H)
      as [H01 Again].
    split; [assumption|]. intros env2 H2. to_child. now apply Again.
  - destruct (assoc "args" d) as [args|] eqn:Ea; [|discriminate].
    destruct args; try (now apply fold_args_other_raises in H).
    destruct (fold_args_settled _ _ _ _ (IHelts _ _ Ea) env e env1 H) as [H01 Again].
    split; [assumption|]. intros env2 H2. to_child. now apply Again.
  - destruct (assoc "args" d) as [args|] eqn:Ea; [|discriminate].
    destruct args; try (now apply fold_args_other_raises in H).
    destruct (fold_args_settled _ _ _ _ (IHelts _ _ Ea) env e env1 H) as [H01 Again].
    split; [assumption|]. intros env2 H2. to_child. now apply Again.
Qed.

(** X1.  Inside a term a name always stands for one and the same
    constant.  A translation of a term gives no name of the environment
    another constant; and the same term, translated again in the
    environment the translation left, or in any that agrees with it,
    gives the same expression and leaves that environment as it is. *)
Theorem term_constants_reused vt t env e env1 :
  term_to_z3 vt t env = Ok (e, env1) ->
  agrees env env1 /\
  term_to_z3 vt t env1 = Ok (e, env1) /\
  forall env2, agrees env1 env2 -> term_to_z3 vt t env2 = Ok (e, env2).
Proof.
  intros H. destruct (term_to_z3_settled vt t env e env1 H) as [Hagrees Hagain].
  repeat split; [exact Hagrees| |exact Hagain]. apply Hagain, agrees_refl.
Qed.

(** ** Sorting the items of the environment *)

Lemma key_lt_asym a b : key_lt a b = Ok true -> key_lt b a = Ok false.
Proof.
  destruct a as [|x|x], b as [|y|y]; cbn; try discriminate; intros [= H]; f_equal.
  - apply Z.ltb_lt in H. apply Z.ltb_ge. lia.
  - unfold String.ltb in *. rewrite String.compare_antisym.
    destruct (String.compare x y); try discriminate. reflexivity.
Qed.

Lemma insert_item_perm x l l' : insert_item x l = Ok l' -> Permutation (x :: l) l'.
Proof.
  revert l'. induction l as [|y rest IH]; cbn [insert_item]; intros l' H.
  - injection H as <-. reflexivity.
  - bind_ok H. destruct a.
    + injection H as <-. reflexivity.
    + bind_ok H. injection H as <-.
      rewrite Permutation_swap. constructor. now apply IH.
Qed.

Lemma sorted_items_perm env l : sorted_items env = Ok l -> Permutation env l.
Proof.
  revert l. induction env as [|x rest IH]; cbn [sorted_items]; intros l H.
  - injection H as <-. reflexivity.
  - bind_ok H. rewrite <- (insert_item_perm _ _ _ H). constructor. now apply IH.
Qed.

Lemma insert_item_sorted x l l' :
  Sorted not_after l -> insert_item x l = Ok l' -> Sorted not_after l'.
Proof.
  revert l'. induction l as [|y rest IH]; cbn [insert_item]; intros l' Hs H.
  - injection H as <-. repeat constructor.
  - bind_ok H. destruct a.
    + injection H as <-. constructor; [assumption|]. constructor.
      now apply key_lt_asym.
    + bind_ok H. injection H as <-.
      apply Sorted_inv in Hs as [Hrest Hhd].
      constructor; [now apply IH|].
      destruct rest as [|z rest']; cbn [insert_item] in E0.
      * injection E0 as <-. constructor. exact E.
      * destruct (key_lt (fst x) (fst z)) as [[|]|]; cbn [bind] in E0; [| |discriminate].
        -- injection E0 as <-. constructor. exact E.
        -- destruct (insert_item x rest') as [r|]; cbn [bind] in E0; [|discriminate].
           injection E0 as <-. constructor. now inversion Hhd.
Qed.

Lemma sorted_items_sorted env l : sorted_items env = Ok l -> Sorted not_after l.
Proof.
  revert l. induction env as [|x rest IH]; cbn [sorted_items]; intros l H.
  - injection H as <-. constructor.
  - bind_ok H. eapply insert_item_sorted; [|eassumption]. now apply IH.
Qed.

Lemma int_keys_perm l l' : Permutation l l' -> int_keys l = int_keys l'.
Proof.
  unfold int_keys. induction 1; cbn; try congruence.
  now rewrite !andb_assoc, (andb_comm (match fst y with KInt _ => true | _ => false end)).
Qed.

Lemma insert_item_ints x l :
  int_keys (x :: l) = true -> exists l', insert_item x l = Ok l'.
Proof.
  induction l as [|y rest IH]; intros H.
  - exists [x]. reflexivity.
  - cbn [insert_item]. cbn in H.
    destruct x as [[|kx|] vx]; try discriminate.
    destruct y as [[|ky|] vy]; try discriminate.
    cbn. destruct (Z.ltb kx ky).
    + eexists. reflexivity.
    + destruct IH as [l' El']; [exact H|].
      cbn in El'. rewrite El'. cbn. eexists. reflexivity.
Qed.

Lemma sorted_items_ints env :
  int_keys env = true -> exists l, sorted_items env = Ok l.
Proof.
  induction env as [|x rest IH]; intros H.
  - exists []. reflexivity.
  - pose proof H as Hall. cbn in H. apply andb_true_iff in H as [Hx Hrest].
    destruct (IH Hrest) as [l El]. cbn [sorted_items]. rewrite El. cbn [bind].
    apply insert_item_ints.
    rewrite <- (int_keys_perm (x :: rest) (x :: l)); [exact Hall|].
    constructor. now apply sorted_items_perm.
Qed.

(** When the sort goes through, the names are of one kind, or there is
    one name at most. *)
Lemma sorted_items_one_kind env l :
  sorted_items env = Ok l ->
  length env <= 1 \/ string_keys env = true \/ int_keys env = true.
Proof.
  revert l. induction env as [|x rest IH]; intros l H.
  - left. cbn. lia.
  - cbn [sorted_items] in H. bind_ok H.
    pose proof (sorted_items_perm _ _ E) as Hperm.
    destruct a as [|y rest'].
    + apply Permutation_nil_r in Hperm. subst rest. left. cbn. lia.
    + right. cbn [insert_item] in H. bind_ok H.
      assert (Hy : In y rest) by (rewrite Hperm; now left).
      destruct (IH _ eq_refl) as [Hlen|[Hs|Hi]].
      * destruct rest as [|y' [|]]; cbn in Hlen; try lia; [contradiction|].
        destruct Hy as [->|[]].
        destruct x as [[|kx|kx] vx], y as [[|ky|ky] vy]; try discriminate E0;
          [right|left]; reflexivity.
      * left. unfold string_keys in *. cbn [forallb]. rewrite Hs, andb_true_r.
        rewrite forallb_forall in Hs. specialize (Hs _ Hy).
        destruct x as [[|kx|kx] vx], y as [[|ky|ky] vy]; try discriminate; reflexivity.
      * right. unfold int_keys in *. cbn [forallb]. rewrite Hi, andb_true_r.
        rewrite forallb_forall in Hi. specialize (Hi _ Hy).
        destruct x as [[|kx|kx] vx], y as [[|ky|ky] vy]; try discriminate; reflexivity.
Qed.

(** X3.  The counterexample text lists the items of the environment
    in the order of their names: what [sorted] hands to the loop of
    [format_counterexample] holds the same items, each as often, and no
    item in it is followed by one with a smaller name. *)
Theorem counterexample_in_name_order env items :
  sorted_items env = Ok items ->
  Permutation env items /\ Sorted not_after items.
Proof.
  intros H. split; [now apply sorted_items_perm|now apply (sorted_items_sorted env)].
Qed.

(** X4.  [format_counterexample] goes through exactly when the
    names of the environment can be compared: when there is one name at
    most, or all names are strings, or all are numbers.  With names of
    both kinds (or the name [None] beside another) the sort raises
    [TypeError]. *)
Theorem counterexample_needs_one_kind {Model : Type}
  (eval_str : Model -> z3.expr -> string) (m : Model) (env : Env) :
  (exists text, format_counterexample eval_str m env = Ok text) <->
  (length env <= 1 \/ string_keys env = true \/ int_keys env = true).
Proof.
  unfold format_counterexample. split.
  - intros [text H]. destruct (sorted_items env) as [items|] eqn:E; [|discriminate H].
    exact (sorted_items_one_kind env items E).
  - intros [Hlen|[Hs|Hi]].
    + destruct env as [|x [|y env]]; cbn in Hlen; try lia; cbn; eauto.
    + destruct (sorted_items_strings env Hs) as [l [-> _]]. cbn. eauto.
    + destruct (sorted_items_ints env Hi) as [l ->]. cbn. eauto.
Qed.

(** ** The step loop: what a turn can do *)

Section step_loop_facts.
Context {Model : Type}.
Variable check : list z3.expr -> check_result Model.
Variable eval_str : Model -> z3.expr -> string.
Variable var_types : gmap string json.

Lemma cases_step_turn env i d sr live sr' live' :
  cases_step check var_types env i d sr live = Ok (sr', live') ->
  live' = live /\
  (sr' = sr \/
   exists r, sr' = sr ++ [r] /\ sr_step r = i + 1 /\ sr_model r = None).
Proof.
  unfold cases_step. intros H. bind_ok H. bind_ok H. split_pair.
  destruct l as [|c cs].
  - injection H as <- <-. auto.
  - bind_ok H. bind_ok H.
    destruct a1; injection H as <- <-; (split; [reflexivity|]); right;
      eexists; repeat split.
Qed.

Lemma formula_step_turn env i F sr live sr' live' :
  formula_step check eval_str var_types env i F sr live = Ok (sr', live') ->
  (live' = live \/ live' = live ++ [F]) /\
  exists r, sr' = sr ++ [r] /\ sr_step r = i + 1 /\
            forall mo, sr_model r = Some mo -> exists m, mo = model_out eval_str m env.
Proof.
  unfold formula_step. intros H. bind_ok H. bind_ok H.
  destruct a0; injection H as <- <-; (split; [auto|]);
    eexists; repeat split; cbn; try discriminate.
  intros mo [= <-]. eauto.
Qed.

(** One turn of the loop appends at most one result, numbered [i + 1],
    and at most the formula of the step to the live assumptions. *)
Lemma step_once_turn env i s sr live sr' live' :
  step_once check eval_str var_types env i s sr live = Ok (sr', live') ->
  (live' = live \/ exists F, plain_formula s = Some F /\ live' = live ++ [F]) /\
  (sr' = sr \/
   exists r, sr' = sr ++ [r] /\ sr_step r = i + 1 /\
             forall mo, sr_model r = Some mo -> exists m, mo = model_out eval_str m env).
Proof.
  unfold step_once. intros H. bind_ok H.
  destruct s; try discriminate E. injection E as ->.
  cbn [plain_formula].
  destruct (str_is (dict_get a "type") "cases").
  - apply cases_step_turn in H as [-> [->|[r [-> [Hr Hm]]]]]; (split; [auto|]); [auto|].
    right. exists r. repeat split; [assumption|]. intros mo. rewrite Hm. discriminate.
  - destruct (is_none (dict_get a "formula")).
    + injection H as <- <-. split; [auto|]. right. eexists. repeat split. discriminate.
    + apply formula_step_turn in H as [[->| ->] Hr]; split; eauto.
Qed.

(** One turn appends the formula of the step to the live assumptions
    exactly when it records the step, a single formula, as proven. *)
Lemma step_once_adds env i s sr live sr' live' :
  step_once check eval_str var_types env i s sr live = Ok (sr', live') ->
  exists new,
    sr' = sr ++ new /\ Forall (fun r => sr_step r = i + 1) new /\
    live' = live ++ omap (fun r => if bool_decide (sr_status r = Some "proven")
                                   then plain_formula s else None) new.
Proof.
  unfold step_once. intros H. bind_ok H.
  destruct s; try discriminate E. injection E as ->.
  cbn [plain_formula].
  destruct (str_is (dict_get a "type") "cases").
  - apply cases_step_turn in H as [-> [->|[r [-> [Hr _]]]]].
    + exists []. rewrite !app_nil_r. split; [reflexivity|split; [constructor|reflexivity]].
    + exists [r]. split; [reflexivity|split; [now repeat constructor|]].
      cbn [omap list_omap]. destruct (bool_decide _); now rewrite app_nil_r.
  - destruct (is_none (dict_get a "formula")).
    + injection H as <- <-. eexists [_].
      split; [reflexivity|split; [now repeat constructor|]].
      cbn. now rewrite app_nil_r.
    + unfold formula_step in H. bind_ok H. bind_ok H.
      destruct a1; injection H as <- <-; eexists [_];
        (split; [reflexivity|split; [now repeat constructor|]]);
        cbn; now rewrite ?app_nil_r.
Qed.

(** The loop numbers its results after the index it starts with, and
    appends to the live assumptions the formulas of the steps it records
    as proven. *)
Lemma steps_loop_adds env steps :
  forall i sr live sr' live',
    steps_loop check eval_str var_types env i steps sr live = Ok (sr', live') ->
    exists new,
      sr' = sr ++ new /\ Forall (fun r => i < sr_step r) new /\
      live' = live ++ proven_formulas i steps new.
Proof.
  induction steps as [|s rest IH]; cbn [steps_loop]; intros i sr live sr' live' H.
  - injection H as <- <-. exists []. rewrite !app_nil_r.
    split; [reflexivity|split; [constructor|reflexivity]].
  - bind_ok H. split_pair.
    destruct (IH _ _ _ _ _ H) as [new2 [-> [Hrange ->]]].
    apply step_once_adds in E as [new1 [-> [Hone ->]]].
    exists (new1 ++ new2). rewrite <- !app_assoc.
    split; [reflexivity|split].
    + apply Forall_app. split.
      * eapply Forall_impl; [exact Hone|]. cbn. intros r ->. lia.
      * eapply Forall_impl; [exact Hrange|]. cbn. intros r ?. lia.
    + f_equal. unfold proven_formulas. rewrite omap_app. f_equal.
      * clear -Hone. induction Hone as [|r l Hr _ IHl]; [reflexivity|].
        cbn [omap list_omap]. rewrite IHl, Hr.
        replace (i + 1 - S i) with 0 by lia. reflexivity.
      * clear -Hrange. induction Hrange as [|r l Hr _ IHl]; [reflexivity|].
        cbn [omap list_omap]. rewrite IHl.
        replace (sr_step r - S i) with (S (sr_step r - S (S i))) by lia. reflexivity.
Qed.

(** What a turn does to the live assumptions, and whether it raises, does
    not depend on the number of the step nor on the results so far. *)
Lemma step_once_shift env i j s sr sr0 live :
  match step_once check eval_str var_types env i s sr live,
        step_once check eval_str var_types env j s sr0 live with
  | Ok (_, l1), Ok (_, l2) => l1 = l2
  | Raise e1, Raise e2 => e1 = e2
  | _, _ => False
  end.
Proof.
  unfold step_once. destruct (as_dict s) as [d|e]; cbn [bind]; [|reflexivity].
  destruct (str_is (dict_get d "type") "cases").
  - unfold cases_step.
    destruct (py_iter (dict_get_list d "cases")) as [cases|e]; cbn [bind]; [|reflexivity].
    destruct (cases_loop check var_types env live cases 0 [] []) as [[conds crs]|e];
      cbn [bind]; [|reflexivity].
    destruct conds as [|c cs]; [reflexivity|].
    destruct (exhaustive_query var_types env live (c :: cs)) as [q|e]; cbn [bind]; [|reflexivity].
    destruct (run_check check q) as [[m| | |msg]|e]; cbn [bind]; reflexivity.
  - destruct (is_none (dict_get d "formula")); [reflexivity|].
    unfold formula_step.
    destruct (step_query var_types env live (dict_get d "formula")) as [q|e];
      cbn [bind]; [|reflexivity].
    destruct (run_check check q) as [[m| | |msg]|e]; cbn [bind]; reflexivity.
Qed.

Lemma steps_loop_shift env steps :
  forall i j sr sr0 live,
    match steps_loop check eval_str var_types env i steps sr live,
          steps_loop check eval_str var_types env j steps sr0 live with
    | Ok (_, l1), Ok (_, l2) => l1 = l2
    | Raise e1, Raise e2 => e1 = e2
    | _, _ => False
    end.
Proof.
  induction steps as [|s rest IH]; intros i j sr sr0 live; cbn [steps_loop].
  - reflexivity.
  - pose proof (step_once_shift env i j s sr sr0 live) as Hs.
    destruct (step_once check eval_str var_types env i s sr live) as [[sr1 l1]|e1],
             (step_once check eval_str var_types env j s sr0 live) as [[sr2 l2]|e2];
      cbn [bind]; try contradiction; [|assumption].
    subst l2. apply IH.
Qed.

End step_loop_facts.

(** ** The declared environment *)

Lemma env_set_keys k v env :
  map fst (env_set k v env) =
  if bool_decide (is_Some (env_lookup k env)) then map fst env else map fst env ++ [k].
Proof.
  induction env as [|[k' v'] rest IH]; cbn [env_set env_lookup map].
  - reflexivity.
  - destruct (pykey_eqb k k') eqn:E; cbn [map fst].
    + rewrite bool_decide_true by eauto. reflexivity.
    + rewrite IH. destruct (bool_decide (is_Some (env_lookup k rest))); reflexivity.
Qed.

Lemma env_lookup_keys k env :
  is_Some (env_lookup k env) <-> In k (map fst env).
Proof.
  induction env as [|[k' v'] rest IH]; cbn [env_lookup map fst In].
  - split; [intros [? [=]]|intros []].
  - destruct (pykey_eqb k k') eqn:E.
    + apply pykey_eqb_eq in E. subst. split; eauto.
    + rewrite IH. split; [auto|]. intros [->|H]; [|exact H].
      now rewrite pykey_eqb_refl in E.
Qed.

Lemma env_set_NoDup k v env :
  NoDup (map fst env) -> NoDup (map fst (env_set k v env)).
Proof.
  intros H. rewrite env_set_keys. case_bool_decide as Hk; [exact H|].
  apply NoDup_app. repeat split; [exact H| |apply NoDup_singleton].
  intros x Hx [->|[]]%list_elem_of_In. apply Hk, env_lookup_keys.
  now apply list_elem_of_In.
Qed.

(** Where a name of the declared environment comes from. *)
Lemma declare_source vt (names : list json) :
  forall env env' k v,
    declare vt names env = Ok env' ->
    env_lookup k env' = Some v ->
    env_lookup k env = Some v \/
    (v = mk_const vt k /\ exists name, In name names /\ hash_key name = Ok k).
Proof.
  induction names as [|name rest IH]; cbn [declare]; intros env env' k v H Hk.
  - injection H as <-. auto.
  - bind_ok H. destruct (IH _ _ _ _ H Hk) as [Hin|[-> [n [Hn Hh]]]].
    + destruct (pykey_eqb a k) eqn:Ea.
      * apply pykey_eqb_eq in Ea. subst a. rewrite env_lookup_set_same in Hin.
        injection Hin as <-. right. split; [reflexivity|]. exists name. split; [now left|assumption].
      * rewrite env_lookup_set_other in Hin; [auto|].
        intros ->. now rewrite pykey_eqb_refl in Ea.
    + right. split; [reflexivity|]. exists n. split; [now right|assumption].
Qed.

Lemma declare_NoDup vt (names : list json) :
  forall env env', declare vt names env = Ok env' ->
                   NoDup (map fst env) -> NoDup (map fst env').
Proof.
  induction names as [|name rest IH]; cbn [declare]; intros env env' H Hnd.
  - now injection H as <-.
  - bind_ok H. eapply IH; [exact H|]. now apply env_set_NoDup.
Qed.

(** ** The driver: what the steps can and cannot do *)

Section driver_facts.
Context {Model : Type}.
Variable check : list z3.expr -> check_result Model.
Variable eval_str : Model -> z3.expr -> string.
Variable var_types : gmap string json.

Lemma steps_loop_sublist env steps :
  forall i sr live sr' live',
    steps_loop check eval_str var_types env i steps sr live = Ok (sr', live') ->
    exists added, live' = live ++ added /\ sublist added (omap plain_formula steps).
Proof.
  induction steps as [|s rest IH]; cbn [steps_loop]; intros i sr live sr' live' H.
  - injection H as <- <-. exists []. split; [now rewrite app_nil_r|constructor].
  - bind_ok H. split_pair.
    destruct (IH _ _ _ _ _ H) as [added [-> Hsub]].
    apply step_once_turn in E as [[->|[F [HF ->]]] _]; cbn [omap list_omap].
    + exists added. split; [reflexivity|].
      destruct (plain_formula s); [now constructor|assumption].
    + exists (F :: added). split; [now rewrite <- app_assoc|].
      rewrite HF. now constructor.
Qed.

(** X5.  The live assumptions only grow, and only by the formulas of the
    steps that are recorded as proven: after the loop they are the ones
    it started with, followed by the formulas of exactly those
    single-formula steps whose result has the status [proven], in the
    order of the steps.  A cases block, a step without formula and a step
    that is recorded as disproven or unknown add nothing. *)
Theorem live_assumptions_grow env steps :
  forall i sr live sr' live',
    steps_loop check eval_str var_types env i steps sr live = Ok (sr', live') ->
    exists new,
      sr' = sr ++ new /\
      live' = live ++ proven_formulas i steps new /\
      sublist (proven_formulas i steps new) (omap plain_formula steps).
Proof.
  intros i sr live sr' live' H.
  destruct (steps_loop_adds check eval_str var_types env steps i sr live sr' live' H)
    as [new [-> [_ ->]]].
  exists new. repeat split.
  destruct (steps_loop_sublist _ _ _ _ _ _ _ H) as [added [Heq Hsub]].
  apply app_inv_head in Heq. now rewrite Heq.
Qed.

(** X6.  The step results are numbered by the position of their step:
    the loop appends at most one result per step, the result of the step
    at index [i] carries the number [i + 1], and the numbers increase.
    There may be fewer results than steps. *)
Theorem step_results_numbered env steps :
  forall i sr live sr' live',
    steps_loop check eval_str var_types env i steps sr live = Ok (sr', live') ->
    exists new,
      sr' = sr ++ new /\ length new <= length steps /\
      Forall (fun r => i < sr_step r <= i + length steps) new /\
      StronglySorted lt (map sr_step new).
Proof.
  induction steps as [|s rest IH]; cbn [steps_loop]; intros i sr live sr' live' H.
  - injection H as <- <-. exists []. rewrite app_nil_r. repeat constructor.
  - bind_ok H. split_pair.
    destruct (IH _ _ _ _ _ H) as [new [-> [Hlen [Hrange Hsorted]]]].
    assert (Hwider : Forall (fun r => i < sr_step r <= i + length (s :: rest)) new).
    { eapply Forall_impl; [exact Hrange|]. cbn. intros r ?. lia. }
    apply step_once_turn in E as [_ [->|[r [-> [Hr _]]]]].
    + exists new. cbn [length]. repeat split; [lia|assumption|assumption].
    + exists (r :: new). rewrite <- app_assoc. cbn [length map].
      repeat split; [lia| |].
      * constructor; [cbn; lia|assumption].
      * constructor; [assumption|].
        apply Forall_map. eapply Forall_impl; [exact Hrange|]. cbn. intros r' ?. lia.
Qed.

Lemma step_models_keys env steps :
  forall i sr live sr' live',
    steps_loop check eval_str var_types env i steps sr live = Ok (sr', live') ->
    exists new,
      sr' = sr ++ new /\
      Forall (fun r => forall mo, sr_model r = Some mo -> map fst mo = map fst env) new.
Proof.
  induction steps as [|s rest IH]; cbn [steps_loop]; intros i sr live sr' live' H.
  - injection H as <- <-. exists []. rewrite app_nil_r. split; constructor.
  - bind_ok H. split_pair.
    destruct (IH _ _ _ _ _ H) as [new [-> Hnew]].
    apply step_once_turn in E as [_ [->|[r [-> [_ Hm]]]]].
    + exists new. split; [reflexivity|assumption].
    + exists (r :: new). rewrite <- app_assoc. split; [reflexivity|].
      constructor; [|assumption].
      intros mo Hmo. destruct (Hm _ Hmo) as [m ->].
      unfold model_out. rewrite map_map. apply map_ext. now intros [k v].
Qed.

Lemma prove_step_models_keys assumptions claim declared_vars steps env :
  declare var_types declared_vars [] = Ok env ->
  forall results r mo,
    step_results (prove check eval_str var_types assumptions claim declared_vars steps)
      = Some results ->
    In r results -> sr_model r = Some mo -> map fst mo = map fst env.
Proof.
  intros Hdecl results r mo Hres Hin Hmo.
  unfold prove, prove_body in Hres. rewrite Hdecl in Hres. cbn [bind] in Hres.
  destruct (steps_loop check eval_str var_types env 0 steps [] assumptions)
    as [[sr live]|e] eqn:Hloop; cbn [bind] in Hres.
  2:{ destruct e; discriminate. }
  destruct (step_models_keys _ _ _ _ _ _ _ Hloop) as [new [-> Hnew]].
  cbn [app] in *.
  assert (results = new) as ->.
  { destruct (final_query var_types env live claim) as [[q env1]|e]; cbn [bind] in Hres.
    2:{ destruct e; discriminate. }
    destruct (run_check check q) as [[m| | |msg]|e]; cbn [bind] in Hres.
    - destruct (format_counterexample eval_str m env1) as [text|e]; cbn [bind] in Hres.
      + destruct new; [discriminate|]. now injection Hres as <-.
      + destruct e; discriminate.
    - destruct new; [discriminate|]. now injection Hres as <-.
    - destruct new; [discriminate|]. now injection Hres as <-.
    - destruct new; [discriminate|]. now injection Hres as <-.
    - destruct e; discriminate. }
  rewrite List.Forall_forall in Hnew. exact (Hnew _ Hin _ Hmo).
Qed.

(** [ok] goes with the status [proven], and a model with [disproven]. *)
Lemma prove_ok_and_model assumptions claim declared_vars steps :
  let r := prove check eval_str var_types assumptions claim declared_vars steps in
  (ok r = true -> status r = "proven") /\
  (status r = "disproven" -> ok r = false /\ is_Some (model r)).
Proof.
  intros r. subst r. unfold prove.
  destruct (prove_body check eval_str var_types assumptions claim declared_vars steps)
    as [r|e] eqn:Hbody.
  - unfold prove_body in Hbody.
    bind_ok Hbody. bind_ok Hbody. split_pair. bind_ok Hbody. split_pair.
    bind_ok Hbody. destruct a0.
    + bind_ok Hbody. injection Hbody as <-. cbn. split; [discriminate|eauto].
    + injection Hbody as <-. cbn. split; [reflexivity|discriminate].
    + injection Hbody as <-. cbn. split; discriminate.
    + injection Hbody as <-. cbn. split; discriminate.
  - destruct e; cbn; split; discriminate.
Qed.

(** X7.  The counterexample of a disproven step gives a value to
    each declared variable and to nothing else: its names are those of
    the environment that the declarations built, whatever other names the
    formulas of the steps mention.  With no declared variable it is
    empty. *)
Theorem step_model_lists_declared assumptions claim declared_vars steps env :
  declare var_types declared_vars [] = Ok env ->
  forall results r mo,
    step_results (prove check eval_str var_types assumptions claim declared_vars steps)
      = Some results ->
    In r results -> sr_model r = Some mo ->
    map fst mo = map fst env /\
    forall k, In k (map fst mo) <->
              exists name, In name declared_vars /\ hash_key name = Ok k.
Proof.
  intros Hdecl results r mo Hres Hin Hmo.
  assert (Hkeys : map fst mo = map fst env)
    by (eapply prove_step_models_keys; eassumption).
  split; [exact Hkeys|]. intros k. rewrite Hkeys, <- env_lookup_keys. split.
  - intros [v Hv].
    destruct (declare_source _ _ _ _ _ _ Hdecl Hv) as [[=]|[_ Hname]]. exact Hname.
  - intros [name [Hname Hk]]. rewrite (declare_lookup _ _ _ _ Hdecl _ _ Hname Hk). eauto.
Qed.

(** X8.  The environment that the declarations build maps exactly the
    declared names, each once, and each to the constant of its name: the
    integer constant when [var_types] has ['Int'] for the name, the real
    constant otherwise. *)
Theorem declared_environment declared_vars env :
  declare var_types declared_vars [] = Ok env ->
  NoDup (map fst env) /\
  (forall k, is_Some (env_lookup k env) <->
             exists name, In name declared_vars /\ hash_key name = Ok k) /\
  (forall k v, env_lookup k env = Some v -> typed_constant var_types k v).
Proof.
  intros Hdecl. split; [|split; [split|]].
  - eapply declare_NoDup; [exact Hdecl|constructor].
  - intros [v Hv].
    destruct (declare_source _ _ _ _ _ _ Hdecl Hv) as [[=]|[_ Hname]]. exact Hname.
  - intros [name [Hname Hk]]. rewrite (declare_lookup _ _ _ _ Hdecl _ _ Hname Hk). eauto.
  - intros k v Hv.
    destruct (declare_source _ _ _ _ _ _ Hdecl Hv) as [[=]|[-> _]].
    apply mk_const_typed.
Qed.

(** X9.  [prove] answers [ok] only on the word of the solver: when
    the result has [ok] true, the declarations, the steps and the
    translation of the final query all went through, and the solver
    found the live assumptions with the negated claim unsatisfiable.  And
    when the status is [disproven], the solver found them satisfiable,
    and the model of the result is the one it gave. *)
Theorem verdict_comes_from_solver assumptions claim declared_vars steps :
  let r := prove check eval_str var_types assumptions claim declared_vars steps in
  (ok r = true \/ status r = "disproven") ->
  exists env results live q env1,
    declare var_types declared_vars [] = Ok env /\
    steps_loop check eval_str var_types env 0 steps [] assumptions = Ok (results, live) /\
    final_query var_types env live claim = Ok (q, env1) /\
    step_results r = attach results /\
    (ok r = true -> check q = unsat) /\
    (status r = "disproven" ->
     exists m, check q = sat m /\ model r = Some (model_out eval_str m env1)).
Proof.
  intros r Hr. subst r. unfold prove, prove_body in *.
  destruct (declare var_types declared_vars []) as [env|e] eqn:Hdecl; cbn [bind] in *.
  2:{ destruct e, Hr; discriminate. }
  destruct (steps_loop check eval_str var_types env 0 steps [] assumptions)
    as [[sr live]|e] eqn:Hloop; cbn [bind] in *.
  2:{ destruct e, Hr; discriminate. }
  destruct (final_query var_types env live claim) as [[q env1]|e] eqn:Hq; cbn [bind] in *.
  2:{ destruct e, Hr; discriminate. }
  exists env, sr, live, q, env1. unfold run_check in *.
  destruct (check q) as [m| | |msg]; cbn [bind] in *.
  - destruct (format_counterexample eval_str m env1) as [text|e]; cbn [bind] in *.
    + repeat split; try assumption; try discriminate.
      intros _. exists m. split; reflexivity.
    + destruct e, Hr; discriminate.
  - repeat split; try assumption; discriminate.
  - destruct Hr; discriminate.
  - destruct Hr; discriminate.
Qed.

(** X10.  A step that leaves the live assumptions as they were (a
    step that is not proven, a step without formula, a cases block) has
    no part in the verdict: without it the result is the same in all but
    the step results. *)
Theorem unproven_step_is_inert assumptions claim declared_vars pre s post
  env results live results' :
  declare var_types declared_vars [] = Ok env ->
  steps_loop check eval_str var_types env 0 pre [] assumptions = Ok (results, live) ->
  step_once check eval_str var_types env (length pre) s results live = Ok (results', live) ->
  verdict (prove check eval_str var_types assumptions claim declared_vars (pre ++ s :: post)) =
  verdict (prove check eval_str var_types assumptions claim declared_vars (pre ++ post)).
Proof.
  intros Hdecl Hpre Hs. unfold prove, prove_body. rewrite Hdecl. cbn [bind].
  rewrite !steps_loop_app, Hpre. cbn [bind steps_loop]. rewrite Nat.add_0_l, Hs. cbn [bind].
  pose proof (steps_loop_shift check eval_str var_types env post
                (S (length pre)) (length pre) results' results live) as Hshift.
  destruct (steps_loop check eval_str var_types env (S (length pre)) post results' live)
    as [[sr1 l1]|e1],
    (steps_loop check eval_str var_types env (length pre) post results live)
    as [[sr2 l2]|e2]; try contradiction; cbn [bind].
  - subst l2.
    destruct (final_query var_types env l1 claim) as [[q env1]|e]; cbn [bind];
      [|destruct e; reflexivity].
    destruct (run_check check q) as [[m| | |msg]|e]; cbn [bind]; try reflexivity.
    destruct (format_counterexample eval_str m env1) as [text|e]; cbn [bind];
      [reflexivity|destruct e; reflexivity].
  - subst e2. destruct e1; reflexivity.
Qed.

End driver_facts.

(** * The order of the environment does not matter *)

Lemma same_map_set k v env env' :
  same_map env env' -> same_map (env_set k v env) (env_set k v env').
Proof.
  intros H k'. destruct (pykey_eqb k k') eqn:E.
  - apply pykey_eqb_eq in E. subst k'. now rewrite !env_lookup_set_same.
  - assert (k <> k') by (intros ->; now rewrite pykey_eqb_refl in E).
    rewrite !env_lookup_set_other by assumption. apply H.
Qed.

Lemma alike_ret {A : Type} (a : A) : alike (fun env => Ok (a, env)).
Proof. intros env env' H. split; [reflexivity|exact H]. Qed.

Lemma alike_raise {A : Type} e : alike (fun _ : Env => @Raise (A * Env) e).
Proof. intros env env' H. reflexivity. Qed.

Lemma alike_seq {A B : Type} (tr : Env -> Res (A * Env)) (k : A -> Env -> Res (B * Env)) :
  alike tr -> (forall a, alike (k a)) ->
  alike (fun env => let* (a, env1) := tr env in k a env1).
Proof.
  intros Htr Hk env env' H. specialize (Htr env env' H).
  destruct (tr env) as [[a env1]|x], (tr env') as [[a' env1']|y]; cbn [bind];
    try contradiction; [|assumption].
  destruct Htr as [<- H1]. exact (Hk a env1 env1' H1).
Qed.

Lemma alike_pure {A B : Type} (m : Res A) (k : A -> Env -> Res (B * Env)) :
  (forall a, alike (k a)) -> alike (fun env => let* a := m in k a env).
Proof.
  intros Hk env env' H. destruct m as [a|x]; cbn [bind]; [|exact eq_refl].
  exact (Hk a env env' H).
Qed.

Lemma fold_rest_alike (term : json -> Tr) cmp (rest : list json) :
  Forall (fun t => alike (term t)) rest ->
  forall result, alike (fold_rest term cmp rest result).
Proof.
  induction 1 as [|t rest Ht _ IH]; intros result; cbn [fold_rest].
  - apply alike_ret.
  - apply (alike_seq (term t) (fun other => fold_rest term cmp rest _)); [exact Ht|].
    intros other. apply IH.
Qed.

Lemma fold_args_alike (term : json -> Tr) cmp what (l : list json) :
  Forall (fun t => alike (term t)) l -> alike (fold_args term cmp what l).
Proof.
  intros HF. unfold fold_args.
  destruct (length l <? 2)%nat; [apply alike_raise|].
  destruct l as [|a0 rest]; [apply alike_raise|].
  apply List.Forall_cons_iff in HF as [Ha Hrest].
  apply (alike_seq (term a0) (fun result => fold_rest term cmp rest result)); [exact Ha|].
  intros result. now apply fold_rest_alike.
Qed.

Lemma fold_args_other_alike what args : alike (fun _ : Env => fold_args_other what args).
Proof. intros env env' H. destruct (fold_args_other what args) as [[e env1]|x] eqn:E.
  - now apply fold_args_other_raises in E.
  - reflexivity.
Qed.

Lemma var_alike vt k :
  alike (fun env =>
           match env_lookup k env with
           | Some v => Ok (v, env)
           | None => Ok (mk_const vt k, env_set k (mk_const vt k) env)
           end).
Proof.
  intros env env' H. rewrite <- (H k). destruct (env_lookup k env).
  - split; [reflexivity|exact H].
  - split; [reflexivity|now apply same_map_set].
Qed.

Lemma term_to_z3_alike vt (t : json) : alike (term_to_z3 vt t).
Proof.
  induction t as [| | | |l|d IH IHelts] using json_tree_ind;
    try (intros env env' H; reflexivity).
  intros env env' H. cbn [term_to_z3]. rewrite !on_field_assoc.
  repeat match goal with
         | |- match (if ?c then _ else _) with _ => _ end => destruct c
         end; try exact eq_refl.
  - split; [reflexivity|exact H].
  - exact (alike_pure (hash_key (dict_get d "name")) _ (var_alike vt) env env' H).
  - destruct (assoc "lhs" d) as [lhs|] eqn:El; [|exact eq_refl].
    rewrite !on_field_assoc.
    destruct (assoc "rhs" d) as [rhs|] eqn:Er; [|exact eq_refl].
    child_IH IH El IHl. child_IH IH Er IHr.
    refine (alike_seq (term_to_z3 vt lhs)
              (fun a env1 => let* (b, env2) := term_to_z3 vt rhs env1 in _) IHl _ env env' H).
    intros a.
    refine (alike_seq (term_to_z3 vt rhs) (fun b env2 => _) IHr _).
    intros b.
    repeat match goal with
           | |- context [if ?c then _ else _] => destruct c
           end; first [apply alike_ret | apply alike_raise].
  - destruct (assoc "arg" d) as [arg|] eqn:Ea; [|exact eq_refl]. child_IH IH Ea IHa.
    refine (alike_seq (term_to_z3 vt arg) (fun x env1 => Ok (_, env1)) IHa _ env env' H).
    intros x. apply alike_ret.
  - destruct (assoc "arg" d) as [arg|] eqn:Ea; [|exact eq_refl]. child_IH IH Ea IHa.
    refine (alike_seq (term_to_z3 vt arg) (fun x env1 => Ok (_, env1)) IHa _ env env' H).
    intros x. apply alike_ret.
  - destruct (assoc "base" d) as [base|] eqn:Eb; [|exact eq_refl].
    rewrite !on_field_assoc.
    destruct (assoc "exp" d) as [ex|] eqn:Ee; [|exact eq_refl].
    child_IH IH Eb IHb. child_IH IH Ee IHe.
    refine (alike_seq (term_to_z3 vt base)
              (fun a env1 => let* (b, env2) := term_to_z3 vt ex env1 in _) IHb _ env env' H).
    intros a.
    refine (alike_seq (term_to_z3 vt ex) (fun b env2 => Ok (_, env2)) IHe _).
    intros b. apply alike_ret.
  - destruct (assoc "arg" d) as [arg|] eqn:Ea; [|exact eq_refl]. child_IH IH Ea IHa.
    refine (alike_seq (term_to_z3 vt arg) (fun x env1 => Ok (_, env1)) IHa _ env env' H).
    intros x. apply alike_ret.
  - destruct (assoc "args" d) as [args|] eqn:Ea; [|exact eq_refl].
    destruct args;
      try match goal with
          | |- match fold_args_other ?w ?a with _ => _ end =>
              exact (fold_args_other_alike w a env env' H)
          end.
    exact (fold_args_alike _ _ _ _ (IHelts _ _ Ea) env env' H).
  - destruct (assoc "args" d) as [args|] eqn:Ea; [|exact eq_refl].
    destruct args;
      try match goal with
          | |- match fold_args_other ?w ?a with _ => _ end =>
              exact (fold_args_other_alike w a env env' H)
          end.
    exact (fold_args_alike _ _ _ _ (IHelts _ _ Ea) env env' H).
Qed.

Lemma map_args_alike (formula : json -> Tr) (l : list json) :
  Forall (fun f => alike (formula f)) l -> alike (map_args formula l).
Proof.
  induction 1 as [|f rest Hf _ IH]; cbn [map_args].
  - apply alike_ret.
  - apply (alike_seq (formula f)
             (fun z env1 => let* (zs, env2) := map_args formula rest env1 in
                            Ok (z :: zs, env2))); [exact Hf|].
    intros z.
    apply (alike_seq (map_args formula rest) (fun zs env2 => Ok (z :: zs, env2)));
      [exact IH|].
    intros zs. apply alike_ret.
Qed.

Lemma connective_other_alike unit args : alike (connective_other unit args).
Proof.
  unfold connective_other.
  apply (alike_pure (py_len args)
           (fun n env => if (n =? 0)%nat then Ok (z3.PyBool unit, env)
                         else Raise (FormulaError "Formula must be an object, got: str"))).
  intros n. destruct (n =? 0)%nat; [apply alike_ret|apply alike_raise].
Qed.

Lemma bind_vars_alike vt (names : list json) :
  forall qs, alike (bind_vars vt names qs).
Proof.
  induction names as [|name rest IH]; intros qs; cbn [bind_vars].
  - apply alike_ret.
  - apply (alike_pure (hash_key name)
             (fun k env => bind_vars vt rest (qs ++ [mk_const vt k])
                             (env_set k (mk_const vt k) env))).
    intros k env env' H. apply IH. now apply same_map_set.
Qed.

Lemma quantifier_alike vt (formula : json -> Tr)
  (mk : list z3.expr -> z3.expr -> z3.expr) var_names b :
  alike (formula b) ->
  alike (fun env =>
           let* names := py_iter var_names in
           let* (quant_vars, env1) := bind_vars vt names [] env in
           let* (body, env2) := formula b env1 in
           Ok (mk quant_vars body, env2)).
Proof.
  intros Hb.
  apply (alike_pure (py_iter var_names)
           (fun names env =>
              let* (quant_vars, env1) := bind_vars vt names [] env in
              let* (body, env2) := formula b env1 in
              Ok (mk quant_vars body, env2))).
  intros names.
  apply (alike_seq (bind_vars vt names [])
           (fun quant_vars env1 =>
              let* (body, env2) := formula b env1 in Ok (mk quant_vars body, env2)));
    [apply bind_vars_alike|].
  intros quant_vars.
  apply (alike_seq (formula b) (fun body env2 => Ok (mk quant_vars body, env2)));
    [exact Hb|].
  intros body. apply alike_ret.
Qed.

Lemma formula_to_z3_alike vt (f : json) : alike (formula_to_z3 vt f).
Proof.
  induction f as [| | | |l|d IH IHelts] using json_tree_ind;
    try (intros env env' H; exact eq_refl).
  intros env env' H. cbn [formula_to_z3]. rewrite !on_field_assoc.
  repeat match goal with
         | |- match (if ?c then _ else _) with _ => _ end => destruct c
         end; try exact eq_refl.
  - destruct (assoc "lhs" d) as [lhs|]; [|exact eq_refl].
    destruct (assoc "rhs" d) as [rhs|]; [|exact eq_refl].
    refine (alike_seq (term_to_z3 vt lhs)
              (fun a env1 => let* (b, env2) := term_to_z3 vt rhs env1 in
                             let* z := rel_of (dict_get d "op") a b in Ok (z, env2))
              (term_to_z3_alike vt lhs) _ env env' H).
    intros a.
    refine (alike_seq (term_to_z3 vt rhs)
              (fun b env2 => let* z := rel_of (dict_get d "op") a b in Ok (z, env2))
              (term_to_z3_alike vt rhs) _).
    intros b.
    apply (alike_pure (rel_of (dict_get d "op") a b) (fun z env2 => Ok (z, env2))).
    intros z. apply alike_ret.
  - destruct (assoc "args" d) as [args|] eqn:Ea; [|exact (alike_ret _ env env' H)].
    destruct args as [| | | |l|d'];
      try match goal with
          | |- match connective_other ?u ?a _ with _ => _ end =>
              exact (connective_other_alike u a env env' H)
          end.
    destruct l as [|a l]; [exact (alike_ret _ env env' H)|].
    refine (alike_seq (map_args (formula_to_z3 vt) (a :: l))
              (fun zs env1 => Ok (z3.And zs, env1)) _ _ env env' H).
    + apply map_args_alike. exact (IHelts _ _ Ea).
    + intros zs. apply alike_ret.
  - destruct (assoc "args" d) as [args|] eqn:Ea; [|exact (alike_ret _ env env' H)].
    destruct args as [| | | |l|d'];
      try match goal with
          | |- match connective_other ?u ?a _ with _ => _ end =>
              exact (connective_other_alike u a env env' H)
          end.
    destruct l as [|a l]; [exact (alike_ret _ env env' H)|].
    refine (alike_seq (map_args (formula_to_z3 vt) (a :: l))
              (fun zs env1 => Ok (z3.Or zs, env1)) _ _ env env' H).
    + apply map_args_alike. exact (IHelts _ _ Ea).
    + intros zs. apply alike_ret.
  - destruct (assoc "arg" d) as [arg|] eqn:Ea; [|exact eq_refl]. child_IH IH Ea IHa.
    refine (alike_seq (formula_to_z3 vt arg) (fun x env1 => Ok (_, env1)) IHa _ env env' H).
    intros x. apply alike_ret.
  - destruct (assoc "lhs" d) as [lhs|] eqn:El; [|exact eq_refl].
    rewrite !on_field_assoc.
    destruct (assoc "rhs" d) as [rhs|] eqn:Er; [|exact eq_refl].
    child_IH IH El IHl. child_IH IH Er IHr.
    refine (alike_seq (formula_to_z3 vt lhs)
              (fun a env1 => let* (b, env2) := formula_to_z3 vt rhs env1 in _)
              IHl _ env env' H).
    intros a.
    refine (alike_seq (formula_to_z3 vt rhs) (fun b env2 => Ok (_, env2)) IHr _).
    intros b. apply alike_ret.
  - destruct (assoc "body" d) as [b|] eqn:Eb; [|exact eq_refl]. child_IH IH Eb IHb.
    exact (quantifier_alike vt _ z3.ForAll _ _ IHb env env' H).
  - destruct (assoc "body" d) as [b|] eqn:Eb; [|exact eq_refl]. child_IH IH Eb IHb.
    exact (quantifier_alike vt _ z3.Exists _ _ IHb env env' H).
Qed.

(** ** The driver in environments that are the same map *)

Section order_of_environment.
Context {Model : Type}.
Variable check : list z3.expr -> check_result Model.
Variable eval_str : Model -> z3.expr -> string.
Variable var_types : gmap string json.

Lemma translate_copy_same env env' a :
  same_map env env' ->
  translate_copy var_types env a = translate_copy var_types env' a.
Proof.
  intros H. unfold translate_copy.
  pose proof (formula_to_z3_alike var_types a env env' H) as Ha.
  destruct (formula_to_z3 var_types a env) as [[z e1]|x],
           (formula_to_z3 var_types a env') as [[z' e1']|y]; cbn [bind];
    try contradiction; [now destruct Ha as [-> _]|now subst].
Qed.

Lemma translate_all_copy_same env env' l :
  same_map env env' ->
  translate_all_copy var_types env l = translate_all_copy var_types env' l.
Proof.
  intros H. induction l as [|a l IH]; cbn [translate_all_copy]; [reflexivity|].
  now rewrite (translate_copy_same env env' a H), IH.
Qed.

Lemma step_query_same env env' live goal :
  same_map env env' ->
  step_query var_types env live goal = step_query var_types env' live goal.
Proof.
  intros H. unfold step_query.
  now rewrite (translate_all_copy_same env env' live H), (translate_copy_same env env' goal H).
Qed.

Lemma exhaustive_query_same env env' live conditions :
  same_map env env' ->
  exhaustive_query var_types env live conditions =
  exhaustive_query var_types env' live conditions.
Proof.
  intros H. unfold exhaustive_query.
  now rewrite (translate_all_copy_same env env' live H),
              (translate_all_copy_same env env' conditions H).
Qed.

Lemma case_steps_loop_same env env' case_steps :
  same_map env env' ->
  forall live,
    case_steps_loop check var_types env case_steps live =
    case_steps_loop check var_types env' case_steps live.
Proof.
  intros H. induction case_steps as [|cs rest IH]; intros live; cbn [case_steps_loop];
    [reflexivity|].
  destruct (as_dict cs) as [d|e]; cbn [bind]; [|reflexivity].
  destruct (truthy (dict_get d "formula")); [|apply IH].
  rewrite (step_query_same env env' _ _ H).
  destruct (step_query var_types env' live (dict_get d "formula")) as [q|e]; cbn [bind];
    [|reflexivity].
  destruct (run_check check q) as [[m| | |msg]|e]; cbn [bind]; try apply IH. reflexivity.
Qed.

Lemma cases_loop_same env env' live cases :
  same_map env env' ->
  forall idx conditions case_results,
    cases_loop check var_types env live cases idx conditions case_results =
    cases_loop check var_types env' live cases idx conditions case_results.
Proof.
  intros H. induction cases as [|c rest IH]; intros idx conditions case_results;
    cbn [cases_loop]; [reflexivity|].
  destruct (as_dict c) as [d|e]; cbn [bind]; [|reflexivity].
  destruct (py_iter (dict_get_list d "steps")) as [case_steps|e]; cbn [bind]; [|reflexivity].
  rewrite (case_steps_loop_same env env' case_steps H).
  destruct (case_steps_loop check var_types env' case_steps _) as [l|e]; cbn [bind];
    [apply IH|reflexivity].
Qed.

Lemma step_once_same env env' i j s sr sr0 live :
  same_map env env' ->
  match step_once check eval_str var_types env i s sr live,
        step_once check eval_str var_types env' j s sr0 live with
  | Ok (_, l1), Ok (_, l2) => l1 = l2
  | Raise e1, Raise e2 => e1 = e2
  | _, _ => False
  end.
Proof.
  intros H. unfold step_once. destruct (as_dict s) as [d|e]; cbn [bind]; [|reflexivity].
  destruct (str_is (dict_get d "type") "cases").
  - unfold cases_step.
    destruct (py_iter (dict_get_list d "cases")) as [cases|e]; cbn [bind]; [|reflexivity].
    rewrite (cases_loop_same env env' live cases H).
    destruct (cases_loop check var_types env' live cases 0 [] []) as [[conds crs]|e];
      cbn [bind]; [|reflexivity].
    destruct conds as [|c cs]; [reflexivity|].
    rewrite (exhaustive_query_same env env' live (c :: cs) H).
    destruct (exhaustive_query var_types env' live (c :: cs)) as [q|e]; cbn [bind];
      [|reflexivity].
    destruct (run_check check q) as [[m| | |msg]|e]; cbn [bind]; reflexivity.
  - destruct (is_none (dict_get d "formula")); [reflexivity|].
    unfold formula_step. rewrite (step_query_same env env' _ _ H).
    destruct (step_query var_types env' live (dict_get d "formula")) as [q|e];
      cbn [bind]; [|reflexivity].
    destruct (run_check check q) as [[m| | |msg]|e]; cbn [bind]; reflexivity.
Qed.

Lemma steps_loop_same env env' steps :
  same_map env env' ->
  forall i j sr sr0 live,
    match steps_loop check eval_str var_types env i steps sr live,
          steps_loop check eval_str var_types env' j steps sr0 live with
    | Ok (_, l1), Ok (_, l2) => l1 = l2
    | Raise e1, Raise e2 => e1 = e2
    | _, _ => False
    end.
Proof.
  intros H. induction steps as [|s rest IH]; intros i j sr sr0 live; cbn [steps_loop].
  - reflexivity.
  - pose proof (step_once_same env env' i j s sr sr0 live H) as Hs.
    destruct (step_once check eval_str var_types env i s sr live) as [[sr1 l1]|e1],
             (step_once check eval_str var_types env' j s sr0 live) as [[sr2 l2]|e2];
      cbn [bind]; try contradiction; [|assumption].
    subst l2. apply IH.
Qed.

Lemma final_query_alike live claim :
  alike (fun env => final_query var_types env live claim).
Proof.
  unfold final_query.
  apply (alike_seq (map_args (formula_to_z3 var_types) live)
           (fun zs env1 =>
              let* (claim_z3, env2) := formula_to_z3 var_types claim env1 in
              Ok (zs ++ [z3.Not claim_z3], env2))).
  - apply map_args_alike. apply List.Forall_forall. intros f _. apply formula_to_z3_alike.
  - intros zs.
    apply (alike_seq (formula_to_z3 var_types claim)
             (fun claim_z3 env2 => Ok (zs ++ [z3.Not claim_z3], env2)));
      [apply formula_to_z3_alike|].
    intros z. apply alike_ret.
Qed.

End order_of_environment.

Lemma extends_NoDup vt env env' :
  extends vt env env' -> NoDup (map fst env) -> NoDup (map fst env').
Proof.
  induction 1 as [|env env' k Hext IH]; intros Hnd; [assumption|].
  apply env_set_NoDup. now apply IH.
Qed.

Lemma same_map_keys env env' :
  same_map env env' -> NoDup (map fst env) -> NoDup (map fst env') ->
  Permutation (map fst env) (map fst env').
Proof.
  intros H Hnd Hnd'. apply NoDup_Permutation; try assumption.
  intros k. rewrite !list_elem_of_In, <- !env_lookup_keys. now rewrite (H k).
Qed.

Lemma string_keys_of_names env :
  string_keys env = forallb (fun k => match k with KStr _ => true | _ => false end) (map fst env).
Proof. unfold string_keys. induction env as [|p env IH]; cbn; [reflexivity|now rewrite IH]. Qed.

Lemma int_keys_of_names env :
  int_keys env = forallb (fun k => match k with KInt _ => true | _ => false end) (map fst env).
Proof. unfold int_keys. induction env as [|p env IH]; cbn; [reflexivity|now rewrite IH]. Qed.

Lemma forallb_perm {A : Type} (p : A -> bool) l l' :
  Permutation l l' -> forallb p l = forallb p l'.
Proof.
  induction 1; cbn; try congruence.
  now rewrite !andb_assoc, (andb_comm (p y)).
Qed.

(** Whether the items can be sorted depends on the names only. *)
Lemma sorted_items_same env env' :
  same_map env env' -> NoDup (map fst env) -> NoDup (map fst env') ->
  (exists l, sorted_items env = Ok l) -> exists l', sorted_items env' = Ok l'.
Proof.
  intros H Hnd Hnd' [l Hl].
  pose proof (same_map_keys env env' H Hnd Hnd') as Hperm.
  destruct (sorted_items_one_kind env l Hl) as [Hlen|[Hs|Hi]].
  - apply Permutation_length in Hperm. rewrite !length_map in Hperm.
    destruct env' as [|x [|y env']]; cbn in Hperm; try lia; cbn; eauto.
  - destruct (sorted_items_strings env') as [l' [Hl' _]]; [|eauto].
    rewrite string_keys_of_names in *. now rewrite <- (forallb_perm _ _ _ Hperm).
  - apply sorted_items_ints. rewrite int_keys_of_names in *.
    now rewrite <- (forallb_perm _ _ _ Hperm).
Qed.

(** ** Declarations in another order *)

Lemma declare_goes_through vt (names : list json) :
  forall env,
    (exists env', declare vt names env = Ok env') <->
    Forall (fun name => exists k, hash_key name = Ok k) names.
Proof.
  induction names as [|name rest IH]; intros env; cbn [declare].
  - split; [constructor|eauto].
  - split.
    + intros [env' H]. bind_ok H. constructor; [eauto|]. apply (IH (env_set a (mk_const vt a) env)).
      eauto.
    + intros HF. apply List.Forall_cons_iff in HF as [[k ->] Hrest]. cbn [bind].
      now apply IH.
Qed.

Lemma declare_same vt (names names' : list json) env env' :
  Permutation names names' ->
  declare vt names [] = Ok env -> declare vt names' [] = Ok env' ->
  same_map env env'.
Proof.
  intros Hperm Hd Hd'.
  assert (Hone : forall n1 n2 e1 e2,
             Permutation n1 n2 -> declare vt n1 [] = Ok e1 -> declare vt n2 [] = Ok e2 ->
             forall k v, env_lookup k e1 = Some v -> env_lookup k e2 = Some v).
  { intros n1 n2 e1 e2 Hp H1 H2 k v Hk.
    destruct (declare_source _ _ _ _ _ _ H1 Hk) as [[=]|[-> [name [Hin Hh]]]].
    eapply declare_lookup; [exact H2| |exact Hh].
    eapply Permutation_in; eassumption. }
  intros k.
  destruct (env_lookup k env) as [v|] eqn:E.
  - symmetry. eapply Hone; eassumption.
  - destruct (env_lookup k env') as [v'|] eqn:E'; [|reflexivity].
    assert (Hback : env_lookup k env = Some v').
    { eapply (Hone names' names); try eassumption. now symmetry. }
    congruence.
Qed.

Section order_of_declarations.
Context {Model : Type}.
Variable check : list z3.expr -> check_result Model.
Variable eval_str : Model -> z3.expr -> string.
Variable var_types : gmap string json.

(** X11.  The verdict does not depend on the order in which the
    variables are declared (the parser hands them over as
    [list(self.variables)], the elements of a set in no particular
    order): for two lists of declared variables that hold the same names,
    [prove] gives the same [ok] and the same status. *)
Theorem verdict_ignores_declaration_order assumptions claim declared_vars declared_vars' steps :
  Permutation declared_vars declared_vars' ->
  let r := prove check eval_str var_types assumptions claim declared_vars steps in
  let r' := prove check eval_str var_types assumptions claim declared_vars' steps in
  ok r = ok r' /\ status r = status r'.
Proof.
  intros Hperm r r'. subst r r'. unfold prove, prove_body.
  destruct (declare var_types declared_vars []) as [env|e] eqn:Hd,
           (declare var_types declared_vars' []) as [env'|e'] eqn:Hd'; cbn [bind].
  2:{ exfalso.
      assert (Hok : exists env', declare var_types declared_vars' [] = Ok env').
      { apply declare_goes_through.
        eapply Permutation_Forall; [exact Hperm|].
        apply (declare_goes_through var_types declared_vars []). eauto. }
      destruct Hok as [? Hok]. congruence. }
  2:{ exfalso.
      assert (Hok : exists env, declare var_types declared_vars [] = Ok env).
      { apply declare_goes_through.
        eapply Permutation_Forall; [symmetry; exact Hperm|].
        apply (declare_goes_through var_types declared_vars' []). eauto. }
      destruct Hok as [? Hok]. congruence. }
  2:{ destruct e, e'; split; reflexivity. }
  pose proof (declare_same var_types _ _ _ _ Hperm Hd Hd') as Hsame.
  pose proof (declare_NoDup var_types _ _ _ Hd (NoDup_nil_2 (A:=pykey))) as Hnd.
  pose proof (declare_NoDup var_types _ _ _ Hd' (NoDup_nil_2 (A:=pykey))) as Hnd'.
  pose proof (steps_loop_same check eval_str var_types env env' steps Hsame
                0 0 [] [] assumptions) as Hloop.
  destruct (steps_loop check eval_str var_types env 0 steps [] assumptions)
    as [[sr live]|e],
    (steps_loop check eval_str var_types env' 0 steps [] assumptions)
    as [[sr' live']|e']; cbn [bind]; try contradiction.
  2:{ destruct e, e'; split; reflexivity. }
  subst live'.
  pose proof (final_query_alike var_types live claim env env' Hsame) as Hq.
  cbv beta in Hq.
  destruct (final_query var_types env live claim) as [[q env1]|e] eqn:Hq1,
           (final_query var_types env' live claim) as [[q' env1']|e'] eqn:Hq1';
    cbn [bind]; try contradiction.
  2:{ destruct e, e'; split; reflexivity. }
  destruct Hq as [<- Hsame1].
  destruct (run_check check q) as [[m| | |msg]|e]; cbn [bind]; try (split; reflexivity).
  assert (Hnd1 : NoDup (map fst env1)).
  { eapply extends_NoDup; [eapply final_query_extends; exact Hq1|exact Hnd]. }
  assert (Hnd1' : NoDup (map fst env1')).
  { eapply extends_NoDup; [eapply final_query_extends; exact Hq1'|exact Hnd']. }
  unfold format_counterexample.
  destruct (sorted_items env1) as [l|e] eqn:Hs, (sorted_items env1') as [l'|e'] eqn:Hs';
    cbn [bind]; try (split; reflexivity).
  - exfalso.
    destruct (sorted_items_same env1 env1' Hsame1 Hnd1 Hnd1') as [? Hok]; [eauto|].
    congruence.
  - exfalso.
    assert (Hsame1' : same_map env1' env1) by (intros k; symmetry; apply Hsame1).
    destruct (sorted_items_same env1' env1 Hsame1' Hnd1' Hnd1) as [? Hok]; [eauto|].
    congruence.
  - destruct e, e'; split; reflexivity.
Qed.

End order_of_declarations.

(** * The web API: facts *)

(** X12.  The web API declares no variable to the prover.  So, whatever
    the source, the step results of its answer carry no values: the
    counterexample of a disproven step is empty.  And the answer has [ok]
    true only with the status [proven], and a model only with the status
    [disproven]. *)
Theorem web_step_models_are_empty {Model : Type} fs
  (check : list z3.expr -> check_result Model) eval_str n examples code response :
  check_proof fs check eval_str n examples code = Some response ->
  (forall results r mo,
      web_step_results response = Some results -> In r results ->
      sr_model r = Some mo -> mo = []) /\
  (web_ok response = true -> web_status response = "proven") /\
  (is_Some (web_model response) -> web_status response = "disproven").
Proof.
  unfold check_proof. intros H.
  destruct (parse fs n code examples) as [u|e|]; [| |discriminate H].
  2:{ injection H as <-. cbn. repeat split; try discriminate. intros [? [=]]. }
  cbv zeta in H. destruct (negb (truthy (pu_claim u))).
  { injection H as <-. cbn. repeat split; try discriminate. intros [? [=]]. }
  injection H as <-. cbn [web_step_results web_ok web_status web_model].
  destruct (prove_ok_and_model check eval_str (JStr <$> pu_var_types u)
              (pu_assumptions u) (pu_claim u) [] (pu_steps u)) as [Hok _].
  split; [|split].
  - intros results r mo Hres Hin Hmo.
    pose proof (prove_step_models_keys check eval_str _ (pu_assumptions u) (pu_claim u)
                  [] (pu_steps u) [] eq_refl results r mo Hres Hin Hmo) as Hkeys.
    now destruct mo.
  - exact Hok.
  - intros [m Hm].
    destruct (negb (ok _) && String.eqb (status _) "disproven") eqn:E; [|discriminate Hm].
    apply andb_true_iff in E as [_ E]. now apply String.eqb_eq in E.
Qed.

(** * The lexer: facts *)

Lemma append_cons c (a b : string) : String c a +:+ b = String c (a +:+ b).
Proof. reflexivity. Qed.

Lemma span_split p s a b : span p s = (a, b) -> s = a +:+ b.
Proof.
  revert a b. induction s as [|c s IH]; cbn [span]; intros a b H.
  - now injection H as <- <-.
  - destruct (p c).
    + destruct (span p s) as [a' b']. injection H as <- <-.
      rewrite append_cons. f_equal. exact (IH _ _ eq_refl).
    + now injection H as <- <-.
Qed.

Lemma span_stop p s a q b : span p s = (a, String q b) -> p q = false.
Proof.
  revert a. induction s as [|c s IH]; cbn [span]; intros a H; [discriminate|].
  destruct (p c) eqn:Hc.
  - destruct (span p s) as [a' b']. injection H as <- ->. exact (IH _ eq_refl).
  - now injection H as <- <- <-.
Qed.

Lemma span_first p c s : p c = true -> exists a b, span p (String c s) = (String c a, b).
Proof. intros H. cbn [span]. rewrite H. destruct (span p s). eauto. Qed.

Lemma append_assoc (a b c : string) : (a +:+ b) +:+ c = a +:+ (b +:+ c).
Proof.
  induction a as [|x a IH]; [reflexivity|]. now rewrite !append_cons, IH.
Qed.

(** A pattern that matches takes its text from the front of the source,
    and takes at least one character. *)
Lemma match_token_split s t v rest :
  match_token s = Some (t, v, rest) ->
  s = v +:+ rest /\ v <> "" /\ In t pattern_names.
Proof.
  unfold match_token. destruct s as [|c s']; [discriminate|].
  destruct (is_blank c) eqn:Hblank.
  { destruct (span_first is_blank c s' Hblank) as [a [b E]]. rewrite E.
    intros [= <- <- <-]. apply span_split in E.
    repeat split; [exact E|discriminate|cbn; tauto]. }
  destruct (is_newline c).
  { intros [= <- <- <-]. repeat split; [discriminate|cbn; tauto]. }
  destruct (Ascii.eqb c "#").
  { destruct (span _ s') as [a b] eqn:E. intros [= <- <- <-]. apply span_split in E.
    repeat split; [rewrite append_cons; now f_equal|discriminate|cbn; tauto]. }
  destruct (Ascii.eqb c quote).
  { destruct (span _ s') as [a b] eqn:E.
    destruct b as [|q b]; [discriminate|]. intros [= <- <- <-].
    pose proof (span_stop _ _ _ _ _ E) as Hq. apply negb_false_iff, Ascii.eqb_eq in Hq.
    subst q. apply span_split in E.
    repeat split; [|discriminate|cbn; tauto].
    rewrite append_cons. f_equal. now rewrite append_assoc. }
  destruct (is_digit c) eqn:Hdigit.
  { destruct (span_first is_digit c s' Hdigit) as [a [b E]]. rewrite E.
    apply span_split in E.
    destruct b as [|d b].
    { intros [= <- <- <-]. repeat split; [exact E|discriminate|cbn; tauto]. }
    destruct (Ascii.eqb d ".") eqn:Hd.
    - apply Ascii.eqb_eq in Hd. subst d.
      destruct (span is_digit b) as [b1 b2] eqn:E2. apply span_split in E2.
      intros [= <- <- <-]. repeat split; [|discriminate|cbn; tauto].
      rewrite E, E2. now rewrite !append_assoc.
    - destruct d as [[] [] [] [] [] [] [] []]; try discriminate Hd;
        intros [= <- <- <-]; (repeat split; [exact E|discriminate|cbn; tauto]). }
  destruct (is_ident_start c) eqn:Hident.
  { assert (Hchar : is_ident_char c = true) by (unfold is_ident_char; now rewrite Hident).
    destruct (span_first is_ident_char c s' Hchar) as [a [b E]]. rewrite E.
    intros [= <- <- <-]. apply span_split in E.
    repeat split; [exact E|discriminate|cbn; tauto]. }
  cbv zeta.
  repeat match goal with
         | |- (if ?b then _ else _) = _ -> _ => destruct b
         end;
    try discriminate;
    try (destruct s' as [|d s'']; [discriminate|]);
    intros [= <- <- <-]; (repeat split; [discriminate|cbn; tauto]).
Qed.

Lemma lower_upper_char c : lower_char (upper_char c) = lower_char c.
Proof. destruct c as [[] [] [] [] [] [] [] []]; reflexivity. Qed.

Lemma upper_lower_char c : upper_char (lower_char c) = upper_char c.
Proof. destruct c as [[] [] [] [] [] [] [] []]; reflexivity. Qed.

Lemma lower_lower_char c : lower_char (lower_char c) = lower_char c.
Proof. destruct c as [[] [] [] [] [] [] [] []]; reflexivity. Qed.

Lemma lower_upper s : lower (upper s) = lower s.
Proof.
  unfold lower, upper in *. induction s as [|c s IH]; [reflexivity|].
  cbn. now rewrite lower_upper_char, IH.
Qed.

Lemma upper_lower s : upper (lower s) = upper s.
Proof.
  unfold lower, upper in *. induction s as [|c s IH]; [reflexivity|].
  cbn. now rewrite upper_lower_char, IH.
Qed.

Lemma lower_lower s : lower (lower s) = lower s.
Proof.
  unfold lower, upper in *. induction s as [|c s IH]; [reflexivity|].
  cbn. now rewrite lower_lower_char, IH.
Qed.

Lemma in_list_In s l : in_list s l = true <-> In s l.
Proof.
  unfold in_list. rewrite existsb_exists. split.
  - intros [x [Hin Heq]]. apply String.eqb_eq in Heq. now subst.
  - intros Hin. exists s. split; [assumption|apply String.eqb_refl].
Qed.

Lemma table_get_In k table v : table_get k table = Some v -> In v (map snd table).
Proof.
  induction table as [|[k' v'] rest IH]; cbn; [discriminate|].
  destruct (String.eqb k k'); [intros [= <-]; now left|auto].
Qed.

(** The type of the token an identifier becomes is none of those the
    lexer keeps to itself, and is not [NEWLINE]. *)
Lemma classify_type tv : ~ In (fst (classify tv)) ("NEWLINE" :: lexer_only).
Proof.
  assert (Hforall : forall (l : list string) (P : string -> bool) x,
             forallb P l = true -> In x l -> P x = true).
  { intros l P x H. rewrite forallb_forall in H. apply H. }
  unfold classify.
  destruct (in_list tv KEYWORDS || in_list (lower tv) KEYWORDS) eqn:Hkw.
  - destruct (table_get (lower tv) KEYWORD_ALIASES) as [t|] eqn:Ht; cbn [fst].
    + apply table_get_In in Ht. intros Hbad.
      assert (Hall : forallb (fun t => negb (in_list t ("NEWLINE" :: lexer_only)))
                       (map snd KEYWORD_ALIASES) = true) by (vm_compute; reflexivity).
      apply (Hforall _ _ _ Hall) in Ht.
      apply in_list_In in Hbad. now rewrite Hbad in Ht.
    + destruct (String.eqb (lower tv) "in"); cbn [fst].
      * cbn. intuition discriminate.
      * intros Hbad.
        assert (Hlow : In (lower tv) ["newline"; "eof"; "whitespace"; "comment"]).
        { rewrite <- lower_upper.
          cbn in Hbad. destruct Hbad as [<-|[<-|[<-|[<-|[]]]]]; cbn; tauto. }
        apply orb_true_iff in Hkw as [Hkw|Hkw]; apply in_list_In in Hkw.
        -- assert (Hall : forallb (fun kw => negb (in_list (upper kw) ("NEWLINE" :: lexer_only)))
                             KEYWORDS = true) by (vm_compute; reflexivity).
           apply (Hforall _ _ _ Hall) in Hkw.
           apply in_list_In in Hbad. now rewrite Hbad in Hkw.
        -- assert (Hall : forallb
                             (fun kw => negb (in_list kw ["newline"; "eof"; "whitespace"; "comment"]))
                             KEYWORDS = true) by (vm_compute; reflexivity).
           apply (Hforall _ _ _ Hall) in Hkw.
           apply in_list_In in Hlow. now rewrite Hlow in Hkw.
  - destruct (in_list tv FUNCTIONS); [cbn; intuition discriminate|].
    destruct (table_get tv SET_ALIASES); cbn; intuition discriminate.
Qed.

Lemma tokenize_loop_ends k :
  forall s line col acc toks,
    tokenize_loop k s line col acc = inr toks ->
    exists body last,
      toks = acc ++ body ++ [last] /\
      tok_type last = "EOF" /\ tok_value last = "" /\
      Forall (fun t => ~ In (tok_type t) lexer_only) body.
Proof.
  induction k as [|k IH]; intros s line col acc toks H.
  - destruct s; [|discriminate]. injection H as <-.
    eexists [], _. repeat split. constructor.
  - destruct s as [|c s]; cbn [tokenize_loop] in H.
    { injection H as <-. eexists [], _. repeat split. constructor. }
    destruct (match_token (String c s)) as [[[t v] rest]|] eqn:Hm; [|discriminate].
    apply match_token_split in Hm as (_ & _ & Hname).
    assert (Hgrow : forall tk,
               ~ In (tok_type tk) lexer_only ->
               forall line col,
                 tokenize_loop k rest line col (acc ++ [tk]) = inr toks ->
                 exists body last,
                   toks = acc ++ body ++ [last] /\
                   tok_type last = "EOF" /\ tok_value last = "" /\
                   Forall (fun t => ~ In (tok_type t) lexer_only) body).
    { intros tk Htk line' col' H'.
      destruct (IH _ _ _ _ _ H') as (body & last & -> & Hty & Hval & Hbody).
      exists (tk :: body), last. rewrite <- app_assoc. repeat split; try assumption.
      now constructor. }
    destruct (String.eqb t "NEWLINE") eqn:Hnl.
    { eapply Hgrow; [|exact H]. cbn. intuition discriminate. }
    destruct (String.eqb t "WHITESPACE" || String.eqb t "COMMENT") eqn:Hskip.
    { eapply IH; exact H. }
    destruct (String.eqb t "IDENT").
    { destruct (classify v) as [t' v'] eqn:Hc. eapply Hgrow; [|exact H].
      cbn [tok_type]. intros Hbad. apply (classify_type v). rewrite Hc. now right. }
    eapply Hgrow; [|exact H]. cbn [tok_type].
    apply orb_false_iff in Hskip as [Hws Hcm].
    apply String.eqb_neq in Hws, Hcm.
    intros [<-|[<-|[<-|[]]]]; try congruence.
    cbn in Hname. intuition discriminate.
Qed.

Lemma length_append (a b : string) :
  String.length (a +:+ b) = String.length a + String.length b.
Proof. induction a as [|c a IH]; [reflexivity|]. rewrite append_cons. cbn. now rewrite IH. Qed.

Lemma tokenize_loop_error k :
  forall s line col acc e,
    tokenize_loop k s line col acc = inl e ->
    String.length s <= k ->
    pe_message e = "Unexpected character" /\
    exists before rest,
      s = before +:+ rest /\ rest <> "" /\ match_token rest = None.
Proof.
  induction k as [|k IH]; intros s line col acc e H Hlen.
  - destruct s; [discriminate|]. cbn in Hlen. lia.
  - destruct s as [|c s]; [discriminate|]. cbn [tokenize_loop] in H.
    destruct (match_token (String c s)) as [[[t v] rest]|] eqn:Hm.
    2:{ injection H as <-. split; [reflexivity|].
        exists "", (String c s). repeat split; [discriminate|assumption]. }
    apply match_token_split in Hm as (Hs & Hv & _).
    assert (Hrest : String.length rest <= k).
    { apply (f_equal String.length) in Hs. rewrite length_append in Hs.
      destruct v; [congruence|]. cbn in Hs, Hlen. lia. }
    assert (Hgo : forall line col acc,
               tokenize_loop k rest line col acc = inl e ->
               pe_message e = "Unexpected character" /\
               exists before rest0,
                 String c s = before +:+ rest0 /\ rest0 <> "" /\ match_token rest0 = None).
    { intros line' col' acc' H'.
      destruct (IH _ _ _ _ _ H' Hrest) as (Hmsg & before & rest0 & -> & Hne & Hnone).
      split; [assumption|].
      exists (v +:+ before), rest0. rewrite Hs, append_assoc. auto. }
    destruct (String.eqb t "NEWLINE"); [eapply Hgo; exact H|].
    destruct (String.eqb t "WHITESPACE" || String.eqb t "COMMENT"); [eapply Hgo; exact H|].
    destruct (String.eqb t "IDENT"); [|eapply Hgo; exact H].
    destruct (classify v). eapply Hgo; exact H.
Qed.

(** X13.  The token list that [tokenize] returns is never empty and
    ends with the only [EOF] token it holds; white space and comments
    leave no token. *)
Theorem tokens_end_with_EOF source toks :
  tokenize source = inr toks ->
  exists body last,
    toks = body ++ [last] /\ tok_type last = "EOF" /\ tok_value last = "" /\
    Forall (fun t => ~ In (tok_type t) lexer_only) body.
Proof. intros H. exact (tokenize_loop_ends _ _ _ _ _ _ H). Qed.

(** X14.  [tokenize] raises only where no token pattern matches:
    when it raises, the source splits into a part it has read and a rest,
    not empty, at whose start none of the patterns matches. *)
Theorem lexer_error_at_unmatched source e :
  tokenize source = inl e ->
  pe_message e = "Unexpected character" /\
  exists before rest,
    source = before +:+ rest /\ rest <> "" /\ match_token rest = None.
Proof. intros H. eapply tokenize_loop_error; [exact H|lia]. Qed.

(** X15.  Keywords are recognised whatever the case of their letters:
    an identifier whose lower-case form is a keyword becomes the token
    type of that form, and keeps its spelling as the value. *)
Theorem keywords_ignore_case s :
  in_list (lower s) KEYWORDS = true ->
  fst (classify s) = fst (classify (lower s)) /\ snd (classify s) = s /\
  fst (classify s) <> "IDENT".
Proof.
  intros Hkw. unfold classify. rewrite lower_lower, Hkw, !orb_true_r.
  destruct (table_get (lower s) KEYWORD_ALIASES) as [t|] eqn:Ht; cbn [fst snd].
  - repeat split. apply table_get_In in Ht. intros ->.
    revert Ht. cbn. intuition discriminate.
  - destruct (String.eqb (lower s) "in"); cbn [fst snd]; repeat split;
      [discriminate|now rewrite upper_lower|].
    intros Hup. apply in_list_In in Hkw.
    assert (Hlow : lower s = "ident") by now rewrite <- lower_upper, Hup.
    rewrite Hlow in Hkw. cbn in Hkw. intuition discriminate.
Qed.

(** * The parser: what the methods keep and what they add *)

Section outcomes.
Variables Rok Rerr : Parser -> Parser -> Prop.
Hypothesis Rok_refl : forall st, Rok st st.
Hypothesis Rerr_refl : forall st, Rerr st st.
Hypothesis Rok_trans : forall a b c, Rok a b -> Rok b c -> Rok a c.
Hypothesis Rerr_after : forall a b c, Rok a b -> Rerr b c -> Rerr a c.

Lemma outcome_pret {A : Type} (a : A) : outcome Rok Rerr (pret a).
Proof. intros st. apply Rok_refl. Qed.

Lemma outcome_praise {A : Type} e : outcome Rok Rerr (@praise A e).
Proof. intros st. apply Rerr_refl. Qed.

Lemma outcome_pget : outcome Rok Rerr pget.
Proof. intros st. apply Rok_refl. Qed.

Lemma outcome_current : outcome Rok Rerr current.
Proof. intros st. apply Rok_refl. Qed.

Lemma outcome_fuel {A : Type} : outcome Rok Rerr (fun _ : Parser => @PFuel A).
Proof. intros st. exact I. Qed.

Lemma outcome_pmodify f : (forall st, Rok st (f st)) -> outcome Rok Rerr (pmodify f).
Proof. intros H st. apply H. Qed.

Lemma outcome_advance : (forall st, Rok st (advanced st)) -> outcome Rok Rerr advance.
Proof. intros H st. apply H. Qed.

Lemma outcome_expect t : (forall st, Rok st (advanced st)) -> outcome Rok Rerr (expect t).
Proof.
  intros H st. unfold expect. destruct (String.eqb _ _); [apply H|apply Rerr_refl].
Qed.

Lemma outcome_pbind {A B : Type} (m : PM A) (k : A -> PM B) :
  outcome Rok Rerr m -> (forall a, outcome Rok Rerr (k a)) -> outcome Rok Rerr (pbind m k).
Proof.
  intros Hm Hk st. unfold pbind. specialize (Hm st).
  destruct (m st) as [a st'|e st'|]; [|assumption|exact I].
  specialize (Hk a st').
  destruct (k a st') as [b st''|e st''|]; [| |exact I]; eauto.
Qed.

Lemma outcome_while_cond {A : Type} k cond (body : A -> PM A) :
  (forall acc, outcome Rok Rerr (body acc)) ->
  forall acc, outcome Rok Rerr (while_cond k cond body acc).
Proof.
  intros Hb. induction k as [|k IH]; intros acc st; simpl; [exact I|].
  destruct (cond st); [|apply Rok_refl].
  specialize (Hb acc st).
  destruct (body acc st) as [acc' st'|e st'|]; [|assumption|exact I].
  specialize (IH acc' st').
  destruct (while_cond k cond body acc' st') as [r st''|e st''|]; [| |exact I]; eauto.
Qed.

Lemma outcome_skip_newlines :
  (forall st, Rok st (advanced st)) -> outcome Rok Rerr skip_newlines.
Proof.
  intros H st. unfold skip_newlines. generalize (S (length (tokens st))). intros k.
  assert (Hloop : forall st0, match skip_newlines_loop k st0 with
                              | POk _ st' => Rok st0 st'
                              | PErr _ st' => Rerr st0 st'
                              | PFuel => True
                              end).
  { induction k as [|k IH]; intros st0; cbn [skip_newlines_loop]; [exact I|].
    destruct (matches ["NEWLINE"] st0); [|apply Rok_refl].
    specialize (IH (advanced st0)).
    destruct (skip_newlines_loop k (advanced st0)); [| |exact I]; eauto. }
  apply Hloop.
Qed.

End outcomes.

Lemma outcome_weaken (Rok Rerr Rok' Rerr' : Parser -> Parser -> Prop)
  {A : Type} (m : PM A) :
  (forall a b, Rok a b -> Rok' a b) -> (forall a b, Rerr a b -> Rerr' a b) ->
  outcome Rok Rerr m -> outcome Rok' Rerr' m.
Proof.
  intros Hok Herr H st. specialize (H st). destruct (m st); auto.
Qed.

Lemma grows_refl st : grows st st.
Proof. unfold grows. repeat split; reflexivity. Qed.

Lemma grows_trans a b c : grows a b -> grows b c -> grows a c.
Proof.
  unfold grows. intros (?&?&?&?&?&?&?&?&?) (?&?&?&?&?&?&?&?&?).
  repeat split; try congruence; try lia; etrans; eassumption.
Qed.

Lemma adds_refl st : adds st st.
Proof. split; [apply grows_refl|reflexivity]. Qed.

Lemma adds_trans a b c : adds a b -> adds b c -> adds a c.
Proof.
  intros [? ?] [? ?]. split; [eapply grows_trans; eassumption|etrans; eassumption].
Qed.

Lemma adds_then_grows a b c : adds a b -> grows b c -> grows a c.
Proof. intros [? _] ?. eapply grows_trans; eassumption. Qed.

Lemma frame_adds st st' :
  frame st st' -> pos st <= pos st' -> variables st ⊆ variables st' -> adds st st'.
Proof.
  unfold frame, adds, grows. intros (?&Ha&Hs&?&Ht&Hth&?&Hi&?) ? ?.
  rewrite Ha, Hs, Ht, Hth, Hi. repeat split; try assumption; reflexivity.
Qed.

Lemma adds_advanced st : adds st (advanced st).
Proof. apply frame_adds; [apply frame_advanced|unfold advanced; cbn; lia|reflexivity]. Qed.

Lemma grows_advanced st : grows st (advanced st).
Proof. apply adds_advanced. Qed.

(** The side conditions of the lemmas on [outcome]. *)
Ltac outcome_side :=
  solve [ exact adds_refl | exact grows_refl | exact adds_trans | exact grows_trans
        | exact adds_then_grows | exact adds_advanced | exact grows_advanced ].

(** An assignment to a field that only adds to it. *)
Ltac only_adds :=
  let st := fresh "st" in
  intros st; unfold adds, grows; cbn;
  repeat split; try reflexivity; try lia; try set_solver;
  try (apply prefix_app_r; reflexivity).

(** Goes through a method built from the pieces above. *)
Ltac outcome_step Rok Rerr :=
  first
    [ assumption
    | apply (outcome_pret Rok Rerr ltac:(outcome_side))
    | apply (outcome_praise Rok Rerr ltac:(outcome_side))
    | apply (outcome_pget Rok Rerr ltac:(outcome_side))
    | apply (outcome_current Rok Rerr ltac:(outcome_side))
    | apply (outcome_fuel Rok Rerr)
    | apply (outcome_advance Rok Rerr ltac:(outcome_side))
    | apply (outcome_expect Rok Rerr ltac:(outcome_side) _ ltac:(outcome_side))
    | apply (outcome_skip_newlines Rok Rerr ltac:(outcome_side) ltac:(outcome_side)
               ltac:(outcome_side) ltac:(outcome_side))
    | apply (outcome_pmodify Rok Rerr); only_adds
    | apply (outcome_pbind Rok Rerr ltac:(outcome_side) ltac:(outcome_side)); [|intros ?]
    | apply (outcome_while_cond Rok Rerr ltac:(outcome_side) ltac:(outcome_side)
               ltac:(outcome_side)); intros ?
    | match goal with
      | |- outcome _ _ (if ?c then _ else _) => destruct c
      | |- outcome _ _ (match ?x with _ => _ end) => destruct x
      | |- outcome _ _ (let '(_, _) := ?x in _) => destruct x
      end ].

(** The formula methods add to the variables and move the position on,
    whether they return or raise. *)
Lemma parse_methods_add n :
  outcome adds adds (parse_formula n) /\ outcome adds adds (parse_implies n) /\
  outcome adds adds (parse_or n) /\ outcome adds adds (parse_and n) /\
  outcome adds adds (parse_not n) /\ outcome adds adds (parse_quantifier n) /\
  outcome adds adds (parse_relation n) /\ outcome adds adds (parse_expr n) /\
  outcome adds adds (parse_term n) /\ outcome adds adds (parse_power n) /\
  outcome adds adds (parse_unary n) /\ outcome adds adds (parse_atom n).
Proof.
  induction n as [|n IH].
  - repeat split; apply outcome_fuel.
  - destruct IH as (Hf & Hi & Ho & Ha & Hn & Hq & Hr & He & Ht & Hp & Hu & Hat).
    repeat split; cbn [parse_formula parse_implies parse_or parse_and parse_not
                       parse_quantifier parse_relation parse_expr parse_term
                       parse_power parse_unary parse_atom];
      unfold while_match, add_variable; repeat outcome_step adds adds.
Qed.

Lemma adds_grows a b : adds a b -> grows a b.
Proof. now intros [? _]. Qed.

Lemma outcome_formula n : outcome adds grows (parse_formula n).
Proof.
  eapply outcome_weaken; [| |exact (proj1 (parse_methods_add n))]; auto using adds_grows.
Qed.

Lemma outcome_expr n : outcome adds grows (parse_expr n).
Proof.
  eapply outcome_weaken; [| |
    exact (proj1 (proj2 (proj2 (proj2 (proj2 (proj2 (proj2 (proj2
             (parse_methods_add n)))))))))]; auto using adds_grows.
Qed.

Lemma outcome_parse_let (pe : PM json) :
  outcome adds grows pe -> outcome adds grows (parse_let pe).
Proof. intros H. unfold parse_let. repeat outcome_step adds grows. Qed.

Lemma outcome_parse_apply tok : outcome adds grows (parse_apply tok).
Proof. unfold parse_apply. repeat outcome_step adds grows. Qed.

Lemma outcome_parse_cases (pf : PM json) :
  outcome adds grows pf -> outcome adds grows (parse_cases pf).
Proof.
  intros H. unfold parse_cases. cbv zeta. unfold while_match.
  repeat outcome_step adds grows.
Qed.

Lemma outcome_statements_loop (Rok Rerr : Parser -> Parser -> Prop) (ps : PM unit) :
  (forall st, Rok st st) -> (forall a b c, Rok a b -> Rok b c -> Rok a c) ->
  (forall a b c, Rok a b -> Rerr b c -> Rerr a c) ->
  (forall st, Rok st (advanced st)) ->
  outcome Rok Rerr ps -> outcome Rok Rerr (statements_loop ps).
Proof.
  intros Hrefl Htrans Hafter Hadv H st. unfold statements_loop.
  apply outcome_while_cond; try assumption. intros _.
  apply outcome_pbind; try assumption. intros _.
  now apply outcome_skip_newlines.
Qed.

(** An import changes the theorems and the imported paths only, and only
    by adding to them. *)
Lemma outcome_import_file fs (ps : PM unit) path tok :
  outcome adds grows ps -> outcome adds grows (import_file fs ps path tok).
Proof.
  intros H st. unfold import_file.
  destruct (load_tokens fs path) as [toks|]; [|apply grows_refl].
  set (lib0 := set_imported_files _ _).
  assert (Hrun : outcome grows grows (skip_newlines ;;; statements_loop ps)).
  { apply outcome_pbind; try outcome_side.
    - apply outcome_skip_newlines; outcome_side.
    - intros _. apply outcome_statements_loop; try outcome_side.
      eapply outcome_weaken; [| |exact H]; auto using adds_grows. }
  specialize (Hrun lib0).
  destruct ((skip_newlines ;;; statements_loop ps) lib0) as [[] lib|e lib|]; [| |exact I].
  - destruct Hrun as (_&_&_&_&_&_&_&_&Himp).
    unfold adds, grows. cbn. repeat split; try reflexivity; [set_solver|exact Himp].
  - destruct Hrun as (_&_&_&_&_&_&_&_&Himp).
    unfold grows. cbn. repeat split; try reflexivity. exact Himp.
Qed.

(** The statement methods.  Whether they return or raise, they leave the
    tokens, the base path and the error list alone, and only add to the
    variables, the steps, the typed names, the theorems and the imported
    paths.  When they return, the assumptions from before are still
    there. *)
Lemma statement_methods_add fs n :
  outcome adds grows (parse_statement fs n) /\
  outcome adds grows (parse_theorem fs n) /\
  outcome adds grows (parse_import fs n).
Proof.
  induction n as [|n IH].
  - repeat split; apply outcome_fuel.
  - destruct IH as (Hs & Ht & Hi).
    pose proof (outcome_formula n) as Hf.
    pose proof (outcome_parse_let _ (outcome_expr n)) as Hlet.
    pose proof (outcome_parse_cases _ Hf) as Hcases.
    pose proof (outcome_parse_apply) as Happly.
    pose proof (fun p t => outcome_import_file fs _ p t Hs) as Himp.
    assert (Hsg : outcome grows grows (parse_statement fs n)).
    { eapply outcome_weaken; [| |exact Hs]; auto using adds_grows. }
    repeat split; cbn [parse_statement parse_theorem parse_import].
    + repeat outcome_step adds grows.
    + do 4 (apply (outcome_pbind adds grows ltac:(outcome_side) ltac:(outcome_side));
            [repeat outcome_step adds grows|intros ?]).
      intros st. rewrite pbind_pget.
      lazymatch goal with
      | |- match ?m st with _ => _ end =>
          assert (Hg : outcome grows grows m) by (repeat outcome_step grows grows);
          specialize (Hg st); destruct (m st) as [[] st'|e st'|] eqn:E;
          [|exact Hg|exact I]
      end.
      split; [exact Hg|].
      unfold pbind, pmodify, pget in E.
      destruct (while_cond _ _ _ _ _) as [[] st1|e st1|]; try discriminate E.
      destruct (claim st1); [|discriminate E].
      injection E as <-. reflexivity.
    + repeat outcome_step adds grows. apply Himp.
Qed.

(** ** Every method that returns has consumed a token *)

Lemma consumes_bind_first {A B : Type} (m : PM A) (k : A -> PM B) :
  consumes m -> (forall a, outcome grows grows (k a)) -> consumes (pbind m k).
Proof.
  intros Hm Hk st b st' H. unfold pbind in H.
  destruct (m st) as [a st1|e st1|] eqn:E; try discriminate H.
  apply Hm in E. specialize (Hk a st1). rewrite H in Hk.
  destruct Hk as (_&_&_&Hpos&_). lia.
Qed.

Lemma consumes_advance : consumes advance.
Proof. intros st a st' [= _ <-]. unfold advanced. cbn. lia. Qed.

Lemma consumes_expect t : consumes (expect t).
Proof.
  intros st a st' H. unfold expect in H.
  destruct (String.eqb _ _); [|discriminate H]. now apply consumes_advance in H.
Qed.

Lemma consumes_pget_bind {B : Type} (k : Parser -> PM B) :
  (forall s, consumes (k s)) -> consumes (pbind pget k).
Proof. intros Hk st b st' H. exact (Hk st st b st' H). Qed.

Lemma consumes_current_bind {B : Type} (k : Token -> PM B) :
  (forall t, consumes (k t)) -> consumes (pbind current k).
Proof. intros Hk st b st' H. exact (Hk _ st b st' H). Qed.

Lemma consumes_praise {A : Type} e : consumes (@praise A e).
Proof. intros st a st' H. discriminate H. Qed.

Lemma consumes_fuel {A : Type} : consumes (fun _ : Parser => @PFuel A).
Proof. intros st a st' H. discriminate H. Qed.

Ltac consumes_step :=
  lazymatch goal with
  | H : consumes ?m |- consumes ?m => exact H
  | |- consumes (praise _) => apply consumes_praise
  | |- consumes (fun _ => PFuel) => apply consumes_fuel
  | |- consumes (pbind pget _) => apply consumes_pget_bind; intros ?
  | |- consumes (pbind current _) => apply consumes_current_bind; intros ?
  | |- consumes (pbind _ _) =>
      apply consumes_bind_first;
      [ first [assumption | apply consumes_advance | apply consumes_expect]
      | intros ?; repeat outcome_step grows grows ]
  | |- consumes (if ?c then _ else _) => destruct c
  | |- consumes (match ?x with _ => _ end) => destruct x
  end.

Lemma parse_methods_grow n :
  outcome grows grows (parse_formula n) /\ outcome grows grows (parse_implies n) /\
  outcome grows grows (parse_or n) /\ outcome grows grows (parse_and n) /\
  outcome grows grows (parse_not n) /\ outcome grows grows (parse_quantifier n) /\
  outcome grows grows (parse_relation n) /\ outcome grows grows (parse_expr n) /\
  outcome grows grows (parse_term n) /\ outcome grows grows (parse_power n) /\
  outcome grows grows (parse_unary n) /\ outcome grows grows (parse_atom n).
Proof.
  destruct (parse_methods_add n) as (Hf & Hi & Ho & Ha & Hn & Hq & Hr & He & Ht & Hp & Hu & Hat).
  repeat split; (eapply outcome_weaken; [| |eassumption]; auto using adds_grows).
Qed.

Lemma parse_methods_consume n :
  consumes (parse_formula n) /\ consumes (parse_implies n) /\
  consumes (parse_or n) /\ consumes (parse_and n) /\
  consumes (parse_not n) /\ consumes (parse_quantifier n) /\
  consumes (parse_relation n) /\ consumes (parse_expr n) /\
  consumes (parse_term n) /\ consumes (parse_power n) /\
  consumes (parse_unary n) /\ consumes (parse_atom n).
Proof.
  induction n as [|n IH].
  - repeat split; apply consumes_fuel.
  - destruct IH as (Hf & Hi & Ho & Ha & Hn & Hq & Hr & He & Ht & Hp & Hu & Hat).
    destruct (parse_methods_grow n)
      as (Gf & Gi & Go & Ga & Gn & Gq & Gr & Ge & Gt & Gp & Gu & Gat).
    repeat split; cbn [parse_formula parse_implies parse_or parse_and parse_not
                       parse_quantifier parse_relation parse_expr parse_term
                       parse_power parse_unary parse_atom];
      cbv zeta; unfold while_match, add_variable; repeat consumes_step.
Qed.

Lemma statement_methods_consume fs n :
  consumes (parse_statement fs n) /\ consumes (parse_theorem fs n) /\
  consumes (parse_import fs n).
Proof.
  induction n as [|n IH].
  - repeat split; apply consumes_fuel.
  - destruct IH as (Hs & Ht & Hi).
    destruct (parse_methods_grow n) as (Gf & _ & _ & _ & _ & _ & _ & Ge & _).
    destruct (statement_methods_add fs n) as (As & _ & _).
    assert (Gs : outcome grows grows (parse_statement fs n)).
    { eapply outcome_weaken; [| |exact As]; auto using adds_grows. }
    assert (Glet : outcome grows grows (parse_let (parse_expr n))).
    { eapply outcome_weaken; [| |exact (outcome_parse_let _ (outcome_expr n))];
        auto using adds_grows. }
    assert (Gimp : forall p t,
               outcome grows grows (import_file fs (parse_statement fs n) p t)).
    { intros p t. eapply outcome_weaken; [| |exact (outcome_import_file fs _ p t As)];
        auto using adds_grows. }
    repeat split; cbn [parse_statement parse_theorem parse_import];
      cbv zeta; unfold parse_apply, parse_cases, while_match;
      repeat consumes_step; apply Gimp.
Qed.

(** * The parser records the names it reads *)

Lemma names_in_cons x l : names_in (x :: l) = names_of x ∪ names_in l.
Proof. reflexivity. Qed.

Lemma names_in_app l x : names_in (l ++ [x]) ≡ names_in l ∪ names_of x.
Proof.
  induction l as [|y l IH]; [rewrite app_nil_l, names_in_cons|].
  - unfold names_in at 1 2. cbn [names_of]. set_solver.
  - rewrite <- app_comm_cons, !names_in_cons, IH. set_solver.
Qed.

Lemma names_var x : names_of (var x) ≡ {[x]}.
Proof. cbn [names_of var String.eqb Ascii.eqb Bool.eqb]. set_solver. Qed.

Lemma names_num v : names_of (num v) ≡ ∅.
Proof. cbn [names_of num num_val String.eqb Ascii.eqb Bool.eqb]. set_solver. Qed.

Lemma names_binary op l r : names_of (binary op l r) ≡ names_of l ∪ names_of r.
Proof. cbn [names_of binary String.eqb Ascii.eqb Bool.eqb]. set_solver. Qed.

Lemma names_rel op l r : names_of (rel op l r) ≡ names_of l ∪ names_of r.
Proof. cbn [names_of rel String.eqb Ascii.eqb Bool.eqb]. set_solver. Qed.

Lemma names_implies l r : names_of (implies l r) ≡ names_of l ∪ names_of r.
Proof. cbn [names_of implies String.eqb Ascii.eqb Bool.eqb]. set_solver. Qed.

Lemma names_not a : names_of (logical_not a) ≡ names_of a.
Proof. cbn [names_of logical_not String.eqb Ascii.eqb Bool.eqb]. set_solver. Qed.

Lemma names_conj args : names_of (conj args) ≡ names_in args.
Proof. unfold names_in. cbn [names_of conj String.eqb Ascii.eqb Bool.eqb]. set_solver. Qed.

Lemma names_disj args : names_of (disj args) ≡ names_in args.
Proof. unfold names_in. cbn [names_of disj String.eqb Ascii.eqb Bool.eqb]. set_solver. Qed.

Lemma names_abs a : names_of (abs_term a) ≡ names_of a.
Proof. cbn [names_of abs_term String.eqb Ascii.eqb Bool.eqb]. set_solver. Qed.

Lemma names_sqrt a : names_of (sqrt_term a) ≡ names_of a.
Proof. cbn [names_of sqrt_term String.eqb Ascii.eqb Bool.eqb]. set_solver. Qed.

Lemma names_neg a : names_of (neg_term a) ≡ names_of a.
Proof. cbn [names_of neg_term String.eqb Ascii.eqb Bool.eqb]. set_solver. Qed.

Lemma names_pow b e : names_of (pow_term b e) ≡ names_of b ∪ names_of e.
Proof. cbn [names_of pow_term String.eqb Ascii.eqb Bool.eqb]. set_solver. Qed.

Lemma names_min_max kind args : names_of (min_max_term kind args) ≡ names_in args.
Proof.
  unfold names_in. cbn [names_of min_max_term String.eqb Ascii.eqb Bool.eqb]. set_solver.
Qed.

Lemma names_quantified kind vars body :
  names_of (quantified kind vars body) ≡ list_to_set vars ∪ names_of body.
Proof.
  cbn [names_of quantified String.eqb Ascii.eqb Bool.eqb].
  assert (H : (fix strings (l : list json) : gset string :=
                 match l with
                 | [] => ∅
                 | JStr s :: l' => {[s]} ∪ strings l'
                 | _ :: l' => strings l'
                 end) (map JStr vars) ≡ list_to_set vars).
  { induction vars as [|v vars IH]; cbn [map list_to_set]; [reflexivity|].
    now rewrite IH. }
  rewrite H. set_solver.
Qed.

Lemma triple_bind {A B : Type} P (m : PM A) Q1 (k : A -> PM B) Q :
  triple P m Q1 -> (forall a, triple (Q1 a) (k a) Q) -> triple P (pbind m k) Q.
Proof.
  intros Hm Hk st HP. unfold pbind. specialize (Hm st HP).
  destruct (m st) as [a st'|e st'|]; [|exact I|exact I]. exact (Hk a st' Hm).
Qed.

Lemma triple_pret {A : Type} (P : Parser -> Prop) (a : A) (Q : A -> Parser -> Prop) :
  (forall st, P st -> Q a st) -> triple P (pret a) Q.
Proof. intros H st HP. exact (H st HP). Qed.

Lemma triple_praise {A : Type} P e (Q : A -> Parser -> Prop) : triple P (praise e) Q.
Proof. intros st HP. exact I. Qed.

Lemma triple_fuel {A : Type} P (Q : A -> Parser -> Prop) : triple P (fun _ => PFuel) Q.
Proof. intros st HP. exact I. Qed.

Lemma triple_pget (P : Parser -> Prop) : triple P pget (fun _ => P).
Proof. intros st HP. exact HP. Qed.

Lemma triple_pure {A : Type} (P : Parser -> Prop) (fact : Prop) (m : PM A) Q :
  (fact -> triple P m Q) -> triple (fun st => P st /\ fact) m Q.
Proof. intros H st [HP Hfact]. exact (H Hfact st HP). Qed.

Lemma triple_pre {A : Type} (P P' : Parser -> Prop) (m : PM A) Q :
  (forall st, P st -> P' st) -> triple P' m Q -> triple P m Q.
Proof. intros H Hm st HP. exact (Hm st (H st HP)). Qed.

Lemma triple_while {A : Type} (Inv : A -> Parser -> Prop) k cond (body : A -> PM A) :
  (forall acc, triple (Inv acc) (body acc) Inv) ->
  forall acc, triple (Inv acc) (while_cond k cond body acc) Inv.
Proof.
  intros Hb. induction k as [|k IH]; intros acc st HI; cbn [while_cond]; [exact I|].
  destruct (cond st); [|exact HI].
  specialize (Hb acc st HI).
  destruct (body acc st) as [acc' st'|e st'|]; [|exact I|exact I].
  exact (IH acc' st' Hb).
Qed.

(** The methods that do not touch the variables. *)
Lemma sees_pget V : triple (sees V) pget (fun _ => sees V).
Proof. intros st H. exact H. Qed.

Lemma sees_current V : triple (sees V) current (fun _ => sees V).
Proof. intros st H. exact H. Qed.

Lemma sees_advance V : triple (sees V) advance (fun _ => sees V).
Proof. intros st H. exact H. Qed.

Lemma sees_expect V t : triple (sees V) (expect t) (fun _ => sees V).
Proof. intros st H. unfold expect. destruct (String.eqb _ _); [exact H|exact I]. Qed.

Lemma sees_add V (W : gset string) :
  triple (sees V) (pmodify (fun st => set_variables (W ∪ variables st) st))
         (fun _ => sees (V ∪ W)).
Proof. intros st H. unfold sees in *. cbn. set_solver. Qed.


(** The last step of a method: the names of the AST it builds are among
    those recorded. *)
Ltac names_done :=
  let st := fresh "st" in
  let H := fresh "H" in
  apply triple_pret; intros st H; unfold sees in *;
  cbn [fst snd] in *;
  rewrite ?names_in_app in *; unfold names_in in *;
  cbn [names_of var num num_val binary rel implies logical_not conj disj abs_term
       sqrt_term neg_term pow_term min_max_term String.eqb Ascii.eqb Bool.eqb] in *;
  set_solver.

Ltac then_ := eapply triple_bind; [|intros ?].

(** A loop that collects ASTs in a list. *)
Lemma records_list_loop V k types (item : PM json) (first : list json) :
  records_spec item ->
  triple (sees (V ∪ names_in first))
    (while_match k types (fun args => advance ;;; x <- item ;; pret (args ++ [x])) first)
    (fun args => sees (V ∪ names_in args)).
Proof.
  intros Hitem. unfold while_match.
  apply (triple_while (fun args => sees (V ∪ names_in args))).
  intros args. then_; [apply sees_advance|]. then_; [apply Hitem|]. names_done.
Qed.

(** A loop that folds a binary operator over the operands. *)
Lemma records_fold_loop V k types (item : PM json) (op : Token -> string) (left : json) :
  records_spec item ->
  triple (sees (V ∪ names_of left))
    (while_match k types
       (fun left => tok <- advance ;; right <- item ;; pret (binary (op tok) left right))
       left)
    (fun a => sees (V ∪ names_of a)).
Proof.
  intros Hitem. unfold while_match.
  apply (triple_while (fun a => sees (V ∪ names_of a))).
  intros acc. then_; [apply sees_advance|]. then_; [apply Hitem|]. names_done.
Qed.

Lemma parse_methods_record n :
  records_spec (parse_formula n) /\ records_spec (parse_implies n) /\
  records_spec (parse_or n) /\ records_spec (parse_and n) /\
  records_spec (parse_not n) /\ records_spec (parse_quantifier n) /\
  records_spec (parse_relation n) /\ records_spec (parse_expr n) /\
  records_spec (parse_term n) /\ records_spec (parse_power n) /\
  records_spec (parse_unary n) /\ records_spec (parse_atom n).
Proof.
  induction n as [|n IH].
  - repeat split; intros V; apply triple_fuel.
  - destruct IH as (Hf & Hi & Ho & Ha & Hn & Hq & Hr & He & Ht & Hp & Hu & Hat).
    repeat split; intros V;
      cbn [parse_formula parse_implies parse_or parse_and parse_not
           parse_quantifier parse_relation parse_expr parse_term
           parse_power parse_unary parse_atom]; cbv zeta.
    + apply Hi.
    + then_; [apply Ho|]. then_; [apply sees_pget|].
      destruct (matches _ _); [|names_done].
      then_; [apply sees_advance|]. then_; [apply Hi|]. names_done.
    + then_; [apply Ha|]. then_.
      { eapply triple_pre; [|apply (records_list_loop V _ _ _ _ Ha)].
        intros st H. unfold sees, names_in in *. cbn [names_of]. set_solver. }
      destruct a0 as [|x [|y l]]; names_done.
    + then_; [apply Hn|]. then_.
      { eapply triple_pre; [|apply (records_list_loop V _ _ _ _ Hn)].
        intros st H. unfold sees, names_in in *. cbn [names_of]. set_solver. }
      destruct a0 as [|x [|y l]]; names_done.
    + then_; [apply sees_pget|]. destruct (matches _ _); [|apply Hq].
      then_; [apply sees_advance|]. then_; [apply Hn|]. names_done.
    + then_; [apply sees_pget|]. destruct (matches _ _); [|apply Hr].
      then_; [apply sees_advance|]. then_; [apply sees_expect|].
      then_.
      { unfold while_match. apply (triple_while (fun _ : list string => sees V)).
        intros names. then_; [apply sees_advance|]. then_; [apply sees_expect|].
        apply triple_pret. auto. }
      then_; [apply sees_expect|]. then_; [apply sees_add|].
      then_; [apply Hf|].
      apply triple_pret. intros st H. unfold sees in *. rewrite names_quantified. set_solver.
    + then_; [apply He|]. then_; [apply sees_pget|].
      destruct (negb _); [names_done|].
      then_.
      { unfold while_match.
        eapply triple_pre;
          [|apply (triple_while
                     (fun acc : list json * json =>
                        sees (V ∪ names_in (fst acc) ∪ names_of (snd acc))))].
        - intros st H. unfold sees, names_in in *. cbn [fst snd names_of]. set_solver.
        - intros [comparisons current_left]. cbn [fst snd].
          then_; [apply sees_advance|]. then_; [apply He|]. names_done. }
      destruct a1 as [comparisons last]. cbn [fst].
      destruct comparisons as [|x [|y l]]; names_done.
    + then_; [apply Ht|]. apply (records_fold_loop V _ _ _ _ _ Ht).
    + then_; [apply Hp|]. apply (records_fold_loop V _ _ _ _ _ Hp).
    + then_; [apply Hu|]. then_; [apply sees_pget|].
      destruct (matches _ _); [|names_done].
      then_; [apply sees_advance|]. then_; [apply Hp|]. names_done.
    + then_; [apply sees_pget|]. destruct (matches _ _); [|apply Hat].
      then_; [apply sees_advance|]. then_; [apply Hu|]. names_done.
    + then_; [apply sees_current|].
      repeat match goal with
             | |- triple _ (if ?c then _ else _) _ => destruct c
             end.
      * then_; [apply sees_advance|]. names_done.
      * then_; [apply sees_advance|]. unfold add_variable.
        then_; [apply (sees_add V {[tok_value a]})|]. names_done.
      * then_; [apply sees_advance|]. then_; [apply sees_expect|].
        then_; [apply He|]. then_.
        { eapply triple_pre; [|apply (records_list_loop V _ _ _ _ He)].
          intros st H. unfold sees, names_in in *. cbn [names_of]. set_solver. }
        then_; [apply sees_expect|].
        repeat match goal with
               | |- triple _ (if ?c then _ else _) _ => destruct c
               | |- triple _ (match ?x with _ => _ end) _ => destruct x
               | |- triple _ (praise _) _ => apply triple_praise
               end; names_done.
      * then_; [apply sees_advance|]. then_; [apply Hf|].
        then_; [apply sees_expect|]. names_done.
      * then_; [apply sees_advance|]. then_; [apply He|].
        then_; [apply sees_expect|]. names_done.
      * then_; [apply sees_advance|]. names_done.
      * then_; [apply sees_advance|]. names_done.
      * apply triple_praise.
Qed.

(** * The loops over tokens come to an end *)

Lemma ahead_advanced j st : ahead j (advanced st) = advanced (ahead j st).
Proof. induction j as [|j IH]; cbn [ahead]; [reflexivity|now rewrite IH]. Qed.

(** Past the end of the token list the current token is the last one. *)
Lemma current_tok_past_end st :
  length (tokens st) <= pos st -> current_tok st = List.last (tokens st) EOF_token.
Proof. intros H. unfold current_tok. now apply nth_overflow. Qed.

Lemma matches_past_end types st :
  length (tokens st) <= pos st ->
  matches types st = in_types (tok_type (List.last (tokens st) EOF_token)) types.
Proof. intros H. unfold matches. now rewrite current_tok_past_end. Qed.

Lemma skip_newlines_loop_ends k :
  forall st,
    tok_type (List.last (tokens st) EOF_token) <> "NEWLINE" ->
    length (tokens st) - pos st < k ->
    exists j,
      skip_newlines_loop k st = POk tt (ahead j st) /\
      matches ["NEWLINE"] (ahead j st) = false /\
      forall i, i < j -> matches ["NEWLINE"] (ahead i st) = true.
Proof.
  induction k as [|k IH]; intros st Hlast Hk; [lia|].
  cbn [skip_newlines_loop].
  destruct (matches ["NEWLINE"] st) eqn:Hnl.
  - assert (Hpos : pos st < length (tokens st)).
    { destruct (Nat.lt_ge_cases (pos st) (length (tokens st))) as [|Hge]; [assumption|].
      rewrite (matches_past_end _ _ Hge) in Hnl. cbn in Hnl.
      rewrite orb_false_r in Hnl. apply String.eqb_eq in Hnl. contradiction. }
    destruct (IH (advanced st)) as (j & Hrun & Hstop & Hskipped).
    + exact Hlast.
    + unfold advanced. cbn. lia.
    + exists (S j). cbn [ahead]. rewrite <- (ahead_advanced j st).
      repeat split; try assumption.
      intros [|i] Hi; [exact Hnl|]. cbn [ahead]. rewrite <- (ahead_advanced i st).
      apply Hskipped. lia.
  - exists 0. repeat split; [exact Hnl|]. intros i Hi. lia.
Qed.

Lemma recover_loop_ends k :
  forall st,
    tok_type (List.last (tokens st) EOF_token) = "EOF" ->
    length (tokens st) - pos st < k ->
    exists j,
      recover_loop k st = POk tt (ahead j st) /\
      (matches ["EOF"] (ahead j st) = true \/
       exists i, j = S i /\ matches ["NEWLINE"] (ahead i st) = true /\
                 matches statement_starters (ahead j st) = true) /\
      (forall i, i < j -> matches ["EOF"] (ahead i st) = false) /\
      (forall i, S i < j -> matches ["NEWLINE"] (ahead i st) = true ->
                 matches statement_starters (ahead (S i) st) = false).
Proof.
  induction k as [|k IH]; intros st Hlast Hk; [lia|].
  cbn [recover_loop].
  destruct (matches ["EOF"] st) eqn:Heof.
  { exists 0. split; [reflexivity|]. split; [now left|].
    split; intros i Hi; lia. }
  assert (Hpos : pos st < length (tokens st)).
  { destruct (Nat.lt_ge_cases (pos st) (length (tokens st))) as [|Hge]; [assumption|].
    rewrite (matches_past_end _ _ Hge), Hlast in Heof. discriminate Heof. }
  assert (Hgo : (matches ["NEWLINE"] st = true ->
                 matches statement_starters (advanced st) = false) ->
                exists j,
                  recover_loop k (advanced st) = POk tt (ahead j st) /\
                  (matches ["EOF"] (ahead j st) = true \/
                   exists i, j = S i /\ matches ["NEWLINE"] (ahead i st) = true /\
                             matches statement_starters (ahead j st) = true) /\
                  (forall i, i < j -> matches ["EOF"] (ahead i st) = false) /\
                  (forall i, S i < j -> matches ["NEWLINE"] (ahead i st) = true ->
                             matches statement_starters (ahead (S i) st) = false)).
  { intros Hfirst.
    destruct (IH (advanced st)) as (j & Hrun & Hstop & Hskipped & Hpassed);
      [exact Hlast|unfold advanced; cbn; lia|].
    exists (S j). cbn [ahead]. rewrite <- (ahead_advanced j st).
    split; [exact Hrun|]. split; [|split].
    - destruct Hstop as [Hstop|(i & Hj & Hi & Hs)]; [now left|right].
      exists (S i). cbn [ahead]. rewrite <- (ahead_advanced i st). subst j. auto.
    - intros [|i] Hi; [exact Heof|]. cbn [ahead]. rewrite <- (ahead_advanced i st).
      apply Hskipped. lia.
    - intros [|i] Hi Hnl; cbn [ahead] in *.
      + now apply Hfirst.
      + rewrite <- (ahead_advanced i st) in *.
        change (advanced (ahead i (advanced st))) with (ahead (S i) (advanced st)).
        apply Hpassed; [lia|exact Hnl]. }
  destruct (matches ["NEWLINE"] st) eqn:Hnl; [|apply Hgo; discriminate].
  destruct (matches statement_starters (advanced st)) eqn:Hstart; [|apply Hgo; reflexivity].
  exists 1. cbn [ahead]. split; [reflexivity|]. split; [|split].
  - right. exists 0. auto.
  - intros i Hi. assert (i = 0) as -> by lia. exact Heof.
  - intros i Hi. lia.
Qed.

(** X16.  On a token list that does not end with a [NEWLINE] token
    (the lexer's lists end with [EOF]), [skip_newlines] comes to an end:
    it moves the position over the run of [NEWLINE] tokens at the current
    position, stops at the first token that is not one, and changes
    nothing else. *)
Theorem skip_newlines_stops st :
  tok_type (List.last (tokens st) EOF_token) <> "NEWLINE" ->
  exists j,
    skip_newlines st = POk tt (ahead j st) /\
    matches ["NEWLINE"] (ahead j st) = false /\
    forall i, i < j -> matches ["NEWLINE"] (ahead i st) = true.
Proof.
  intros Hlast. apply skip_newlines_loop_ends; [exact Hlast|lia].
Qed.

(** X17.  On a token list that ends with [EOF],
    [recover_to_next_statement] comes to an end and never raises.  It
    only moves the position, to the first place from the current one on
    that is the [EOF] token, or a token that can start a statement and
    follows a [NEWLINE] token at or after the current position: it
    passes no [EOF] token and no token of that kind on the way. *)
Theorem recovery_stops_at_statement st :
  tok_type (List.last (tokens st) EOF_token) = "EOF" ->
  exists j,
    recover_to_next_statement st = POk tt (ahead j st) /\
    (matches ["EOF"] (ahead j st) = true \/
     exists i, j = S i /\ matches ["NEWLINE"] (ahead i st) = true /\
               matches statement_starters (ahead j st) = true) /\
    (forall i, i < j -> matches ["EOF"] (ahead i st) = false) /\
    (forall i, S i < j -> matches ["NEWLINE"] (ahead i st) = true ->
               matches statement_starters (ahead (S i) st) = false).
Proof.
  intros Hlast. apply recover_loop_ends; [exact Hlast|lia].
Qed.

(** * The statements: facts *)

Lemma pbind_ok {A B : Type} (m : PM A) (k : A -> PM B) st b st' :
  pbind m k st = POk b st' ->
  exists a st1, m st = POk a st1 /\ k a st1 = POk b st'.
Proof.
  unfold pbind. destruct (m st) as [a st1|e st1|]; try discriminate. eauto.
Qed.

Lemma expect_ok t st tok st' :
  expect t st = POk tok st' ->
  tok_type (current_tok st) = t /\ tok = current_tok st /\ st' = advanced st.
Proof.
  unfold expect. destruct (String.eqb _ _) eqn:E; [|discriminate].
  apply String.eqb_eq in E. intros [= <- <-]. auto.
Qed.

Lemma skip_newlines_frame : keeps skip_newlines.
Proof.
  apply (outcome_skip_newlines frame frame frame_refl frame_trans frame_trans frame_advanced).
Qed.

(** X18.  A theorem block that parses stores, under the name that
    follows the keyword, what its own statements gather: they are parsed
    from no assumptions and no claim, up to the first [prove], and the
    assumptions and the claim they leave are the assumptions and the
    conclusion of the stored theorem.  The assumptions and the claim of
    the enclosing unit are afterwards as they were before the block. *)
Theorem theorem_block_is_scoped fs n st st' :
  parse_theorem fs (S n) st = POk tt st' ->
  let name := tok_value (current_tok (advanced st)) in
  exists st0 st1 conclusion,
    tok_type (current_tok (advanced st)) = "IDENT" /\
    skip_newlines (ahead 3 st) = POk tt st0 /\
    while_cond (S (length (tokens st0)))
      (fun st => negb (matches ["EOF"] st) && negb (bool_decide (is_Some (claim st))))
      (fun _ => parse_statement fs n ;;; skip_newlines) tt
      (set_claim None (set_assumptions [] st0)) = POk tt st1 /\
    claim st1 = Some conclusion /\
    theorems st' = <[name := (assumptions st1, conclusion)]> (theorems st1) /\
    theorems st' !! name = Some (assumptions st1, conclusion) /\
    assumptions st' = assumptions st /\ claim st' = claim st.
Proof.
  intros H name. subst name. cbn [parse_theorem] in H.
  rewrite pbind_advance in H.
  apply pbind_ok in H as (name_tok & s1 & Hname & H).
  apply expect_ok in Hname as (Hty & -> & ->).
  apply pbind_ok in H as (colon & s2 & Hcolon & H).
  apply expect_ok in Hcolon as (_ & _ & ->).
  apply pbind_ok in H as ([] & s3 & Hskip & H).
  pose proof (skip_newlines_frame (advanced (advanced (advanced st)))) as Hframe.
  rewrite Hskip in Hframe. destruct Hframe as (_ & Ha & _ & Hc & _).
  rewrite pbind_pget in H.
  unfold pbind, pmodify, pget in H.
  destruct (while_cond _ _ _ _ _) as [[] s4|e s4|] eqn:Hbody; try discriminate H.
  destruct (claim s4) as [conclusion|] eqn:Hclaim; [|discriminate H].
  injection H as <-.
  exists s3, s4, conclusion. cbn.
  repeat split; try assumption.
  apply lookup_insert_eq.
Qed.


(** ** Imports *)

Lemma only_theorems_refl st : only_theorems st st.
Proof. unfold only_theorems. repeat split; reflexivity. Qed.

Lemma only_theorems_trans a b c :
  only_theorems a b -> only_theorems b c -> only_theorems a c.
Proof.
  unfold only_theorems. intros (?&?&?&?&?&?&?&?&?&?) (?&?&?&?&?&?&?&?&?&?).
  repeat split; try congruence; etrans; eassumption.
Qed.

Lemma import_file_only_theorems fs (ps : PM unit) path tok :
  outcome adds grows ps ->
  outcome only_theorems only_theorems (import_file fs ps path tok).
Proof.
  intros H st. unfold import_file.
  destruct (load_tokens fs path) as [toks|]; [|apply only_theorems_refl].
  set (lib0 := set_imported_files _ _).
  assert (Hrun : outcome grows grows (skip_newlines ;;; statements_loop ps)).
  { apply outcome_pbind; try outcome_side.
    - apply outcome_skip_newlines; outcome_side.
    - intros _. apply outcome_statements_loop; try outcome_side.
      eapply outcome_weaken; [| |exact H]; auto using adds_grows. }
  specialize (Hrun lib0).
  destruct ((skip_newlines ;;; statements_loop ps) lib0) as [[] lib|e lib|]; [| |exact I];
    destruct Hrun as (_&_&_&_&_&_&_&_&Himp);
    unfold only_theorems; cbn; repeat split; try reflexivity; try exact Himp.
  set_solver.
Qed.

(** X20.  An import gives the importing unit theorems and nothing
    else: whether it returns or raises, the assumptions, the steps, the
    claim, the variables and their types are as before, and no theorem
    name and no imported path is lost.  Once the path has been read from
    the statement it is recorded as imported, also when the file is
    missing or fails to parse. *)
Theorem import_gives_theorems_only fs n st :
  types_ahead ["IMPORT"; "STRING"] st ->
  let path := resolve fs (base_path st) (strip_ends (tok_value (current_tok (advanced st)))) in
  match parse_import fs (S n) st with
  | POk _ st' | PErr _ st' => only_theorems st st' /\ path ∈ imported_files st'
  | PFuel => True
  end.
Proof.
  intros Htypes path. cbn [types_ahead] in Htypes. destruct Htypes as (Himport & Hstring & _).
  cbn [parse_import]. repeat step.
  change (base_path (advanced (advanced st))) with (base_path st). fold path.
  change (imported_files (advanced (advanced st))) with (imported_files st).
  assert (H2 : only_theorems st (advanced (advanced st))).
  { unfold only_theorems. repeat split; reflexivity. }
  case_bool_decide as Hin.
  { split; [exact H2|exact Hin]. }
  rewrite pbind_pmodify.
  set (st2 := set_imported_files _ _).
  assert (Hst2 : only_theorems st st2 /\ path ∈ imported_files st2).
  { unfold only_theorems, st2. cbn. repeat split; try reflexivity; set_solver. }
  destruct (negb (exists_ fs path)); [exact Hst2|].
  pose proof (import_file_only_theorems fs (parse_statement fs n) path
                (current_tok (advanced st))
                (proj1 (statement_methods_add fs n)) st2) as Hfile.
  destruct (import_file _ _ _ _ st2) as [[] st'|e st'|]; [| |exact I];
    (split; [eapply only_theorems_trans; [exact (proj1 Hst2)|exact Hfile]|]);
    destruct Hfile as (_&_&_&_&_&_&_&_&_&Himp); apply Himp, Hst2.
Qed.

(** X21.  Importing a path that is already recorded as imported
    does nothing: the statement returns with only the position moved
    over its two tokens, and the file is not read. *)
Theorem import_twice_is_once fs n st :
  types_ahead ["IMPORT"; "STRING"] st ->
  resolve fs (base_path st) (strip_ends (tok_value (current_tok (advanced st))))
    ∈ imported_files st ->
  parse_statement fs (S (S n)) st = POk tt (ahead 2 st).
Proof.
  cbn [types_ahead]. intros (Himport & Hstring & _) Hin.
  cbn [parse_statement parse_import]. repeat step.
  change (base_path (advanced (advanced st))) with (base_path st).
  change (imported_files (advanced (advanced st))) with (imported_files st).
  now rewrite bool_decide_true.
Qed.

(** ** Cases blocks *)

Lemma keeps_triple {A : Type} (m : PM A) x :
  keeps m -> triple (frame x) m (fun _ => frame x).
Proof.
  intros Hm st Hx. specialize (Hm st). destruct (m st); try exact I.
  eapply frame_trans; eassumption.
Qed.

(** X22.  A cases block that parses adds exactly one step, of type
    [cases], with at least one case; every case has a condition and a
    list of steps, each of them a single formula.  The assumptions and
    the claim are as before: what a case assumes or derives stays in the
    step. *)
Theorem cases_block_adds_one_step n st st' :
  parse_cases (parse_formula n) st = POk tt st' ->
  exists cases,
    cases <> [] /\ Forall is_case cases /\
    steps st' = steps st ++ [cases_item cases] /\
    assumptions st' = assumptions st /\ claim st' = claim st /\
    var_types st' = var_types st /\ theorems st' = theorems st.
Proof.
  intros H.
  pose proof (proj1 (parse_methods_keep n)) as Hformula.
  assert (Hspec : triple (frame st) (parse_cases (parse_formula n))
                    (fun _ s =>
                       exists cases,
                         cases <> [] /\ Forall is_case cases /\
                         steps s = steps st ++ [cases_item cases] /\
                         assumptions s = assumptions st /\ claim s = claim st /\
                         var_types s = var_types st /\ theorems s = theorems st)).
  { unfold parse_cases.
    then_; [apply keeps_triple, keeps_advance|].
    then_; [apply keeps_triple, keeps_expect|].
    then_; [apply keeps_triple, skip_newlines_frame|].
    then_; [apply keeps_triple, keeps_pget|]. cbv zeta.
    then_.
    { unfold while_match.
      eapply triple_pre;
        [|apply (triple_while (fun cases s => frame st s /\ Forall is_case cases))].
      - intros s Hs. split; [exact Hs|constructor].
      - intros cases. apply triple_pure. intros Hcases.
        then_; [apply keeps_triple, keeps_advance|].
        then_; [apply keeps_triple, Hformula|].
        then_; [apply keeps_triple, keeps_expect|].
        then_; [apply keeps_triple, skip_newlines_frame|].
        then_.
        { eapply triple_pre;
            [|apply (triple_while
                       (fun case_steps s =>
                          frame st s /\
                          Forall (fun x => exists f, x = formula_item f) case_steps))].
          - intros s Hs. split; [exact Hs|constructor].
          - intros case_steps. apply triple_pure. intros Hsteps.
            then_; [apply keeps_triple, keeps_pget|].
            destruct (matches _ _).
            + then_; [apply keeps_triple, keeps_advance|].
              then_; [apply keeps_triple, Hformula|].
              then_; [apply keeps_triple, skip_newlines_frame|].
              apply triple_pret. intros s Hs. split; [exact Hs|].
              apply Forall_app. split; [assumption|]. repeat constructor. eauto.
            + then_; [apply keeps_triple, keeps_advance|].
              apply triple_pret. intros s Hs. split; assumption. }
        apply triple_pret. intros s [Hs Hsteps]. split; [exact Hs|].
        apply Forall_app. split; [assumption|]. repeat constructor.
        unfold is_case. eauto. }
    destruct a3 as [|c cases].
    - then_; [apply triple_pget|]. apply triple_praise.
    - intros s [Hs Hcases]. cbn.
      destruct Hs as (_ & Ha & Hsteps & Hc & Ht & Hth & _).
      exists (c :: cases). rewrite Hsteps. repeat split; try assumption. discriminate. }
  specialize (Hspec st (frame_refl st)). now rewrite H in Hspec.
Qed.

(** ** [Parser.parse]: error recovery *)







(** *** The loops of [parse] come to an end *)












(** ** What the methods add and what they consume *)

(** X25.  A statement never takes back what the parser has gathered.
    Whether it returns or raises, the tokens, the base path and the error
    list are as before, the position has not moved back, and the
    variables, the steps, the typed names, the theorem names and the
    imported paths from before are still there.  When it returns, it has
    consumed at least one token and the assumptions from before are still
    there, in front.  (When it raises, the assumptions and the claim can
    be those of an unfinished theorem block.) *)
Theorem statement_only_adds fs n st :
  match parse_statement fs n st with
  | POk _ st' => adds st st' /\ pos st < pos st'
  | PErr _ st' => grows st st'
  | PFuel => True
  end.
Proof.
  pose proof (proj1 (statement_methods_add fs n) st) as Hadds.
  pose proof (proj1 (statement_methods_consume fs n) st) as Hpos.
  destruct (parse_statement fs n st) as [[] st'|e st'|]; [|exact Hadds|exact I].
  split; [exact Hadds|]. now apply (Hpos tt st').
Qed.

(** X26.  A formula that parses has consumed at least one token,
    and has changed nothing in the parser but the position and the
    variables, to which it has only added. *)
Theorem formula_consumes_tokens n st f st' :
  parse_formula n st = POk f st' ->
  pos st < pos st' /\ variables st ⊆ variables st' /\ frame st st'.
Proof.
  intros H. split; [|split].
  - exact (proj1 (parse_methods_consume n) st f st' H).
  - pose proof (proj1 (parse_methods_add n) st) as Hadds. rewrite H in Hadds.
    now destruct Hadds as [(_&_&_&_&Hv&_) _].
  - pose proof (proj1 (parse_methods_keep n) st) as Hkeep. now rewrite H in Hkeep.
Qed.

(** X27.  The parser records every name it reads: the variables
    referred to in a formula that parses, and the names its quantifiers
    bind, are all in [variables] afterwards. *)
Theorem formula_names_recorded n st f st' :
  parse_formula n st = POk f st' -> names_of f ⊆ variables st'.
Proof.
  intros H.
  pose proof (proj1 (parse_methods_record n) (variables st) st) as Hrec.
  unfold sees in Hrec. rewrite H in Hrec. specialize (Hrec ltac:(reflexivity)).
  set_solver.
Qed.

(** * The facts above at sample inputs *)

(** [x + y] in the environment that its translation leaves. *)
Lemma term_constants_reused_witness :
  term_to_z3 ∅ (binary "+" x_var (var "y")) [(KStr "x", x_const); (KStr "y", y_const)] =
  Ok (z3.Add x_const y_const, [(KStr "x", x_const); (KStr "y", y_const)]).
Proof.
  refine (proj1 (proj2 (term_constants_reused ∅ (binary "+" x_var (var "y")) []
                          (z3.Add x_const y_const)
                          [(KStr "x", x_const); (KStr "y", y_const)] _))).
  vm_compute. reflexivity.
Defined.

(** The environment with [y] before [x]. *)
Lemma counterexample_in_name_order_witness :
  Permutation [(KStr "y", y_const); (KStr "x", x_const)]
              [(KStr "x", x_const); (KStr "y", y_const)] /\
  Sorted not_after [(KStr "x", x_const); (KStr "y", y_const)].
Proof.
  apply (counterexample_in_name_order [(KStr "y", y_const); (KStr "x", x_const)]).
  vm_compute. reflexivity.
Defined.

(** An environment with the names ["x"] and [1]: the sort raises, and a
    counterexample for it comes out of [prove] as an internal error. *)
Example mixed_names_cannot_be_sorted :
  format_counterexample table_eval [(x_const, "1")]
    [(KStr "x", x_const); (KInt 1, z3.Real (KInt 1))] =
  Raise (PyError "TypeError" "'<' not supported between instances").
Proof. vm_compute. reflexivity. Qed.

(** [assume x > 0], [have x > 10], [have x >= 0]: the first step is
    disproven and the second proven, and the second alone joins the live
    assumptions. *)
Lemma live_assumptions_grow_witness :
  let steps := [formula_item x_large; formula_item x_nonnegative] in
  exists new,
    [disproven_result 0 [(KStr "x", "1")]; proven_result 1] = [] ++ new /\
    [x_positive; x_nonnegative] = [x_positive] ++ proven_formulas 0 steps new /\
    sublist (proven_formulas 0 steps new) (omap plain_formula steps).
Proof.
  apply (live_assumptions_grow mixed_solver table_eval ∅ [(KStr "x", x_const)]
           [formula_item x_large; formula_item x_nonnegative] 0 [] [x_positive]).
  vm_compute. reflexivity.
Defined.

Lemma step_results_numbered_witness :
  exists new,
    [proven_result 0] = [] ++ new /\ length new <= 1 /\
    Forall (fun r => 0 < sr_step r <= 0 + 1) new /\
    StronglySorted lt (map sr_step new).
Proof.
  apply (step_results_numbered helped_solver table_eval ∅ [(KStr "x", x_const)]
           [formula_item x_nonnegative] 0 [] [x_positive] [proven_result 0]
           [x_positive; x_nonnegative]).
  vm_compute. reflexivity.
Defined.

(** [assume x > 0], [have x > 10], [prove x > 0], with [x] declared. *)
Lemma step_model_lists_declared_witness :
  map fst [(KStr "x", "1")] = map fst [(KStr "x", x_const)] /\
  forall k, In k (map fst [(KStr "x", "1")]) <->
            exists name, In name [JStr "x"] /\ hash_key name = Ok k.
Proof.
  refine (step_model_lists_declared small_solver table_eval ∅ [x_positive] x_positive
            [JStr "x"] [formula_item x_large] [(KStr "x", x_const)] _
            [disproven_result 0 [(KStr "x", "1")]] (disproven_result 0 [(KStr "x", "1")])
            [(KStr "x", "1")] _ _ _).
  - vm_compute. reflexivity.
  - vm_compute. reflexivity.
  - left. reflexivity.
  - reflexivity.
Defined.

Lemma declared_environment_witness :
  let vt : gmap string json := {["n" := JStr "Int"]} in
  let env := [(KStr "n", z3.Int (KStr "n")); (KStr "x", z3.Real (KStr "x"))] in
  NoDup (map fst env) /\
  (forall k, is_Some (env_lookup k env) <->
             exists name, In name [JStr "n"; JStr "x"; JStr "n"] /\ hash_key name = Ok k) /\
  (forall k v, env_lookup k env = Some v -> typed_constant vt k v).
Proof.
  intros vt env.
  apply (declared_environment vt [JStr "n"; JStr "x"; JStr "n"]). vm_compute. reflexivity.
Defined.

(** [prove x > 0] from [x > 0], with a solver that proves it. *)
Lemma verdict_comes_from_solver_witness :
  exists env results live q env1,
    declare ∅ [JStr "x"] [] = Ok env /\
    steps_loop yes_solver table_eval ∅ env 0 [] [] [x_positive] = Ok (results, live) /\
    final_query ∅ env live x_positive = Ok (q, env1) /\
    step_results (prove yes_solver table_eval ∅ [x_positive] x_positive [JStr "x"] [])
      = attach results /\
    (ok (prove yes_solver table_eval ∅ [x_positive] x_positive [JStr "x"] []) = true ->
     yes_solver q = unsat) /\
    (status (prove yes_solver table_eval ∅ [x_positive] x_positive [JStr "x"] [])
       = "disproven" ->
     exists m, yes_solver q = sat m /\
               model (prove yes_solver table_eval ∅ [x_positive] x_positive [JStr "x"] [])
                 = Some (model_out table_eval m env1)).
Proof.
  apply (verdict_comes_from_solver yes_solver table_eval ∅ [x_positive] x_positive
           [JStr "x"] []).
  left. vm_compute. reflexivity.
Defined.

(** The disproven step [have x > 10] taken out. *)
Lemma unproven_step_is_inert_witness :
  verdict (prove small_solver table_eval ∅ [x_positive] x_positive [JStr "x"]
             ([] ++ formula_item x_large :: [])) =
  verdict (prove small_solver table_eval ∅ [x_positive] x_positive [JStr "x"] ([] ++ [])).
Proof.
  apply (unproven_step_is_inert small_solver table_eval ∅ [x_positive] x_positive
           [JStr "x"] [] (formula_item x_large) [] [(KStr "x", x_const)] [] [x_positive]
           [disproven_result 0 [(KStr "x", "1")]]).
  - vm_compute. reflexivity.
  - reflexivity.
  - vm_compute. reflexivity.
Defined.

Lemma tokens_end_with_EOF_witness :
  exists body last,
    tokens_of "prove x  # done" = body ++ [last] /\
    tok_type last = "EOF" /\ tok_value last = "" /\
    Forall (fun t => ~ In (tok_type t) lexer_only) body.
Proof.
  apply (tokens_end_with_EOF "prove x  # done"). vm_compute. reflexivity.
Defined.

Lemma lexer_error_at_unmatched_witness :
  pe_message {| pe_message := "Unexpected character"; pe_line := Some 1; pe_col := Some 3 |}
    = "Unexpected character" /\
  exists before rest,
    "x ? y" = before +:+ rest /\ rest <> "" /\ match_token rest = None.
Proof.
  apply (lexer_error_at_unmatched "x ? y"). vm_compute. reflexivity.
Defined.

Lemma keywords_ignore_case_witness :
  fst (classify "Therefore") = fst (classify (lower "Therefore")) /\
  snd (classify "Therefore") = "Therefore" /\
  fst (classify "Therefore") <> "IDENT".
Proof.
  apply (keywords_ignore_case "Therefore"). vm_compute. reflexivity.
Defined.

(** Two empty lines before a statement. *)
Lemma skip_newlines_stops_witness :
  exists j,
    skip_newlines (parser_on (newline +:+ newline +:+ "prove x")) =
      POk tt (ahead j (parser_on (newline +:+ newline +:+ "prove x"))) /\
    matches ["NEWLINE"] (ahead j (parser_on (newline +:+ newline +:+ "prove x"))) = false /\
    forall i, i < j ->
      matches ["NEWLINE"] (ahead i (parser_on (newline +:+ newline +:+ "prove x"))) = true.
Proof.
  apply (skip_newlines_stops (parser_on (newline +:+ newline +:+ "prove x"))).
  vm_compute. discriminate.
Defined.

(** Recovery from the first token of [two_starts_source]: it stops at
    [assume], and does not go on to [prove] or to the end. *)
Lemma recovery_stops_at_statement_witness :
  let st := parser_on two_starts_source in
  exists j,
    recover_to_next_statement st = POk tt (ahead j st) /\
    (matches ["EOF"] (ahead j st) = true \/
     exists i, j = S i /\ matches ["NEWLINE"] (ahead i st) = true /\
               matches statement_starters (ahead j st) = true) /\
    (forall i, i < j -> matches ["EOF"] (ahead i st) = false) /\
    (forall i, S i < j -> matches ["NEWLINE"] (ahead i st) = true ->
               matches statement_starters (ahead (S i) st) = false).
Proof.
  intros st. apply (recovery_stops_at_statement st). vm_compute. reflexivity.
Defined.

Example recovery_stops_at_first_start :
  recover_to_next_statement (parser_on two_starts_source) =
  POk tt (ahead 3 (parser_on two_starts_source)).
Proof. vm_compute. reflexivity. Qed.

(** The theorem block of [block_source], in a unit that assumes [x > 0]:
    the stored theorem has the assumption of the block, and the unit its
    own. *)
Lemma theorem_block_is_scoped_witness :
  let st := set_assumptions [x_positive] (parser_on block_source) in
  let st' := state_after (parse_theorem no_files 20 st) st in
  exists st0 st1 conclusion,
    tok_type (current_tok (advanced st)) = "IDENT" /\
    skip_newlines (ahead 3 st) = POk tt st0 /\
    while_cond (S (length (tokens st0)))
      (fun st => negb (matches ["EOF"] st) && negb (bool_decide (is_Some (claim st))))
      (fun _ => parse_statement no_files 19 ;;; skip_newlines) tt
      (set_claim None (set_assumptions [] st0)) = POk tt st1 /\
    claim st1 = Some conclusion /\
    theorems st' =
      <[tok_value (current_tok (advanced st)) := (assumptions st1, conclusion)]>
        (theorems st1) /\
    theorems st' !! tok_value (current_tok (advanced st))
      = Some (assumptions st1, conclusion) /\
    assumptions st' = assumptions st /\ claim st' = claim st.
Proof.
  intros st st'. apply (theorem_block_is_scoped no_files 19 st st').
  vm_compute. reflexivity.
Defined.

Example stored_theorem_has_block_assumptions :
  let st := set_assumptions [x_positive] (parser_on block_source) in
  let st' := state_after (parse_theorem no_files 20 st) st in
  theorems st' !! "pos_square" =
    Some ([rel ">" (var "y") (num "0")],
          rel ">" (binary "*" (var "y") (var "y")) (num "0")) /\
  assumptions st' = [x_positive] /\ claim st' = None.
Proof. vm_compute. repeat split; reflexivity. Qed.

Lemma formula_consumes_tokens_witness :
  let st := parser_on "x > 0" in
  let st' := state_after (parse_formula 20 st) st in
  pos st < pos st' /\ variables st ⊆ variables st' /\ frame st st'.
Proof.
  intros st st'. apply (formula_consumes_tokens 20 st x_positive st').
  vm_compute. reflexivity.
Defined.

Lemma formula_names_recorded_witness :
  names_of (quantified "forall" ["x"] (rel ">" x_var (var "y"))) ⊆
  variables (state_after (parse_formula 20 (parser_on "forall x. x > y"))
               (parser_on "forall x. x > y")).
Proof.
  apply (formula_names_recorded 20 (parser_on "forall x. x > y")).
  vm_compute. reflexivity.
Defined.


(** The first import of [importing_source]. *)
Lemma import_gives_theorems_only_witness :
  match parse_import one_file 20 (parser_on importing_source) with
  | POk _ st' | PErr _ st' =>
      only_theorems (parser_on importing_source) st' /\
      "./lib.proof" ∈ imported_files st'
  | PFuel => True
  end.
Proof.
  apply (import_gives_theorems_only one_file 19 (parser_on importing_source)).
  vm_compute. auto.
Defined.

(** The second import of [importing_source]. *)
Lemma import_twice_is_once_witness :
  parse_statement one_file 2 importing_st = POk tt (ahead 2 importing_st).
Proof.
  apply (import_twice_is_once one_file 0 importing_st).
  - vm_compute. auto.
  - apply (bool_decide_unpack _). vm_compute. reflexivity.
Defined.

(** The cases block of [leaky_source]. *)
Lemma cases_block_adds_one_step_witness :
  let st' := state_after (parse_cases (parse_formula 20) leaky_st) leaky_st in
  exists cases,
    cases <> [] /\ Forall is_case cases /\
    steps st' = steps leaky_st ++ [cases_item cases] /\
    assumptions st' = assumptions leaky_st /\ claim st' = claim leaky_st /\
    var_types st' = var_types leaky_st /\ theorems st' = theorems leaky_st.
Proof.
  intros st'. apply (cases_block_adds_one_step 20 leaky_st st').
  vm_compute. reflexivity.
Defined.


Example stray_source_report :
  match Parser_parse no_files 20 (parser_on stray_source) with
  | PErr report _ =>
      pe_message report =
        "Found 1 error(s):" +:+ newline +:+ "  - line 1, col 1: " +:+ pe_message stray_error
  | _ => False
  end.
Proof. vm_compute. reflexivity. Qed.


(** The answer of the web API for [overreach_source]. *)
Lemma web_step_models_are_empty_witness :
  (forall results r mo,
      web_step_results overreach_response = Some results -> In r results ->
      sr_model r = Some mo -> mo = []) /\
  (web_ok overreach_response = true -> web_status overreach_response = "proven") /\
  (is_Some (web_model overreach_response) -> web_status overreach_response = "disproven").
Proof.
  apply (web_step_models_are_empty no_files small_solver table_eval 20 "." overreach_source).
  vm_compute. reflexivity.
Defined.

Lemma verdict_ignores_declaration_order_witness :
  ok (prove small_solver table_eval ∅ [x_positive] x_large [JStr "x"; JStr "y"] []) =
  ok (prove small_solver table_eval ∅ [x_positive] x_large [JStr "y"; JStr "x"] []) /\
  status (prove small_solver table_eval ∅ [x_positive] x_large [JStr "x"; JStr "y"] []) =
  status (prove small_solver table_eval ∅ [x_positive] x_large [JStr "y"; JStr "x"] []).
Proof.
  apply (verdict_ignores_declaration_order small_solver table_eval ∅ [x_positive] x_large
           [JStr "x"; JStr "y"] [JStr "y"; JStr "x"] []).
  apply perm_swap.
Defined.

(** * The tests of the repository, and the scenarios of its
    specification *)

(** [test_parser.py] *)

Example test_simple_parse :
  exists u, parse no_files 30 "prove x > 0" "." = ParsedUnit u /\
            pu_claim u = rel ">" (var "x") (num "0").
Proof. eexists. split; vm_compute; reflexivity. Qed.

Example test_assumptions_and_claim :
  exists u,
    parse no_files 30 ("assume x > 0" // "assume y < 10" // "prove x + y < 20") "." =
    ParsedUnit u /\
    length (pu_assumptions u) = 2 /\ "x" ∈ pu_vars u /\ "y" ∈ pu_vars u.
Proof.
  eexists. split; [vm_compute; reflexivity|].
  split; [reflexivity|]. split; apply (bool_decide_unpack _); vm_compute; reflexivity.
Qed.

Example test_operator_precedence :
  exists u, parse no_files 30 "prove x + y * z > 0" "." = ParsedUnit u /\
            pu_claim u =
            rel ">" (binary "+" (var "x") (binary "*" (var "y") (var "z"))) (num "0").
Proof. eexists. split; vm_compute; reflexivity. Qed.

Example test_parentheses :
  exists u, parse no_files 30 "prove (x + y) * z > 0" "." = ParsedUnit u /\
            pu_claim u =
            rel ">" (binary "*" (binary "+" (var "x") (var "y")) (var "z")) (num "0").
Proof. eexists. split; vm_compute; reflexivity. Qed.

Example test_quantifiers_parse :
  exists u, parse no_files 30 "prove forall x. x >= 0" "." = ParsedUnit u /\
            pu_claim u = quantified "forall" ["x"] (rel ">=" (var "x") (num "0")).
Proof. eexists. split; vm_compute; reflexivity. Qed.

Example test_syntax_error :
  exists e, parse no_files 30 "prove x >" "." = ParseFailed e.
Proof. eexists. vm_compute. reflexivity. Qed.

Example test_unknown_token :
  exists e, parse no_files 30 "prove x @ 0" "." = ParseFailed e.
Proof. eexists. vm_compute. reflexivity. Qed.

(** [test_prover.py], with the answers the solver gives scripted.  The
    tests write their literals as Python integers. *)

Example test_simple_arithmetic :
  let assumptions := [rel ">" (var "x") (num_val (JInt 0))] in
  let claim := rel ">" (binary "+" (var "x") (num_val (JInt 1))) (num_val (JInt 1)) in
  let solver :=
    scripted (Model := list (z3.expr * string))
      [([z3.Gt x_const (z3.RealVal (JInt 0));
         z3.Not (z3.Gt (z3.Add x_const (z3.RealVal (JInt 1))) (z3.RealVal (JInt 1)))], unsat)] in
  let result := prove solver table_eval ∅ assumptions claim [JStr "x"] [] in
  ok result = true /\ status result = "proven".
Proof. vm_compute. split; reflexivity. Qed.

Example test_arithmetic_counterexample :
  let assumptions := [rel ">" (var "x") (num_val (JInt 0))] in
  let claim := rel ">" (var "x") (num_val (JInt 5)) in
  let solver :=
    scripted [([z3.Gt x_const (z3.RealVal (JInt 0)); z3.Not (z3.Gt x_const (z3.RealVal (JInt 5)))],
               sat [(x_const, "1")])] in
  let result := prove solver table_eval ∅ assumptions claim [JStr "x"] [] in
  ok result = false /\ status result = "disproven" /\
  model result = Some [(KStr "x", "1")] /\
  message result = Some ("Counterexample found:" // "  x = 1").
Proof. vm_compute. repeat split; reflexivity. Qed.

Example test_absolute_value :
  let claim := rel ">=" (abs_term (var "x")) (num_val (JInt 0)) in
  let solver :=
    scripted (Model := list (z3.expr * string))
      [([z3.Not (z3.Ge (z3.If (z3.Ge x_const (z3.PyInt 0)) x_const (z3.Neg x_const)) (z3.RealVal (JInt 0)))],
        unsat)] in
  ok (prove solver table_eval ∅ [] claim [JStr "x"] []) = true.
Proof. vm_compute. reflexivity. Qed.

Example test_quantifiers :
  let body := rel "=" (binary "+" (var "x") (num_val (JInt 0))) (var "x") in
  let claim := JObj [("type", JStr "forall"); ("vars", JArr [JStr "x"]); ("body", body)] in
  let solver :=
    scripted (Model := list (z3.expr * string))
      [([z3.Not (z3.ForAll [x_const] (z3.Eq (z3.Add x_const (z3.RealVal (JInt 0))) x_const))], unsat)] in
  ok (prove solver table_eval ∅ [] claim [] []) = true.
Proof. vm_compute. reflexivity. Qed.

Example test_unsat_assumptions :
  let assumptions := [rel ">" (var "x") (num_val (JInt 0));
                      rel "<" (var "x") (num_val (JInt 0))] in
  let claim := rel "=" (var "x") (num_val (JInt 100)) in
  let solver :=
    scripted (Model := list (z3.expr * string))
      [([z3.Gt x_const (z3.RealVal (JInt 0)); z3.Lt x_const (z3.RealVal (JInt 0));
         z3.Not (z3.Eq x_const (z3.RealVal (JInt 100)))], unsat)] in
  ok (prove solver table_eval ∅ assumptions claim [JStr "x"] []) = true.
Proof. vm_compute. reflexivity. Qed.

Example test_invalid_input :
  let result := prove yes_solver table_eval ∅ [] (JObj []) [] [] in
  ok result = false /\ status result = "error".
Proof. vm_compute. split; reflexivity. Qed.

(** The scenarios of the specification. *)

(** The unit of [leaky_source] is the one the driver examples run on. *)
Example leaky_source_parses :
  exists u,
    parse no_files 30 leaky_source "." = ParsedUnit u /\
    pu_assumptions u = [x_nonzero] /\ pu_steps u = leaky_steps /\
    pu_claim u = square_positive /\ declared_names u = [JStr "x"].
Proof. eexists. split; [vm_compute; reflexivity|]. repeat split; vm_compute; reflexivity. Qed.

(** [let n: Int] reaches the solver as an integer constant. *)
Example integer_variable_query :
  exists u,
    parse no_files 30 ("let n: Int" // "assume n > 0" // "prove n >= 1") "." = ParsedUnit u /\
    final_query (types_dict u) [(KStr "n", z3.Int (KStr "n"))]
      (pu_assumptions u) (pu_claim u) =
    Ok ([z3.Gt (z3.Int (KStr "n")) zero_val;
         z3.Not (z3.Ge (z3.Int (KStr "n")) (z3.RealVal (JStr "1")))],
        [(KStr "n", z3.Int (KStr "n"))]).
Proof. eexists. split; vm_compute; reflexivity. Qed.

(** [a < b < c] and [a < b and b < c] have the same AST. *)
Example chain_equals_conjunction :
  exists u1 u2,
    parse no_files 30 "prove a < b < c" "." = ParsedUnit u1 /\
    parse no_files 30 "prove a < b and b < c" "." = ParsedUnit u2 /\
    pu_claim u1 = pu_claim u2 /\
    pu_claim u1 = conj [rel "<" (var "a") (var "b"); rel "<" (var "b") (var "c")].
Proof.
  do 2 eexists. split; [vm_compute; reflexivity|].
  split; [vm_compute; reflexivity|]. split; vm_compute; reflexivity.
Qed.

(** Each set of a [let] statement, on its own source. *)
Example membership_constraints :
  let assumed source :=
    match parse no_files 30 (source // "prove x = x") "." with
    | ParsedUnit u => Some (pu_assumptions u)
    | _ => None
    end in
  assumed "let x in N" = Some [rel ">=" (var "x") (num "0")] /\
  assumed "let x in N+" = Some [rel ">" (var "x") (num "0")] /\
  assumed "let x in Z+" = Some [rel ">" (var "x") (num "0")] /\
  assumed "let x in R+" = Some [rel ">" (var "x") (num "0")] /\
  assumed "let x in Q+" = Some [rel ">" (var "x") (num "0")] /\
  assumed "let x in R" = Some [] /\
  assumed "let x in Z" = Some [] /\
  assumed "let x in Q" = Some [] /\
  assumed "let x: Int in N = 5" = Some [rel ">=" (var "x") (num "0")].
Proof. vm_compute. repeat split; reflexivity. Qed.

(** A bound variable ends up in the counterexample of the final query. *)
Example bound_name_in_model :
  let solver := scripted [([z3.Not (z3.ForAll [x_const] (z3.Gt x_const zero_val))], sat [(x_const, "0")])] in
  model (prove solver table_eval ∅ [] (quantified "forall" ["x"] x_positive) [] []) =
  Some [(KStr "x", "0")].
Proof. vm_compute. reflexivity. Qed.

(** A file is imported once, and only its theorems are taken over. *)
Example import_once :
  exists u,
    parse one_file 30 importing_source "." = ParsedUnit u /\
    pu_assumptions u = [rel ">=" (binary "*" (var "y") (var "y")) (num "0")] /\
    pu_vars u = {["y"]}.
Proof.
  eexists. split; [vm_compute; reflexivity|].
  split; [vm_compute; reflexivity|].
  apply (bool_decide_unpack _). vm_compute. reflexivity.
Qed.

(** The type a [let] statement records: the set wins over the
    annotation, and a statement with neither records [Real]. *)
Example recorded_types :
  forall s,
    let_type NoType None s = "Real" /\
    let_type TypeInt None s = "Int" /\
    let_type TypeReal None s = "Real" /\
    let_type TypeInt (Some false) "R" = "Real" /\
    let_type TypeInt (Some true) "Q" = "Real" /\
    let_type NoType (Some false) "Z" = "Int" /\
    let_type TypeReal (Some false) "N" = "Int".
Proof. intros s. repeat split. Qed.
